(** * V.py: an online, windowed Viterbi decoder

    A shallow embedding of the class [Viterbi] of [src/V.py].

    - Probabilities are Python floats, that is IEEE 754 binary64 numbers:
      they are modelled by Rocq's primitive floats, whose operations are
      the very same ones ([*], [/], [+], [<], [==]).
    - A Python [dict] keeps its keys in insertion order, and that order is
      observable here (the arg-max keeps the first maximal score it meets):
      a dict is an association list with the operations of the language.
    - [step] mutates objects that the caller still holds (the path table and
      the lists inside it), so dict and list objects live in a store and are
      passed around by reference.  Exceptions are outcomes of a computation,
      and carry the store as the exception left it. *)

From Corelib Require Import PrimFloat.
From Corelib Require SpecFloat FloatAxioms.
From Stdlib Require Import Lia Uint63.
From stdpp Require Import base list strings.

Local Open Scope string_scope.
Local Open Scope list_scope.

(** ** Values *)

(** State identifiers and observations are opaque hashable values. *)
Abbreviation state := string (only parsing).
Abbreviation observation := string (only parsing).

Definition float_of_nat (n : nat) : float := PrimFloat.of_uint63 (Uint63.of_nat n).

(** ** Python dictionaries *)

Abbreviation dict A := (list (state * A)) (only parsing).

Section Dict.
Context {A : Type}.

(** [d.get(k)] *)
Fixpoint dget (d : dict A) (k : state) : option A :=
  match d with
  | [] => None
  | (k', v) :: r => if String.eqb k' k then Some v else dget r k
  end.

(** [k in d] *)
Definition dmem (d : dict A) (k : state) : bool :=
  match dget d k with Some _ => true | None => false end.

(** [d[k] = v]: an existing key keeps its place, a new one goes last. *)
Fixpoint dset (d : dict A) (k : state) (v : A) : dict A :=
  match d with
  | [] => [(k, v)]
  | (k', v') :: r =>
      if String.eqb k' k then (k', v) :: r else (k', v') :: dset r k v
  end.

(** [del d[k]] on a key that is present: its entry goes, the others
    keep their order. *)
Definition ddel (d : dict A) (k : state) : dict A :=
  List.filter (fun kv => negb (String.eqb (fst kv) k)) d.

(** [d.keys()], [d.values()], in insertion order. *)
Definition dkeys (d : dict A) : list state := map fst d.
Definition dvalues (d : dict A) : list A := map snd d.

(** [dict(pairs)] *)
Definition dict_of_pairs (l : list (state * A)) : dict A :=
  fold_left (fun d kv => dset d (fst kv) (snd kv)) l [].

(** The representation invariant of a dict: no key occurs twice. *)
Definition dict_wf (d : dict A) : Prop := NoDup (dkeys d).
End Dict.

(** ** Exceptions and pure fallible computations *)

Inductive exn :=
| KeyError
| IndexError
| ZeroDivisionError
| InvalidReference.   (* a dangling reference: no Python program has one *)

Inductive result (A : Type) :=
| Ok (a : A)
| Err (e : exn).
Arguments Ok {A} a.
Arguments Err {A} e.

Definition rbind {A B} (m : result A) (f : A -> result B) : result B :=
  match m with Ok a => f a | Err e => Err e end.

Declare Scope res_scope.
Delimit Scope res_scope with res.
Notation "x <- m ; k" := (rbind m (fun x => k))
  (at level 20, m at level 100, k at level 200, only parsing) : res_scope.
Notation "' p <- m ; k" := (rbind m (fun p => k))
  (at level 20, p pattern, m at level 100, k at level 200, only parsing) : res_scope.

(** [d[k]] *)
Definition subscript {A} (d : dict A) (k : state) : result A :=
  match dget d k with Some v => Ok v | None => Err KeyError end.

(** [sum(l)]: the additions start from 0. *)
Definition sum (l : list float) : float := fold_left PrimFloat.add l 0%float.

(** [a / n] for a float [a] and an int [n] that is not negative *)
Definition truediv_int (a : float) (n : nat) : result float :=
  if (n =? 0)%nat then Err ZeroDivisionError else Ok (a / float_of_nat n)%float.

(** [a / b] on floats *)
Definition truediv (a b : float) : result float :=
  if PrimFloat.eqb b 0 then Err ZeroDivisionError else Ok (a / b)%float.

(** [[f(x) for x in l if c(x)]]: [f] answers [None] where the condition
    fails. *)
Fixpoint comprehension {A B} (f : A -> result (option B)) (l : list A)
  : result (list B) :=
  match l with
  | [] => Ok []
  | x :: r =>
      (y <- f x ;
       ys <- comprehension f r ;
       Ok (match y with Some b => b :: ys | None => ys end))%res
  end.

(** ** The store *)

Abbreviation loc := nat (only parsing).

(** Three kinds of objects are involved: dicts from states to floats
    (distributions), dicts from states to lists (path tables), and lists of
    states (paths). *)
Record heap := Heap {
  dists : list (dict float);
  tables : list (dict loc);
  lists : list (list state)
}.

Definition empty_heap : heap := Heap [] [] [].

Inductive outcome (A : Type) :=
| Return (a : A) (h : heap)
| Raise (e : exn) (h : heap).
Arguments Return {A} a h.
Arguments Raise {A} e h.

Definition M (A : Type) := heap -> outcome A.

Definition ret {A} (a : A) : M A := fun h => Return a h.

Definition bind {A B} (m : M A) (f : A -> M B) : M B :=
  fun h => match m h with Return a h' => f a h' | Raise e h' => Raise e h' end.

Definition lift {A} (r : result A) : M A :=
  fun h => match r with Ok a => Return a h | Err e => Raise e h end.

Declare Scope py_scope.
Delimit Scope py_scope with py.
Notation "x <- m ; k" := (bind m (fun x => k))
  (at level 20, m at level 100, k at level 200, only parsing) : py_scope.
Notation "' p <- m ; k" := (bind m (fun p => k))
  (at level 20, p pattern, m at level 100, k at level 200, only parsing) : py_scope.
Notation "m ;; k" := (bind m (fun _ => k))
  (at level 100, k at level 200, only parsing, right associativity) : py_scope.

(** [for x in l: body(x)] *)
Fixpoint for_ {A} (l : list A) (body : A -> M unit) : M unit :=
  match l with
  | [] => ret tt
  | x :: r => (body x ;; for_ r body)%py
  end.

(** [for x in l: acc = body(acc, x)], for a loop that updates a local. *)
Fixpoint for_acc {A S} (l : list A) (acc : S) (body : S -> A -> M S) : M S :=
  match l with
  | [] => ret acc
  | x :: r => (acc' <- body acc x ; for_acc r acc' body)%py
  end.

(** Allocation, reading and writing of each kind of object. *)
Definition new_dist (d : dict float) : M loc :=
  fun h => Return (length (dists h)) (Heap (dists h ++ [d]) (tables h) (lists h)).
Definition get_dist (r : loc) : M (dict float) :=
  fun h => match dists h !! r with
           | Some d => Return d h
           | None => Raise InvalidReference h
           end.
Definition put_dist (r : loc) (d : dict float) : M unit :=
  fun h => match dists h !! r with
           | Some _ => Return tt (Heap (<[r := d]> (dists h)) (tables h) (lists h))
           | None => Raise InvalidReference h
           end.

Definition new_table (d : dict loc) : M loc :=
  fun h => Return (length (tables h)) (Heap (dists h) (tables h ++ [d]) (lists h)).
Definition get_table (r : loc) : M (dict loc) :=
  fun h => match tables h !! r with
           | Some d => Return d h
           | None => Raise InvalidReference h
           end.
Definition put_table (r : loc) (d : dict loc) : M unit :=
  fun h => match tables h !! r with
           | Some _ => Return tt (Heap (dists h) (<[r := d]> (tables h)) (lists h))
           | None => Raise InvalidReference h
           end.

Definition new_list (l : list state) : M loc :=
  fun h => Return (length (lists h)) (Heap (dists h) (tables h) (lists h ++ [l])).
Definition get_list (r : loc) : M (list state) :=
  fun h => match lists h !! r with
           | Some l => Return l h
           | None => Raise InvalidReference h
           end.
Definition put_list (r : loc) (l : list state) : M unit :=
  fun h => match lists h !! r with
           | Some _ => Return tt (Heap (dists h) (tables h) (<[r := l]> (lists h)))
           | None => Raise InvalidReference h
           end.

Local Open Scope py_scope.

(** [d[k] = v] and [del d[k]] on a distribution object. *)
Definition dist_setitem (r : loc) (k : state) (v : float) : M unit :=
  d <- get_dist r ; put_dist r (dset d k v).
Definition dist_delitem (r : loc) (k : state) : M unit :=
  d <- get_dist r ;
  if dmem d k then put_dist r (ddel d k) else lift (Err KeyError).

(** [k in t], [t[k]], [t[k] = l] and [del t[k]] on a path-table object. *)
Definition table_contains (r : loc) (k : state) : M bool :=
  t <- get_table r ; ret (dmem t k).
Definition table_getitem (r : loc) (k : state) : M loc :=
  t <- get_table r ; lift (subscript t k).
Definition table_setitem (r : loc) (k : state) (l : loc) : M unit :=
  t <- get_table r ; put_table r (dset t k l).
Definition table_delitem (r : loc) (k : state) : M unit :=
  t <- get_table r ;
  if dmem t k then put_table r (ddel t k) else lift (Err KeyError).

(** [l.pop(0)] *)
Definition list_pop0 (r : loc) : M state :=
  l <- get_list r ;
  match l with
  | [] => lift (Err IndexError)
  | x :: l' => put_list r l' ;; ret x
  end.

(** ** The class [Viterbi] *)

Module Viterbi.

(** The attributes that [__init__] sets on [self].  [hmm] and [incoming]
    are never written after construction and are kept as values; [priors]
    is a reference, since [self.priors = priors] shares the caller's
    object.  [constraint_length] counts the steps kept of a path and is a
    natural number. *)
Record t := Self {
  hmm : dict (list (state * float));
  emission_probability : state -> observation -> float;
  constraint_length : nat;
  candidate_states : observation -> list state;
  priors : loc;
  incoming : dict (dict float);
  smallV : float
}.

(** The default values of the keyword arguments. *)
Definition default_constraint_length : nat := 10.
Definition default_smallV : float := 0x1.5fd7fe1796495p-37%float.

(** The truth value of the argument [priors]: [None] and the empty dict
    are false. *)
Definition truth (priors : option loc) : M bool :=
  match priors with
  | None => ret false
  | Some p => d <- get_dist p; ret (match d with [] => false | _ => true end)
  end.

(** Lines 31-34: one edge of the transition graph enters the reverse
    index. *)
Definition add_incoming (from_state : state) (inc : dict (dict float))
    (edge : state * float) : M (dict (dict float)) :=
  let '(to_state, probability) := edge in
  let inc := if dmem inc to_state then inc else dset inc to_state [] in
  inner <- lift (subscript inc to_state);
  ret (dset inc to_state (dset inner from_state probability)).

Definition __init__ (hmm : dict (list (state * float)))
    (emission_probability : state -> observation -> float)
    (priors : option loc) (constraint_length : nat)
    (candidate_states : option (observation -> list state))
    (smallV : float) : M t :=
  let candidate_states :=
    match candidate_states with
    | Some f => f
    | None => fun _ => dkeys hmm
    end in
  given <- truth priors;
  priors <- match priors, given with
            | Some p, true => ret p
            | _, _ =>
                p <- new_dist [];
                for_ (dkeys hmm) (fun state =>
                  q <- lift (truediv_int 1 (length hmm));
                  dist_setitem p state q);;
                ret p
            end;
  incoming <- for_acc (dkeys hmm) [] (fun inc from_state =>
                edges <- lift (subscript hmm from_state);
                for_acc edges inc (add_incoming from_state));
  ret (Self hmm emission_probability constraint_length candidate_states
            priors incoming smallV).

(** Lines 54-56: the predecessors of [to_state], driven by the reverse
    index. *)
Definition incoming_driven (inc V : dict float) : result (list (state * float)) :=
  comprehension (fun from_state =>
    if dmem V from_state then
      (v <- subscript V from_state;
       if (0 <? v)%float then
         p <- subscript inc from_state; Ok (Some (from_state, p))
       else Ok None)%res
    else Ok None) (dkeys inc).

(** Lines 59-60: the predecessors of [to_state], driven by the
    distribution. *)
Definition distribution_driven (inc V : dict float) : result (list (state * float)) :=
  comprehension (fun from_state =>
    if dmem inc from_state then
      (p <- subscript inc from_state; Ok (Some (from_state, p)))%res
    else Ok None) (dkeys V).

(** Lines 53-60 *)
Definition nonzero_incoming (inc V : dict float) : result (list (state * float)) :=
  if (length inc <? length V)%nat then incoming_driven inc V
  else distribution_driven inc V.

(** Lines 64-68 *)
Definition from_probs (V : dict float) (emission_probability : float)
    (nonzero_incoming : list (state * float)) : result (list (float * state)) :=
  comprehension (fun ftp : state * float =>
    (v <- subscript V (fst ftp);
     Ok (Some ((v * emission_probability * snd ftp)%float, fst ftp)))%res)
    nonzero_incoming.

(** [max(l, key=itemgetter(0))] on a list that is not empty: the first of
    the elements whose score no other exceeds. *)
Definition max_item0 (x : float * state) (l : list (float * state)) : float * state :=
  fold_left (fun best y => if (fst best <? fst y)%float then y else best) l x.

(** Lines 53-70: the best predecessor of [to_state] and its score, if any
    predecessor qualifies. *)
Definition best_from (self : t) (V : dict float) (to_state : state)
    (emission_probability : float) : result (option (float * state)) :=
  (inc <- subscript (incoming self) to_state;
   preds <- nonzero_incoming inc V;
   scored <- from_probs V emission_probability preds;
   Ok (match scored with
       | [] => None
       | x :: l => Some (max_item0 x l)
       end))%res.

(** Lines 73-77 *)
Definition extend_path (self : t) (path new_path : loc)
    (to_state max_from : state) : M unit :=
  present <- table_contains path max_from;
  (if present then ret tt
   else (l <- new_list []; table_setitem path max_from l));;
  l <- table_getitem path max_from;
  old <- get_list l;
  (if (length old =? constraint_length self)%nat
   then (_ <- list_pop0 l; ret tt) else ret tt);;
  l <- table_getitem path max_from;
  old <- get_list l;
  l' <- new_list (old ++ [to_state]);
  table_setitem new_path to_state l'.

(** Lines 50-77: the body of the loop over the candidates. *)
Definition score (self : t) (V path new_V new_path : loc)
    (state_ep : state * float) : M unit :=
  let '(to_state, emission_probability) := state_ep in
  Vd <- get_dist V;
  best <- lift (best_from self Vd to_state emission_probability);
  match best with
  | None => ret tt
  | Some (max_prob, max_from) =>
      dist_setitem new_V to_state max_prob;;
      extend_path self path new_path to_state max_from
  end.

(** Lines 46-48 *)
Definition nonzero_eps (self : t) (obs : observation) : list (state * float) :=
  let state_eps :=
    map (fun candi_state => (candi_state, emission_probability self candi_state obs))
        (candidate_states self obs) in
  List.filter (fun state_ep => (0 <? snd state_ep)%float) state_eps.

(** Lines 41-77: the scores before normalization and the new paths. *)
Definition scores (self : t) (obs : observation) (V : option loc) (path : loc)
    : M (loc * loc) :=
  V <- match V with
       | None => p <- get_dist (priors self); new_dist p
       | Some V => ret V
       end;
  new_V <- new_dist [];
  new_path <- new_table [];
  for_ (nonzero_eps self obs) (score self V path new_V new_path);;
  ret (new_V, new_path).

(** Lines 87-94 *)
Definition normalize (self : t) (V : loc) : M loc :=
  Vd <- get_dist V;
  let sum_prob := sum (dvalues Vd) in
  if (sum_prob =? 0)%float then
    p <- get_dist (priors self); new_dist p
  else
    pairs <- lift (comprehension (fun state =>
               (v <- subscript Vd state;
                q <- truediv v sum_prob;
                Ok (Some (state, q)))%res) (dkeys Vd));
    new_dist (dict_of_pairs pairs).

(** Lines 79-84 *)
Definition prune (self : t) (new_V new_path : loc) : M unit :=
  Vd <- get_dist new_V;
  small <- lift (comprehension (fun x =>
             (v <- subscript Vd x;
              Ok (if (v <? smallV self)%float then Some x else None))%res)
             (dkeys Vd));
  for_ small (fun state =>
    dist_delitem new_V state;;
    present <- table_contains new_path state;
    if present then table_delitem new_path state else ret tt).

Definition step (self : t) (obs : observation) (V : option loc) (path : loc)
    : M (loc * loc) :=
  ' (new_V, new_path) <- scores self obs V path;
  new_V <- normalize self new_V;
  prune self new_V new_path;;
  ret (new_V, new_path).

End Viterbi.

(** ** Specifications of computations *)

(** [post m h Q E]: run from the store [h], the computation [m] either
    returns a value and a store that satisfy [Q], or raises an exception
    and leaves a store that satisfy [E]. *)
Definition post {A} (m : M A) (h : heap)
    (Q : A -> heap -> Prop) (E : exn -> heap -> Prop) : Prop :=
  match m h with
  | Return a h' => Q a h'
  | Raise e h' => E e h'
  end.

(** Every distribution object of [h0] is still there, unchanged, in [h]. *)
Definition dists_kept (h0 h : heap) : Prop :=
  forall i d, dists h0 !! i = Some d -> dists h !! i = Some d.

(** Lines 75-76 on the contents of a path: a path of exactly [L] elements
    loses its oldest one. *)
Definition window (L : nat) (p : list state) : list state :=
  if (length p =? L)%nat then tail p else p.

(** ** The vocabulary of the claims *)

Module Spec.
Import Viterbi.

(** The distribution that a call of [step] reads: the object passed as
    [V], or else the priors (line 42 copies them). *)
Definition input_dist (self : t) (V : option loc) (h : heap) : option (dict float) :=
  match V with
  | Some v => dists h !! v
  | None => dists h !! priors self
  end.

(** The path recorded for [s] in the table [path]: a state without an
    entry has the empty path (lines 73-74). *)
Definition recorded_path (h : heap) (path : loc) (s : state) : option (list state) :=
  match tables h !! path with
  | Some pt =>
      match dget pt s with
      | Some r => lists h !! r
      | None => Some []
      end
  | None => None
  end.

(** The entries of a distribution that pruning keeps (lines 79-81). *)
Definition above_floor (floor : float) (d : dict float) : dict float :=
  List.filter (fun sv => negb (snd sv <? floor)%float) d.

(** The arg-max predecessor of [to] for the observation [obs] (line 70). *)
Definition max_from (self : t) (V : dict float) (obs : observation) (to : state)
    : option state :=
  match best_from self V to (emission_probability self to obs) with
  | Ok (Some (_, mf)) => Some mf
  | _ => None
  end.

(** A store is well formed for a call when [path] refers to a table whose
    entries refer to lists. *)
Definition table_valid (h : heap) (path : loc) : Prop :=
  exists pt, tables h !! path = Some pt /\
    forall s r, dget pt s = Some r -> is_Some (lists h !! r).

(** What a call that received the store [h0] has done to the path table
    and to the lists when the store is [h]:
    - a list of [h0] is as it was, or has lost its oldest element, which
      happens only to a list of exactly [constraint_length] elements;
    - a table other than [path] is as it was;
    - the table [path] has kept its entries, and each entry it has gained
      refers to a new, empty list;
    - the table [new_path] is new, and each of its entries [to] refers to
      a new list: the path recorded in [h0] for the arg-max predecessor
      of [to], cut by [window], followed by [to]. *)
Record scoring (self : t) (obs : observation) (V : dict float)
    (path new_path : loc) (h0 h : heap) : Prop := {
  sc_len : length (lists h0) <= length (lists h);
  sc_lists : forall r l0, lists h0 !! r = Some l0 ->
    lists h !! r = Some l0 \/
    (length l0 = constraint_length self /\ l0 <> [] /\ lists h !! r = Some (tail l0));
  sc_tables : forall i t, i <> path ->
    tables h0 !! i = Some t -> tables h !! i = Some t;
  sc_path : exists pt0 pt,
    tables h0 !! path = Some pt0 /\ tables h !! path = Some pt /\
    (forall s r, dget pt0 s = Some r -> dget pt s = Some r) /\
    (forall s r, dget pt s = Some r ->
       dget pt0 s = Some r \/
       (dget pt0 s = None /\ lists h0 !! r = None /\ lists h !! r = Some []));
  sc_new : exists npt,
    tables h0 !! new_path = None /\ tables h !! new_path = Some npt /\
    forall to r, dget npt to = Some r ->
      lists h0 !! r = None /\
      exists mf p,
        max_from self V obs to = Some mf /\
        recorded_path h0 path mf = Some p /\
        (length p = constraint_length self -> p <> []) /\
        lists h !! r = Some (window (constraint_length self) p ++ [to])
}.

(** What normalization and pruning (lines 78-84) do to the tables and the
    lists: only the table [new_path] changes, and it only loses entries. *)
Definition pruned (new_path : loc) (h h' : heap) : Prop :=
  lists h' = lists h /\
  length (tables h') = length (tables h) /\
  (forall i, i <> new_path -> tables h' !! i = tables h !! i) /\
  (forall npt : dict loc, tables h !! new_path = Some npt ->
     exists npt' : dict loc, tables h' !! new_path = Some npt' /\
       forall to r, dget npt' to = Some r -> dget npt to = Some r).

(** Malformed transition graphs, as the error taxonomy of the specification
    has them: some edge carries a probability outside (0,1] (a NaN or an
    infinity is outside too). *)
Definition edge_ok (edge : state * float) : bool :=
  ((0 <? snd edge) && (snd edge <=? 1))%float.
Definition malformed (hmm : dict (list (state * float))) : bool :=
  existsb (fun entry => negb (forallb edge_ok (snd entry))) hmm.

(** The paths of the table [table] hold at most [L] states each. *)
Definition paths_bounded (L : nat) (h : heap) (table : loc) : Prop :=
  exists pt : dict loc, tables h !! table = Some pt /\
    forall s r, dget pt s = Some r ->
      exists l, lists h !! r = Some l /\ length l <= L.

(** The decoding loop of a caller: the pair that a step returns is the
    input of the next one. *)
Fixpoint decode (self : t) (observations : list observation)
    (V : option loc) (path : loc) : M (option loc * loc) :=
  match observations with
  | [] => ret (V, path)
  | obs :: rest =>
      r <- step self obs V path;
      decode self rest (Some (fst r)) (snd r)
  end.

(** A distribution and a path table have the same keys. *)
Definition keys_agree (d : dict float) (t : dict loc) : Prop :=
  forall s, dmem d s = dmem t s.


End Spec.

(** ** Concrete models and calls *)

Module Examples.
Import Viterbi.
Local Open Scope float_scope.

Definition always_1 (s : state) (obs : observation) : float := 1.

(** Two states that tend to stay where they are; the observation ["x"]
    favours ["B"]. *)
Definition sticky_hmm : dict (list (state * float)) :=
  [("A", [("A", 0.75); ("B", 0.25)]); ("B", [("A", 0.25); ("B", 0.75)])].
Definition favours_B (s : state) (obs : observation) : float :=
  if String.eqb s "B" then 0.75 else 0.25.
Definition sticky : t :=
  {| hmm := sticky_hmm;
     emission_probability := favours_B;
     constraint_length := 2;
     candidate_states := fun _ => ["A"; "B"];
     priors := 0;
     incoming := [("A", [("A", 0.75); ("B", 0.25)]);
                  ("B", [("A", 0.25); ("B", 0.75)])];
     smallV := default_smallV |}.

(** A store for [sticky]: its priors, two distributions, and a path table
    in which ["B"] has the path ["B"; "B"]. *)
Definition sticky_heap : heap :=
  {| dists := [[("A", 0.5); ("B", 0.5)];
               [("A", 0.5); ("B", 0.5)];
               [("A", 0.125); ("B", 0.875)]];
     tables := [[("B", 0%nat)]];
     lists := [["B"; "B"]] |}.


(** The distribution that [step sticky "x" (Some 2) 0] returns, and the
    store after that call: ["B"] is the best predecessor of both
    states. *)
Definition sticky_posterior : dict float :=
  [("A", 0.0546875 / 0.546875); ("B", 0.4921875 / 0.546875)].
Definition sticky_heap_shared : heap :=
  {| dists := [[("A", 0.5); ("B", 0.5)];
               [("A", 0.5); ("B", 0.5)];
               [("A", 0.125); ("B", 0.875)];
               [("A", 0.0546875); ("B", 0.4921875)];
               sticky_posterior];
     tables := [[("B", 0%nat)]; [("A", 1%nat); ("B", 2%nat)]];
     lists := [["B"]; ["B"; "A"]; ["B"; "B"]] |}.

(** ["A"] has no incoming edge. *)
Definition source_hmm : dict (list (state * float)) :=
  [("A", [("B", 1)]); ("B", [("B", 1)])].
Definition call_source : outcome (loc * loc) :=
  (self <- __init__ source_hmm always_1 None default_constraint_length None
             default_smallV;
   path <- new_table [];
   step self "x" None path) empty_heap.

(** Three states; the priors give no mass to ["B"], the only state of the
    distribution from which ["C"] can be reached, and the observation is
    explained by ["C"] alone. *)
Definition chain_hmm : dict (list (state * float)) :=
  [("A", [("A", 1)]); ("B", [("C", 0.5); ("B", 0.5)]); ("C", [("C", 1)])].
Definition only_C (s : state) (obs : observation) : float :=
  if String.eqb s "C" then 1 else 0.
Definition chain : t :=
  {| hmm := chain_hmm;
     emission_probability := only_C;
     constraint_length := 10;
     candidate_states := fun _ => ["A"; "B"; "C"];
     priors := 0;
     incoming := [("A", [("A", 1)]); ("C", [("B", 0.5); ("C", 1)]);
                  ("B", [("B", 0.5)])];
     smallV := default_smallV |}.
Definition chain_heap : heap :=
  {| dists := [[("A", 1); ("B", 0)]]; tables := [[]]; lists := [] |}.

(** The store after [step chain "x" None 0]. *)
Definition chain_heap_after : heap :=
  {| dists := [[("A", 1); ("B", 0)]; [("A", 1); ("B", 0)]; [("C", 0)];
               [("A", 1)]];
     tables := [[("B", 0%nat)]; [("C", 1%nat)]];
     lists := [[]; ["C"]] |}.

(** The same model for an observation that no state explains. *)
Definition silent : t :=
  {| hmm := chain_hmm;
     emission_probability := only_C;
     constraint_length := 10;
     candidate_states := fun _ => [];
     priors := 0;
     incoming := incoming chain;
     smallV := default_smallV |}.

(** The store after [step silent "x" None 0]. *)
Definition silent_heap_after : heap :=
  {| dists := [[("A", 1); ("B", 0)]; [("A", 1); ("B", 0)]; []; [("A", 1)]];
     tables := [[]; []];
     lists := [] |}.

(** A transition probability of 2. *)
Definition bad_hmm : dict (list (state * float)) := [("A", [("A", 2)])].
Definition bad : t :=
  {| hmm := bad_hmm;
     emission_probability := always_1;
     constraint_length := 10;
     candidate_states := fun _ => ["A"];
     priors := 0;
     incoming := [("A", [("A", 2)])];
     smallV := default_smallV |}.

(** The reverse index and a distribution of [chain]; the second
    distribution has one more state without mass. *)
Definition into_C : dict float := [("B", 0.5); ("C", 1)].
Definition mass_on_A : dict float := [("A", 1); ("B", 0)].
Definition mass_on_A' : dict float := [("A", 1); ("B", 0); ("D", 0)].

(** One state and a window of length 0. *)
Definition loop_hmm : dict (list (state * float)) := [("A", [("A", 1)])].
Definition call_no_window : outcome (loc * loc) :=
  (self <- __init__ loop_hmm always_1 None 0 None default_smallV;
   path <- new_table [];
   step self "x" None path) empty_heap.
End Examples.

(** ** More vocabulary *)

Module More.
Import Viterbi Spec.

(** The reverse index has an entry for the edge from [from_state] to
    [to_state], with the probability [p]. *)
Definition entry (inc : dict (dict float)) (to_state from_state : state)
    (p : float) : Prop :=
  exists inner, dget inc to_state = Some inner /\ dget inner from_state = Some p.

(** The transition graph has an edge from [from_state] to [to_state] with
    the probability [p]. *)
Definition edge (hmm : dict (list (state * float))) (from_state to_state : state)
    (p : float) : Prop :=
  exists edges, dget hmm from_state = Some edges /\ In (to_state, p) edges.

(** Line 93 on the contents of a distribution. *)
Definition scaled (total : float) (d : dict float) : dict float :=
  map (fun sv => (fst sv, (snd sv / total)%float)) d.

(** Lines 24-25 on the states of a graph. *)
Definition uniform (hmm : dict (list (state * float))) : dict float :=
  map (fun s => (s, (1 / float_of_nat (length hmm))%float)) (dkeys hmm).

(** [inc'] is a reverse index that lines 31-34 can have made of [inc] with
    the edges [edges] of [from_state]: the entries it has come from [inc]
    or from these edges, no pair of states has lost its entry, each of
    these edges has one, and no entry is an empty dict if none was. *)
Definition inverted (from_state : state) (edges : list (state * float))
    (inc inc' : dict (dict float)) : Prop :=
  (forall to f q, entry inc' to f q ->
     entry inc to f q \/ (f = from_state /\ In (to, q) edges)) /\
  (forall to f q, entry inc to f q -> exists q', entry inc' to f q') /\
  (forall to p, In (to, p) edges -> exists q, entry inc' to from_state q) /\
  ((forall to inner, dget inc to = Some inner -> inner <> []) ->
   forall to inner, dget inc' to = Some inner -> inner <> []).

(** The same for lines 30-34 and the states [froms] of the graph [hmm]. *)
Definition inverted_all (hmm : dict (list (state * float))) (froms : list state)
    (inc inc' : dict (dict float)) : Prop :=
  (forall to f q, entry inc' to f q ->
     entry inc to f q \/ (In f froms /\ edge hmm f to q)) /\
  (forall to f q, entry inc to f q -> exists q', entry inc' to f q') /\
  (forall f to p, In f froms -> edge hmm f to p -> exists q, entry inc' to f q) /\
  ((forall to inner, dget inc to = Some inner -> inner <> []) ->
   forall to inner, dget inc' to = Some inner -> inner <> []).

(** The scores before normalization (lines 50-71) of the candidates [tos]:
    [d] holds, for each of them that has a predecessor, the score of its
    best one, and nothing else. *)
Definition scored (self : t) (obs : observation) (V : dict float)
    (tos : list state) (d : dict float) : Prop :=
  dict_wf d /\
  forall to v, dget d to = Some v <->
    In to tos /\
    exists mf, best_from self V to (emission_probability self to obs) = Ok (Some (v, mf)).

(** The candidates of an observation that [step] scores (lines 46-48). *)
Definition emitting (self : t) (obs : observation) (to : state) : Prop :=
  In to (candidate_states self obs) /\
  (0 <? emission_probability self to obs)%float = true.

(** Every entry of the table [np] refers to a list of the store, and no
    two entries refer to the same list. *)
Definition separate (h : heap) (np : loc) : Prop :=
  exists npt : dict loc, tables h !! np = Some npt /\
    (forall to r, dget npt to = Some r -> r < length (lists h)) /\
    (forall t1 t2 r, dget npt t1 = Some r -> dget npt t2 = Some r -> t1 = t2).
End More.


(** ** More concrete models and calls *)

Module Instances.
Import Viterbi Examples.
Local Open Scope float_scope.

(** The decoder of [source_hmm], where ["A"] has no incoming edge, and a
    store with its priors and an empty path table. *)
Definition source : t :=
  {| hmm := source_hmm;
     emission_probability := always_1;
     constraint_length := default_constraint_length;
     candidate_states := fun _ => ["A"; "B"];
     priors := 0;
     incoming := [("B", [("A", 1); ("B", 1)])];
     smallV := default_smallV |}.
Definition source_heap : heap :=
  {| dists := [[("A", 0.5); ("B", 0.5)]]; tables := [[]]; lists := [] |}.

(** The decoder of [loop_hmm] with a window of length 0, and its store. *)
Definition loop : t :=
  {| hmm := loop_hmm;
     emission_probability := always_1;
     constraint_length := 0;
     candidate_states := fun _ => ["A"];
     priors := 0;
     incoming := [("A", [("A", 1)])];
     smallV := default_smallV |}.
Definition loop_heap : heap :=
  {| dists := [[("A", 1)]]; tables := [[]]; lists := [] |}.

(** Three states with an edge to ["A"], two of them with the same
    probability; the decoder that [__init__] builds for this graph, and a
    distribution that gives the three states the same mass. *)
Definition fan_in_hmm : dict (list (state * float)) :=
  [("A", [("A", 0.25)]); ("B", [("A", 0.5)]); ("C", [("A", 0.5)])].
Definition fan_in : t :=
  {| hmm := fan_in_hmm;
     emission_probability := always_1;
     constraint_length := default_constraint_length;
     candidate_states := fun _ => ["A"; "B"; "C"];
     priors := 0;
     incoming := [("A", [("A", 0.25); ("B", 0.5); ("C", 0.5)])];
     smallV := default_smallV |}.
Definition level : dict float := [("A", 1); ("B", 1); ("C", 1)].

(** A distribution for which both predecessors of ["A"] in [sticky] have
    the same score, and one without a zero. *)
Definition tied : dict float := [("A", 0.25); ("B", 0.75)].
Definition positive : dict float := [("B", 0.5); ("C", 0.5)].

(** The store of [step sticky "x" (Some 2) 0 sticky_heap] after line 77,
    before normalization. *)
Definition sticky_heap_scored : heap :=
  {| dists := [[("A", 0.5); ("B", 0.5)];
               [("A", 0.5); ("B", 0.5)];
               [("A", 0.125); ("B", 0.875)];
               [("A", 0.0546875); ("B", 0.4921875)]];
     tables := [[("B", 0%nat)]; [("A", 1%nat); ("B", 2%nat)]];
     lists := [["B"]; ["B"; "A"]; ["B"; "B"]] |}.

(** A store that holds one empty path table and nothing else. *)
Definition fresh_heap : heap := {| dists := []; tables := [[]]; lists := [] |}.
End Instances.
(** * Properties *)

(** ** Dictionaries *)

Section DictFacts.
Context {A : Type}.
Implicit Types (d : dict A) (k : state) (v : A).

Lemma dget_dset_eq d k v : dget (dset d k v) k = Some v.
Proof.
  induction d as [|[k' v'] d IH]; simpl.
  - now rewrite String.eqb_refl.
  - destruct (String.eqb_spec k' k) as [->|Hne]; simpl.
    + now rewrite String.eqb_refl.
    + destruct (String.eqb_spec k' k); [contradiction|exact IH].
Qed.

Lemma dget_dset_ne d k k' v : k <> k' -> dget (dset d k v) k' = dget d k'.
Proof.
  intros Hne. induction d as [|[k0 v0] d IH]; simpl.
  - destruct (String.eqb_spec k k'); [contradiction|reflexivity].
  - destruct (String.eqb_spec k0 k) as [->|Hk]; simpl.
    + destruct (String.eqb_spec k k'); [contradiction|reflexivity].
    + now rewrite IH.
Qed.

Lemma dget_ddel_eq d k : dget (ddel d k) k = None.
Proof.
  induction d as [|[k' v'] d IH]; simpl; [reflexivity|].
  destruct (String.eqb_spec k' k) as [->|Hne]; simpl; [exact IH|].
  destruct (String.eqb_spec k' k); [contradiction|exact IH].
Qed.

Lemma dget_ddel_ne d k k' : k <> k' -> dget (ddel d k) k' = dget d k'.
Proof.
  intros Hne. induction d as [|[k0 v0] d IH]; simpl; [reflexivity|].
  destruct (String.eqb_spec k0 k) as [->|Hk]; simpl.
  - destruct (String.eqb_spec k k'); [contradiction|exact IH].
  - now rewrite IH.
Qed.

Lemma dget_ddel_Some d k k' v : dget (ddel d k) k' = Some v -> dget d k' = Some v.
Proof.
  destruct (String.eqb_spec k k') as [->|Hne].
  - now rewrite dget_ddel_eq.
  - now rewrite dget_ddel_ne.
Qed.

Lemma dget_Some_keys d k v : dget d k = Some v -> In k (dkeys d).
Proof.
  induction d as [|[k' v'] d IH]; simpl; [discriminate|].
  destruct (String.eqb_spec k' k) as [->|Hne]; [now left|].
  intros H. right. now apply IH.
Qed.

Lemma dget_keys d k : In k (dkeys d) -> exists v, dget d k = Some v.
Proof.
  induction d as [|[k' v'] d IH]; simpl; [contradiction|].
  destruct (String.eqb_spec k' k) as [->|Hne]; [now eexists|].
  intros [H|H]; [contradiction|now apply IH].
Qed.

Lemma dmem_true d k : dmem d k = true <-> exists v, dget d k = Some v.
Proof.
  unfold dmem. destruct (dget d k); split; eauto; try discriminate.
  now intros [? ?].
Qed.

Lemma dmem_false d k : dmem d k = false <-> dget d k = None.
Proof.
  unfold dmem. destruct (dget d k); split; congruence.
Qed.

Lemma dmem_keys d k : dmem d k = true <-> In k (dkeys d).
Proof.
  rewrite dmem_true. split; [intros [v Hv]; eauto using dget_Some_keys|apply dget_keys].
Qed.

Lemma subscript_keys d k : In k (dkeys d) -> exists v, subscript d k = Ok v.
Proof.
  intros H. destruct (dget_keys d k H) as [v Hv].
  exists v. unfold subscript. now rewrite Hv.
Qed.

Lemma subscript_Ok d k v : subscript d k = Ok v <-> dget d k = Some v.
Proof.
  unfold subscript. destruct (dget d k); split; congruence.
Qed.
End DictFacts.

(** ** Comprehensions *)

Lemma comprehension_In {A B} (f : A -> result (option B)) l r y :
  comprehension f l = Ok r ->
  (In y r <-> exists x, In x l /\ f x = Ok (Some y)).
Proof.
  revert r. induction l as [|x l IH]; intros r; simpl.
  - intros [= <-]. split; [contradiction|now intros (x & [] & _)].
  - destruct (f x) as [o|e] eqn:Hfx; simpl; [|discriminate].
    destruct (comprehension f l) as [ys|e] eqn:Hl; simpl; [|discriminate].
    intros [= <-]. specialize (IH ys eq_refl).
    destruct o as [b|]; simpl; rewrite ?IH.
    + split.
      * intros [<-|(x' & Hx' & Hf)]; [exists x; auto|exists x'; auto].
      * intros (x' & [<-|Hx'] & Hf); [left; congruence|right; eauto].
    + split.
      * intros (x' & Hx' & Hf). exists x'. auto.
      * intros (x' & [<-|Hx'] & Hf); [congruence|eauto].
Qed.

(** ** Rules for [post] *)

Lemma post_ret {A} (a : A) h Q E : Q a h -> post (ret a) h Q E.
Proof. exact (fun H => H). Qed.

Lemma post_bind {A B} (m : M A) (f : A -> M B) h Q E :
  post m h (fun a h' => post (f a) h' Q E) E -> post (bind m f) h Q E.
Proof. unfold post, bind. now destruct (m h). Qed.

Lemma post_lift {A} (r : result A) h (Q : A -> heap -> Prop) (E : exn -> heap -> Prop) :
  (forall a, r = Ok a -> Q a h) -> (forall e, r = Err e -> E e h) ->
  post (lift r) h Q E.
Proof. unfold post, lift. destruct r; auto. Qed.

Lemma post_weaken {A} (m : M A) h (Q Q' : A -> heap -> Prop) (E E' : exn -> heap -> Prop) :
  post m h Q E ->
  (forall a h', Q a h' -> Q' a h') -> (forall e h', E e h' -> E' e h') ->
  post m h Q' E'.
Proof. unfold post. destruct (m h); auto. Qed.

Lemma post_Return {A} (m : M A) h Q E a h' :
  post m h Q E -> m h = Return a h' -> Q a h'.
Proof. unfold post. intros H Heq. now rewrite Heq in H. Qed.

Lemma post_Raise {A} (m : M A) h Q E e h' :
  post m h Q E -> m h = Raise e h' -> E e h'.
Proof. unfold post. intros H Heq. now rewrite Heq in H. Qed.

Lemma post_for {A} (l : list A) (body : A -> M unit) (I : heap -> Prop) E h :
  I h ->
  (forall x h1, In x l -> I h1 -> post (body x) h1 (fun _ h2 => I h2) E) ->
  post (for_ l body) h (fun _ h' => I h') E.
Proof.
  revert h. induction l as [|x l IH]; intros h HI Hbody; simpl.
  - exact HI.
  - apply post_bind.
    eapply post_weaken; [apply (Hbody x h); [now left|exact HI]| |auto].
    intros [] h1 HI1. apply IH; [exact HI1|].
    intros y h2 Hy. apply Hbody. now right.
Qed.

Lemma post_new_dist d h (Q : loc -> heap -> Prop) E :
  Q (length (dists h)) (Heap (dists h ++ [d]) (tables h) (lists h)) ->
  post (new_dist d) h Q E.
Proof. exact (fun H => H). Qed.

Lemma post_get_dist r h (Q : dict float -> heap -> Prop) E :
  (forall d, dists h !! r = Some d -> Q d h) ->
  (dists h !! r = None -> E InvalidReference h) ->
  post (get_dist r) h Q E.
Proof. unfold post, get_dist. destruct (dists h !! r); auto. Qed.

Lemma post_put_dist r d h (Q : unit -> heap -> Prop) E :
  (forall d0, dists h !! r = Some d0 ->
     Q tt (Heap (<[r := d]> (dists h)) (tables h) (lists h))) ->
  (dists h !! r = None -> E InvalidReference h) ->
  post (put_dist r d) h Q E.
Proof. unfold post, put_dist. destruct (dists h !! r); eauto. Qed.

Lemma post_new_table d h (Q : loc -> heap -> Prop) E :
  Q (length (tables h)) (Heap (dists h) (tables h ++ [d]) (lists h)) ->
  post (new_table d) h Q E.
Proof. exact (fun H => H). Qed.

Lemma post_get_table r h (Q : dict loc -> heap -> Prop) E :
  (forall d, tables h !! r = Some d -> Q d h) ->
  (tables h !! r = None -> E InvalidReference h) ->
  post (get_table r) h Q E.
Proof. unfold post, get_table. destruct (tables h !! r); auto. Qed.

Lemma post_put_table r d h (Q : unit -> heap -> Prop) E :
  (forall d0, tables h !! r = Some d0 ->
     Q tt (Heap (dists h) (<[r := d]> (tables h)) (lists h))) ->
  (tables h !! r = None -> E InvalidReference h) ->
  post (put_table r d) h Q E.
Proof. unfold post, put_table. destruct (tables h !! r); eauto. Qed.

Lemma post_new_list l h (Q : loc -> heap -> Prop) E :
  Q (length (lists h)) (Heap (dists h) (tables h) (lists h ++ [l])) ->
  post (new_list l) h Q E.
Proof. exact (fun H => H). Qed.

Lemma post_get_list r h (Q : list state -> heap -> Prop) E :
  (forall l, lists h !! r = Some l -> Q l h) ->
  (lists h !! r = None -> E InvalidReference h) ->
  post (get_list r) h Q E.
Proof. unfold post, get_list. destruct (lists h !! r); auto. Qed.

Lemma post_put_list r l h (Q : unit -> heap -> Prop) E :
  (forall l0, lists h !! r = Some l0 ->
     Q tt (Heap (dists h) (tables h) (<[r := l]> (lists h)))) ->
  (lists h !! r = None -> E InvalidReference h) ->
  post (put_list r l) h Q E.
Proof. unfold post, put_list. destruct (lists h !! r); eauto. Qed.

(** One step of symbolic execution. *)
Ltac mstep :=
  lazymatch goal with
  | |- post (bind _ _) _ _ _ => apply post_bind
  | |- post (ret _) _ _ _ => apply post_ret
  | |- post (lift _) _ _ _ => apply post_lift; [intros ? ?|intros ? ?]
  | |- post (new_dist _) _ _ _ => apply post_new_dist
  | |- post (get_dist _) _ _ _ => apply post_get_dist; [intros ? ?|intros ?]
  | |- post (put_dist _ _) _ _ _ => apply post_put_dist; [intros ? ?|intros ?]
  | |- post (new_table _) _ _ _ => apply post_new_table
  | |- post (get_table _) _ _ _ => apply post_get_table; [intros ? ?|intros ?]
  | |- post (put_table _ _) _ _ _ => apply post_put_table; [intros ? ?|intros ?]
  | |- post (new_list _) _ _ _ => apply post_new_list
  | |- post (get_list _) _ _ _ => apply post_get_list; [intros ? ?|intros ?]
  | |- post (put_list _ _) _ _ _ => apply post_put_list; [intros ? ?|intros ?]
  end; cbv beta.

(** Two facts about one computation, and a loop whose invariant names the
    elements handled so far. *)
Lemma post_conj {A} (m : M A) h (Q1 Q2 : A -> heap -> Prop)
    (E1 E2 : exn -> heap -> Prop) :
  post m h Q1 E1 -> post m h Q2 E2 ->
  post m h (fun a h' => Q1 a h' /\ Q2 a h') (fun e h' => E1 e h' /\ E2 e h').
Proof. unfold post. destruct (m h); auto. Qed.

Lemma post_for_prefix {A} (body : A -> M unit) (I : list A -> heap -> Prop) E l :
  forall pre h, I pre h ->
  (forall p x h1, In x l -> I p h1 ->
     post (body x) h1 (fun _ h2 => I (p ++ [x]) h2) E) ->
  post (for_ l body) h (fun _ h' => I (pre ++ l) h') E.
Proof.
  induction l as [|x l IH]; intros pre h HI Hbody; simpl.
  - now rewrite app_nil_r.
  - apply post_bind.
    eapply post_weaken; [apply (Hbody pre x h); [now left|exact HI]| |auto].
    intros [] h1 HI1. cbv beta.
    replace (pre ++ x :: l) with ((pre ++ [x]) ++ l) by (now rewrite <- app_assoc).
    apply IH; [exact HI1|]. intros p y h2 Hy. apply Hbody. now right.
Qed.

(** ** The distributions of the caller are only read *)

Lemma dists_kept_refl h : dists_kept h h.
Proof. now intros i d. Qed.

Lemma dists_kept_alloc h0 h d :
  dists_kept h0 h ->
  dists_kept h0 (Heap (dists h ++ [d]) (tables h) (lists h)).
Proof.
  intros H i d0 Hi. simpl. apply lookup_app_l_Some. now apply H.
Qed.

Lemma dists_kept_put h0 h r d :
  dists_kept h0 h -> dists h0 !! r = None ->
  dists_kept h0 (Heap (<[r := d]> (dists h)) (tables h) (lists h)).
Proof.
  intros H Hr i d0 Hi. simpl.
  rewrite list_lookup_insert_ne; [now apply H|congruence].
Qed.

Import Viterbi Spec.

(** ** The effect of one path extension *)

Lemma window_insert_id (L : nat) r old (ls : list (list state)) :
  ls !! r = Some old -> (length old =? L)%nat = false -> <[r := window L old]> ls = ls.
Proof.
  intros H HL. unfold window. rewrite HL. now apply list_insert_id.
Qed.

Lemma extend_path_post self path np to mf h :
  post (extend_path self path np to mf) h
    (fun _ h' => exists (pt : dict loc) (r : loc) h1 old (npt : dict loc),
        tables h !! path = Some pt /\
        ((dget pt mf = Some r /\ h1 = h) \/
         (dget pt mf = None /\ r = length (lists h) /\
          h1 = Heap (dists h) (<[path := dset pt mf r]> (tables h)) (lists h ++ [[]]))) /\
        lists h1 !! r = Some old /\
        (length old = constraint_length self -> old <> []) /\
        tables h1 !! np = Some npt /\
        h' = Heap (dists h)
               (<[np := dset npt to (length (lists h1))]> (tables h1))
               (<[r := window (constraint_length self) old]> (lists h1)
                  ++ [window (constraint_length self) old ++ [to]]))
    (fun _ h' => dists h' = dists h).
Proof.
  unfold extend_path, table_contains, table_getitem, table_setitem, list_pop0.
  mstep. mstep. mstep; [|reflexivity]. rename d into pt, H into Hpt.
  mstep. mstep.
  eapply post_weaken with
    (Q := fun _ h1 => exists (r : loc) (pt1 : dict loc),
            ((dget pt mf = Some r /\ h1 = h) \/
             (dget pt mf = None /\ r = length (lists h) /\
              h1 = Heap (dists h) (<[path := dset pt mf r]> (tables h)) (lists h ++ [[]]))) /\
            tables h1 !! path = Some pt1 /\ dget pt1 mf = Some r)
    (E := fun _ h' => dists h' = dists h).
  - destruct (dmem pt mf) eqn:Hmem.
    + mstep. destruct (proj1 (dmem_true _ _) Hmem) as [r Hr]. exists r, pt. auto.
    + apply (proj1 (dmem_false _ _)) in Hmem.
      mstep. mstep. mstep. mstep; [|reflexivity]. simpl in H.
      rewrite Hpt in H. injection H as <-.
      mstep; [|reflexivity]. simpl.
      exists (length (lists h)), (dset pt mf (length (lists h))). split; [right; auto|].
      split; [|apply dget_dset_eq].
      apply list_lookup_insert_eq. now apply lookup_lt_Some in Hpt.
  - intros [] h1 (r & pt1 & Hcase & Hpt1 & Hr).
    assert (Hd : dists h1 = dists h) by (destruct Hcase as [[_ ->]|(_ & _ & ->)]; reflexivity).
    mstep. mstep. mstep; [|congruence]. rewrite Hpt1 in H. injection H as <-.
    mstep; [|congruence]. apply subscript_Ok in H. rewrite Hr in H. injection H as <-.
    mstep. mstep; [|congruence]. rename l into old, H into Hold.
    mstep.
    eapply post_weaken with
      (Q := fun _ h2 => (length old = constraint_length self -> old <> []) /\
              h2 = Heap (dists h1) (tables h1)
                     (<[r := window (constraint_length self) old]> (lists h1)))
      (E := fun _ h' => dists h' = dists h).
    + destruct (Nat.eqb_spec (length old) (constraint_length self)) as [HL|HL].
      * mstep. mstep. mstep; [|congruence]. rewrite Hold in H. injection H as <-.
        destruct old as [|x old'].
        -- mstep; congruence.
        -- mstep. mstep; [|congruence]. mstep. split; [discriminate|].
           unfold window. apply Nat.eqb_eq in HL. now rewrite HL.
      * mstep. split; [contradiction|].
        rewrite window_insert_id; [now destruct h1|exact Hold|now apply Nat.eqb_neq].
    + intros [] h2 [Hne ->]. simpl.
      mstep. mstep. mstep; [|simpl; congruence]. simpl in H. rewrite Hpt1 in H. injection H as <-.
      mstep; [|simpl; congruence]. apply subscript_Ok in H. rewrite Hr in H. injection H as <-.
      mstep. mstep; [|simpl; congruence]. simpl in H.
      rewrite list_lookup_insert_eq in H by (now apply lookup_lt_Some in Hold).
      injection H as <-.
      mstep. mstep. mstep. mstep; [|simpl; congruence]. simpl in H.
      mstep; [|simpl; congruence]. simpl.
      exists pt, r, h1, old, d. rewrite length_insert, Hd. auto 10.
    + auto.
  - auto.
Qed.

(** ** The path table and the lists during the loop over the candidates *)

Lemma window_idem (L : nat) (p : list state) :
  (length p = L -> p <> []) -> window L (window L p) = window L p.
Proof.
  intros Hne. unfold window.
  destruct (Nat.eqb_spec (length p) L) as [HL|HL].
  - destruct p as [|x p]; [now destruct (Hne HL)|]. simpl in *.
    destruct (Nat.eqb_spec (length p) L); [lia|reflexivity].
  - destruct (Nat.eqb_spec (length p) L); [contradiction|reflexivity].
Qed.

Lemma scoring_init self obs V path h0 ds :
  table_valid h0 path ->
  scoring self obs V path (length (tables h0)) h0
    (Heap ds (tables h0 ++ [[]]) (lists h0)).
Proof.
  intros (pt0 & Hpt0 & _). split; simpl.
  - reflexivity.
  - auto.
  - intros i t _ Hi. now apply lookup_app_l_Some.
  - exists pt0, pt0. split; [exact Hpt0|]. split; [now apply lookup_app_l_Some|]. auto.
  - exists []. split; [now apply lookup_ge_None_2|].
    split; [now apply list_lookup_middle|]. intros to r Hr. discriminate.
Qed.

Lemma scoring_setdefault self obs V path np h0 h (pt : dict loc) mf :
  scoring self obs V path np h0 h ->
  tables h !! path = Some pt -> dget pt mf = None ->
  scoring self obs V path np h0
    (Heap (dists h) (<[path := dset pt mf (length (lists h))]> (tables h))
          (lists h ++ [[]])).
Proof.
  intros [Hlen Hlists Htabs (pt0 & ptc & Hpt0 & Hptc & Hkeep & Hnew)
            (npt & Hnp0 & Hnp & Hent)] Hpt Hmf.
  assert (ptc = pt) as -> by congruence.
  assert (Hne : np <> path) by congruence.
  split; simpl.
  - rewrite length_app. lia.
  - intros r l0 Hr. destruct (Hlists r l0 Hr) as [H|(H1 & H2 & H)];
      [left|right; repeat split; trivial]; now apply lookup_app_l_Some.
  - intros i t Hi Ht. rewrite list_lookup_insert_ne by congruence. auto.
  - exists pt0, (dset pt mf (length (lists h))). split; [exact Hpt0|].
    split; [apply list_lookup_insert_eq; now apply lookup_lt_Some in Hpt|].
    split.
    + intros s r Hs. specialize (Hkeep s r Hs).
      rewrite dget_dset_ne; [exact Hkeep|congruence].
    + intros s r Hs. destruct (String.eqb_spec mf s) as [<-|Hs'].
      * rewrite dget_dset_eq in Hs. injection Hs as <-. right.
        split; [|split].
        -- destruct (dget pt0 mf) as [r0|] eqn:H0; [|reflexivity].
           apply Hkeep in H0. congruence.
        -- apply lookup_ge_None_2. exact Hlen.
        -- now apply list_lookup_middle.
      * rewrite dget_dset_ne in Hs by exact Hs'.
        destruct (Hnew s r Hs) as [H|(H1 & H2 & H)]; [now left|right].
        repeat split; trivial. now apply lookup_app_l_Some.
  - exists npt. split; [exact Hnp0|].
    split; [now rewrite list_lookup_insert_ne by congruence|].
    intros to r Hr. destruct (Hent to r Hr) as (H0 & mf' & p & Hmax & Hp & Hpne & Hl).
    split; [exact H0|]. exists mf', p. repeat split; trivial.
    now apply lookup_app_l_Some.
Qed.

Lemma scoring_append self obs V path np h0 h (pt : dict loc) mf (r : loc) old
    (npt : dict loc) to :
  table_valid h0 path -> max_from self V obs to = Some mf ->
  scoring self obs V path np h0 h ->
  tables h !! path = Some pt -> dget pt mf = Some r -> lists h !! r = Some old ->
  (length old = constraint_length self -> old <> []) ->
  tables h !! np = Some npt ->
  scoring self obs V path np h0
    (Heap (dists h) (<[np := dset npt to (length (lists h))]> (tables h))
          (<[r := window (constraint_length self) old]> (lists h)
             ++ [window (constraint_length self) old ++ [to]])).
Proof.
  intros (pt0' & Hpt0' & Hvalid) Hmax
         [Hlen Hlists Htabs (pt0 & ptc & Hpt0 & Hptc & Hkeep & Hnew)
            (nptc & Hnp0 & Hnp & Hent)] Hpt Hr Hold Hne Hnpt.
  assert (pt0' = pt0) as -> by congruence.
  assert (ptc = pt) as -> by congruence.
  assert (nptc = npt) as -> by congruence.
  assert (Hnpath : np <> path) by congruence.
  set (L := constraint_length self) in *.
  (* where the extended path comes from *)
  assert (Hclass : exists p,
            recorded_path h0 path mf = Some p /\ (length p = L -> p <> []) /\
            window L old = window L p /\
            ((lists h0 !! r = Some p /\ dget pt0 mf = Some r) \/
             (lists h0 !! r = None /\ old = []))).
  { unfold recorded_path. rewrite Hpt0.
    destruct (Hnew mf r Hr) as [H0|(H0 & Hfresh & Hempty)].
    - rewrite H0. destruct (Hvalid mf r H0) as [l0 Hl0]. exists l0.
      split; [exact Hl0|].
      destruct (Hlists r l0 Hl0) as [H|(HL & Hl0ne & H)].
      + assert (old = l0) as -> by congruence. auto 6.
      + assert (old = tail l0) as -> by congruence.
        split; [auto|]. split; [|auto].
        unfold window. rewrite (proj2 (Nat.eqb_eq _ _) HL).
        destruct l0 as [|x l0]; [contradiction|]. simpl in *.
        destruct (Nat.eqb_spec (length l0) L); [lia|reflexivity].
    - rewrite H0. exists []. assert (old = []) as -> by congruence. auto 6. }
  destruct Hclass as (p & Hp & Hpne & Hwin & Hcase).
  assert (Hrlt : r < length (lists h)) by now apply lookup_lt_Some in Hold.
  split; simpl.
  - rewrite length_app, length_insert. lia.
  - intros r' l0 Hr'.
    assert (Hlt : r' < length (lists h)). { apply lookup_lt_Some in Hr'. lia. }
    rewrite lookup_app_l by (rewrite length_insert; exact Hlt).
    destruct (decide (r = r')) as [<-|Hrr].
    + rewrite list_lookup_insert_eq by exact Hrlt.
      destruct Hcase as [[Hp0 _]|[Hnone _]]; [|congruence].
      assert (l0 = p) as -> by congruence. rewrite Hwin.
      unfold window.
      destruct (Nat.eqb_spec (length p) L) as [HL|HL]; [right|left]; auto.
    + rewrite list_lookup_insert_ne by exact Hrr. auto.
  - intros i t Hi Ht. rewrite list_lookup_insert_ne by congruence. auto.
  - exists pt0, pt. split; [exact Hpt0|].
    split; [now rewrite list_lookup_insert_ne by congruence|].
    split; [exact Hkeep|].
    intros s r' Hs. destruct (Hnew s r' Hs) as [H|(H1 & H2 & H3)]; [now left|right].
    repeat split; trivial.
    assert (Hlt : r' < length (lists h)) by now apply lookup_lt_Some in H3.
    rewrite lookup_app_l by (rewrite length_insert; exact Hlt).
    destruct (decide (r = r')) as [<-|Hrr].
    + rewrite list_lookup_insert_eq by exact Hrlt.
      assert (old = []) as -> by congruence.
      f_equal. unfold window. now destruct (_ =? _)%nat.
    + now rewrite list_lookup_insert_ne by exact Hrr.
  - exists (dset npt to (length (lists h))). split; [exact Hnp0|].
    split; [apply list_lookup_insert_eq; now apply lookup_lt_Some in Hnpt|].
    intros to' r' Hr'. destruct (String.eqb_spec to to') as [<-|Hto].
    + rewrite dget_dset_eq in Hr'. injection Hr' as <-.
      split; [apply lookup_ge_None_2; exact Hlen|].
      exists mf, p. repeat split; trivial.
      subst L. rewrite <- Hwin.
      apply list_lookup_middle. now rewrite length_insert.
    + rewrite dget_dset_ne in Hr' by exact Hto.
      destruct (Hent to' r' Hr') as (H0 & mf' & p' & Hmax' & Hp' & Hpne' & Hl).
      split; [exact H0|]. exists mf', p'. repeat split; trivial.
      assert (Hlt : r' < length (lists h)) by now apply lookup_lt_Some in Hl.
      rewrite lookup_app_l by (rewrite length_insert; exact Hlt).
      rewrite list_lookup_insert_ne; [exact Hl|].
      intros <-. destruct Hcase as [[Hp0 _]|[_ ->]]; [congruence|].
      rewrite Hold in Hl. injection Hl as Hl. destruct (window L p'); discriminate.
Qed.

Lemma scoring_extend_path self obs V path np h0 h to mf :
  table_valid h0 path -> max_from self V obs to = Some mf ->
  scoring self obs V path np h0 h ->
  post (extend_path self path np to mf) h
    (fun _ h' => scoring self obs V path np h0 h' /\ dists h' = dists h)
    (fun _ _ => True).
Proof.
  intros Hvalid Hmax Hsc.
  eapply post_weaken; [apply extend_path_post| |trivial].
  intros [] h' (pt & r & h1 & old & npt & Hpt & Hcase & Hold & Hne & Hnpt & ->).
  split; [|reflexivity].
  destruct Hcase as [[Hr ->]|(Hnone & -> & ->)].
  - eapply scoring_append; eauto.
  - simpl in *.
    apply (scoring_append self obs V path np h0
             (Heap (dists h) (<[path := dset pt mf (length (lists h))]> (tables h))
                   (lists h ++ [[]]))
             (dset pt mf (length (lists h))) mf (length (lists h)) old npt to);
      trivial.
    + now apply scoring_setdefault.
    + simpl. apply list_lookup_insert_eq. now apply lookup_lt_Some in Hpt.
    + apply dget_dset_eq.
Qed.

Lemma scoring_indep self obs V path np h0 h h' :
  scoring self obs V path np h0 h ->
  tables h' = tables h -> lists h' = lists h ->
  scoring self obs V path np h0 h'.
Proof.
  intros [Hlen Hlists Htabs Hpath Hnew] Ht Hl.
  split; rewrite ?Ht, ?Hl; trivial.
Qed.

Lemma nonzero_eps_In self obs to e :
  In (to, e) (nonzero_eps self obs) -> e = emission_probability self to obs.
Proof.
  unfold nonzero_eps. rewrite filter_In, in_map_iff.
  intros [(c & Hc & _) _]. now injection Hc as <- <-.
Qed.

Lemma scoring_score self obs Vd V path new_V np h0 h to e :
  table_valid h0 path -> V <> new_V ->
  e = emission_probability self to obs ->
  scoring self obs Vd path np h0 h /\ dists h !! V = Some Vd ->
  post (score self V path new_V np (to, e)) h
    (fun _ h' => scoring self obs Vd path np h0 h' /\ dists h' !! V = Some Vd)
    (fun _ _ => True).
Proof.
  intros Hvalid HV -> [Hsc HVd]. unfold score, dist_setitem.
  mstep. mstep; [|trivial]. assert (d = Vd) as -> by congruence.
  mstep. mstep; [|trivial]. rename a into best, H0 into Hbest.
  destruct best as [[max_prob mf]|]; [|mstep; auto].
  mstep. mstep. mstep; [|trivial]. mstep; [|trivial].
  eapply post_weaken; [apply (scoring_extend_path self obs Vd path np h0 _ to mf)| |trivial].
  - exact Hvalid.
  - unfold max_from. now rewrite Hbest.
  - eapply scoring_indep; [exact Hsc|reflexivity|reflexivity].
  - intros [] h' [Hsc' Hd]. split; [exact Hsc'|]. rewrite Hd. simpl.
    rewrite list_lookup_insert_ne by congruence. exact HVd.
Qed.

Lemma scores_post self obs V path h0 Vd :
  input_dist self V h0 = Some Vd -> table_valid h0 path ->
  post (scores self obs V path) h0
    (fun r h => scoring self obs Vd path (snd r) h0 h)
    (fun _ _ => True).
Proof.
  intros HV Hvalid. unfold scores.
  mstep.
  eapply post_weaken with
    (Q := fun v h => dists h !! v = Some Vd /\ v < length (dists h) /\
                     tables h = tables h0 /\ lists h = lists h0)
    (E := fun _ _ => True); [| |trivial].
  - destruct V as [v|]; simpl in HV.
    + mstep. repeat split; trivial. now apply lookup_lt_Some in HV.
    + mstep. mstep; [|trivial]. assert (d = Vd) as -> by congruence.
      mstep. simpl. rewrite length_app. simpl.
      repeat split; [now apply list_lookup_middle|lia].
  - intros v h (Hv & Hlt & Ht & Hl).
    mstep. mstep. mstep. mstep. simpl. mstep.
    eapply post_weaken;
      [apply post_for with
         (I := fun h' => scoring self obs Vd path (length (tables h)) h0 h' /\
                         dists h' !! v = Some Vd)| |trivial].
    + split.
      * rewrite Ht, Hl. now apply scoring_init.
      * simpl. now apply lookup_app_l_Some.
    + intros [to e] h1 Hin HI.
      apply scoring_score; trivial; [lia|now apply nonzero_eps_In in Hin].
    + intros [] h1 [Hsc _]. mstep. exact Hsc.
Qed.

(** ** Normalization and pruning leave the paths alone *)

Lemma pruned_refl np h : pruned np h h.
Proof.
  repeat split; trivial. intros npt H. exists npt. auto.
Qed.

Lemma pruned_dists np h h' ds :
  pruned np h h' -> pruned np h (Heap ds (tables h') (lists h')).
Proof. exact (fun H => H). Qed.

Lemma pruned_delete np h h' (t : dict loc) k :
  pruned np h h' -> tables h' !! np = Some t ->
  pruned np h (Heap (dists h') (<[np := ddel t k]> (tables h')) (lists h')).
Proof.
  intros (Hl & Hlen & Hother & Hnp) Ht. repeat split; simpl; trivial.
  - now rewrite length_insert.
  - intros i Hi. rewrite list_lookup_insert_ne by congruence. auto.
  - intros npt Hnpt. destruct (Hnp npt Hnpt) as (npt' & Hnpt' & Hsub).
    assert (npt' = t) as -> by congruence.
    exists (ddel t k). split.
    + apply list_lookup_insert_eq. now apply lookup_lt_Some in Ht.
    + intros to r Hr. apply Hsub. now apply dget_ddel_Some in Hr.
Qed.

Lemma normalize_post self V h :
  post (normalize self V) h
    (fun _ h' => tables h' = tables h /\ lists h' = lists h)
    (fun _ _ => True).
Proof.
  unfold normalize. mstep. mstep; [|trivial].
  destruct (_ =? _)%float.
  - mstep. mstep; [|trivial]. mstep. auto.
  - mstep. mstep; [|trivial]. mstep. auto.
Qed.

Lemma prune_post self new_V np h :
  post (prune self new_V np) h (fun _ h' => pruned np h h') (fun _ _ => True).
Proof.
  unfold prune. mstep. mstep; [|trivial]. mstep. mstep; [|trivial].
  apply post_for with (I := fun h' => pruned np h h'); [apply pruned_refl|].
  intros k h1 _ Hpr. unfold dist_delitem, table_contains, table_delitem.
  mstep. mstep. mstep; [|trivial].
  destruct (dmem d0 k); [|mstep; [discriminate|trivial]].
  mstep; [|trivial]. mstep. mstep. mstep; [|trivial]. mstep.
  simpl in *. destruct (dmem d2 k); [|mstep; exact Hpr].
  mstep. mstep; [|trivial]. simpl in *.
  destruct (dmem d3 k); [|mstep; [discriminate|trivial]].
  mstep; [|trivial]. simpl.
  now apply (pruned_delete np h (Heap _ (tables h1) (lists h1))).
Qed.

Lemma scoring_pruned self obs V path np h0 h h' :
  scoring self obs V path np h0 h -> pruned np h h' ->
  scoring self obs V path np h0 h'.
Proof.
  intros [Hlen Hlists Htabs (pt0 & pt & Hpt0 & Hpt & Hkeep & Hnew)
            (npt & Hnp0 & Hnp & Hent)] (Hl & _ & Hother & Hsub).
  assert (Hne : path <> np) by congruence.
  split; rewrite ?Hl; trivial.
  - intros i t Hi Ht. rewrite Hother by congruence. auto.
  - exists pt0, pt. rewrite Hother by exact Hne. auto.
  - destruct (Hsub npt Hnp) as (npt' & Hnpt' & Hin).
    exists npt'. split; [exact Hnp0|]. split; [exact Hnpt'|].
    intros to r Hr. now apply Hent, Hin.
Qed.

(** The invariant of the loop holds of the store that [step] returns. *)
Lemma step_post self obs V path h0 Vd :
  input_dist self V h0 = Some Vd -> table_valid h0 path ->
  post (step self obs V path) h0
    (fun r h => scoring self obs Vd path (snd r) h0 h)
    (fun _ _ => True).
Proof.
  intros HV Hvalid. unfold step. mstep.
  eapply post_weaken; [now apply (scores_post self obs V path h0 Vd)| |trivial].
  intros [new_V np] h Hsc. simpl in Hsc.
  mstep.
  eapply post_weaken; [apply normalize_post| |trivial].
  intros new_V' h1 [Ht Hl]. mstep.
  eapply post_weaken; [apply prune_post| |trivial].
  intros [] h2 Hpr. mstep. simpl.
  eapply scoring_pruned; [|exact Hpr].
  now apply (scoring_indep self obs Vd path np h0 h).
Qed.

(** ** No distribution of the caller is written *)

Lemma dists_kept_fresh h0 h :
  dists_kept h0 h -> dists h0 !! length (dists h) = None.
Proof.
  intros H. destruct (dists h0 !! length (dists h)) as [d|] eqn:Hd; [|reflexivity].
  apply H, lookup_lt_Some in Hd. lia.
Qed.

Lemma dists_kept_same h0 h h' :
  dists_kept h0 h -> dists h' = dists h -> dists_kept h0 h'.
Proof. intros H Heq i d Hi. rewrite Heq. now apply H. Qed.

Lemma score_dists self V path new_V np se h0 h :
  dists_kept h0 h -> dists h0 !! new_V = None ->
  post (score self V path new_V np se) h
    (fun _ h' => dists_kept h0 h') (fun _ h' => dists_kept h0 h').
Proof.
  intros Hk Hfresh. unfold score, dist_setitem. destruct se as [to e].
  mstep. mstep; [|trivial]. mstep. mstep; [|trivial].
  destruct a as [[max_prob mf]|]; [|now mstep].
  mstep. mstep. mstep; [|trivial]. mstep; [|trivial].
  assert (Hk' : dists_kept h0
            (Heap (<[new_V := dset d0 to max_prob]> (dists h)) (tables h) (lists h)))
    by now apply dists_kept_put.
  eapply post_weaken; [apply extend_path_post| |].
  - intros [] h' (pt & r & h1 & old & npt & _ & _ & _ & _ & _ & ->). exact Hk'.
  - intros e' h' Hd. eapply dists_kept_same; [exact Hk'|exact Hd].
Qed.

Lemma scores_dists self obs V path h0 :
  post (scores self obs V path) h0
    (fun _ h => dists_kept h0 h) (fun _ h => dists_kept h0 h).
Proof.
  unfold scores. mstep.
  eapply post_weaken with
    (Q := fun _ h => dists_kept h0 h) (E := fun _ h => dists_kept h0 h); [| |trivial].
  - destruct V as [v|].
    + mstep. apply dists_kept_refl.
    + mstep. mstep; [|intros; apply dists_kept_refl].
      mstep. apply dists_kept_alloc, dists_kept_refl.
  - intros v h Hk. mstep. mstep. mstep. mstep. simpl. mstep.
    assert (Hk1 : dists_kept h0
              (Heap (dists h ++ [[]]) (tables h ++ [[]]) (lists h))).
    { intros i d Hi. simpl. now apply lookup_app_l_Some, Hk. }
    eapply post_weaken;
      [apply post_for with (I := fun h' => dists_kept h0 h')
                           (E := fun _ h' => dists_kept h0 h')| |auto].
    + exact Hk1.
    + intros se h1 _ Hk2. apply score_dists; [exact Hk2|].
      now apply dists_kept_fresh.
    + intros [] h1 Hk2. now mstep.
Qed.

Lemma normalize_dists self V h0 h :
  dists_kept h0 h ->
  post (normalize self V) h
    (fun new_V h' => dists_kept h0 h' /\ dists h0 !! new_V = None /\
                     is_Some (dists h' !! new_V))
    (fun _ h' => dists_kept h0 h').
Proof.
  intros Hk. unfold normalize. mstep. mstep; [|trivial].
  assert (Halloc : forall d0,
            dists_kept h0 (Heap (dists h ++ [d0]) (tables h) (lists h)) /\
            dists h0 !! length (dists h) = None /\
            is_Some ((dists h ++ [d0]) !! length (dists h))).
  { intros d0. split; [now apply dists_kept_alloc|].
    split; [now apply dists_kept_fresh|].
    exists d0. now apply list_lookup_middle. }
  destruct (_ =? _)%float.
  - mstep. mstep; [|trivial]. mstep. apply Halloc.
  - mstep. mstep; [|trivial]. mstep. apply Halloc.
Qed.

Lemma prune_dists self new_V np h0 h :
  dists_kept h0 h -> dists h0 !! new_V = None -> is_Some (dists h !! new_V) ->
  post (prune self new_V np) h
    (fun _ h' => dists_kept h0 h' /\ is_Some (dists h' !! new_V))
    (fun _ h' => dists_kept h0 h').
Proof.
  intros Hk Hfresh Hsome. unfold prune. mstep. mstep; [|trivial].
  mstep. mstep; [|trivial].
  eapply post_weaken;
    [apply post_for with
       (I := fun h' => dists_kept h0 h' /\ is_Some (dists h' !! new_V))
       (E := fun _ h' => dists_kept h0 h')| |trivial]; [auto| |auto].
  intros k h1 _ [Hk1 Hs1]. unfold dist_delitem, table_contains, table_delitem.
  mstep. mstep. mstep; [|trivial].
  destruct (dmem d0 k); [|mstep; [discriminate|trivial]].
  mstep; [|trivial].
  assert (Hk2 : dists_kept h0
            (Heap (<[new_V := ddel d0 k]> (dists h1)) (tables h1) (lists h1)))
    by now apply dists_kept_put.
  assert (Hs2 : is_Some (<[new_V := ddel d0 k]> (dists h1) !! new_V)).
  { apply lookup_lt_is_Some. rewrite length_insert.
    now apply lookup_lt_is_Some. }
  mstep. mstep. mstep; [|trivial]. mstep. simpl in *.
  destruct (dmem d2 k); [|mstep; simpl; auto].
  mstep. mstep; [|trivial]. simpl in *.
  destruct (dmem d3 k); [|mstep; [discriminate|trivial]].
  mstep; [|trivial]. simpl. auto.
Qed.

Lemma step_dists self obs V path h0 :
  post (step self obs V path) h0
    (fun r h' => dists_kept h0 h' /\ dists h0 !! fst r = None /\
                 is_Some (dists h' !! fst r))
    (fun _ h' => dists_kept h0 h').
Proof.
  unfold step. mstep.
  eapply post_weaken; [apply scores_dists| |trivial].
  intros [new_V np] h Hk. mstep.
  eapply post_weaken; [apply (normalize_dists self new_V h0 h Hk)| |trivial].
  intros new_V' h1 (Hk1 & Hfresh & Hsome). mstep.
  eapply post_weaken;
    [apply (prune_dists self new_V' np h0 h1 Hk1 Hfresh Hsome)| |trivial].
  intros [] h2 [Hk2 Hs2]. mstep. auto.
Qed.

(** ** Pruning, run to its end *)

Lemma dget_In_wf {A} (d : dict A) k v :
  dict_wf d -> In (k, v) d -> dget d k = Some v.
Proof.
  unfold dict_wf, dkeys. induction d as [|[k' v'] d IH]; simpl; [contradiction|].
  intros Hnd [Heq|Hin].
  - injection Heq as -> ->. now rewrite String.eqb_refl.
  - apply NoDup_cons in Hnd as [Hnotin Hnd].
    destruct (String.eqb_spec k' k) as [->|Hne]; [|now apply IH].
    destruct Hnotin. apply list_elem_of_In, in_map_iff. now exists (k, v).
Qed.

Lemma In_dkeys_ddel {A} (d : dict A) k k' :
  In k' (dkeys d) -> k <> k' -> In k' (dkeys (ddel d k)).
Proof.
  intros Hin Hne. destruct (dget_keys d k' Hin) as [v Hv].
  apply (dget_Some_keys _ _ v). now rewrite dget_ddel_ne.
Qed.

Lemma filter_twice {A} (f g : A -> bool) (l : list A) :
  List.filter f (List.filter g l) = List.filter (fun x => g x && f x) l.
Proof.
  induction l as [|x l IH]; simpl; [reflexivity|].
  destruct (g x); simpl; [destruct (f x)|]; now rewrite IH.
Qed.

Lemma fold_ddel {A} (ks : list state) (d : dict A) :
  fold_left ddel ks d =
  List.filter (fun kv => negb (existsb (fun k => String.eqb (fst kv) k) ks)) d.
Proof.
  revert d. induction ks as [|k ks IH]; intros d; simpl.
  - induction d as [|x d IHd]; simpl; [reflexivity|now rewrite <- IHd].
  - rewrite IH. unfold ddel. rewrite filter_twice.
    apply filter_ext. intros kv. now rewrite negb_orb.
Qed.

Lemma small_states floor (d : dict float) (l : dict float) :
  (forall kv, In kv l -> dget d (fst kv) = Some (snd kv)) ->
  comprehension (fun x =>
      rbind (subscript d x)
        (fun v => Ok (if (v <? floor)%float then Some x else None)))
    (dkeys l)
  = Ok (dkeys (List.filter (fun kv => (snd kv <? floor)%float) l)).
Proof.
  induction l as [|[k v] l IH]; intros Hd; simpl; [reflexivity|].
  pose proof (Hd (k, v) (or_introl eq_refl)) as Hk. simpl in Hk.
  unfold subscript at 1. rewrite Hk. simpl.
  rewrite IH by (intros kv Hkv; apply Hd; now right). simpl.
  now destruct (v <? floor)%float.
Qed.

Lemma fold_ddel_small floor (d : dict float) :
  dict_wf d ->
  fold_left ddel (dkeys (List.filter (fun kv => (snd kv <? floor)%float) d)) d
  = above_floor floor d.
Proof.
  intros Hwf. rewrite fold_ddel. unfold above_floor.
  apply filter_ext_in. intros [k v] Hin. simpl. f_equal.
  destruct (v <? floor)%float eqn:Hv.
  - apply existsb_exists. exists k. split; [|apply String.eqb_refl].
    apply in_map_iff. exists (k, v). split; [reflexivity|].
    apply filter_In. auto.
  - destruct (existsb _ _) eqn:Hex; [|reflexivity].
    apply existsb_exists in Hex as (k' & Hk' & Heq).
    apply String.eqb_eq in Heq as <-.
    apply in_map_iff in Hk' as ([k2 v2] & Hk2 & Hin2). simpl in Hk2. subst k2.
    apply filter_In in Hin2 as [Hin2 Hv2]. simpl in Hv2.
    assert (v2 = v).
    { apply (dget_In_wf d k v2 Hwf) in Hin2.
      apply (dget_In_wf d k v Hwf) in Hin. congruence. }
    congruence.
Qed.

Lemma NoDup_dkeys_filter {A} (f : state * A -> bool) (d : dict A) :
  dict_wf d -> NoDup (dkeys (List.filter f d)).
Proof.
  unfold dict_wf, dkeys. induction d as [|[k v] d IH]; simpl; intros Hnd.
  - constructor.
  - apply NoDup_cons in Hnd as [Hnotin Hnd].
    destruct (f (k, v)); simpl; [|now apply IH].
    apply NoDup_cons. split; [|now apply IH].
    intros Hin. apply Hnotin.
    apply list_elem_of_In, in_map_iff in Hin as (kv & Hkv & Hin).
    apply filter_In in Hin as [Hin _].
    apply list_elem_of_In, in_map_iff. now exists kv.
Qed.

Lemma prune_body (new_V np : nat) k h (d : dict float) :
  dists h !! new_V = Some d -> In k (dkeys d) -> np < length (tables h) ->
  exists h',
    (dist_delitem new_V k;;
     present <- table_contains np k;
     if present then table_delitem np k else ret tt) h = Return tt h' /\
    dists h' = <[new_V := ddel d k]> (dists h) /\
    lists h' = lists h /\ length (tables h') = length (tables h).
Proof.
  intros Hd Hk Hnp.
  apply dmem_keys in Hk.
  destruct (lookup_lt_is_Some_2 _ _ Hnp) as [t Ht].
  unfold bind, dist_delitem, table_contains, table_delitem, bind, get_dist, put_dist,
    get_table, put_table, ret.
  rewrite Hd, Hk, Hd. simpl. rewrite Ht.
  destruct (dmem t k) eqn:Hmem; simpl.
  - repeat (rewrite ?Ht, ?Hmem; simpl).
    eexists. split; [reflexivity|]. simpl.
    now rewrite length_insert.
  - eexists. split; [reflexivity|]. auto.
Qed.

Lemma prune_loop (new_V np : nat) ks : forall h (d : dict float),
  dists h !! new_V = Some d -> np < length (tables h) ->
  NoDup ks -> (forall k, In k ks -> In k (dkeys d)) ->
  exists h',
    for_ ks (fun state =>
      dist_delitem new_V state;;
      present <- table_contains np state;
      if present then table_delitem np state else ret tt) h = Return tt h' /\
    dists h' = <[new_V := fold_left ddel ks d]> (dists h) /\
    lists h' = lists h /\ length (tables h') = length (tables h).
Proof.
  induction ks as [|k ks IH]; intros h d Hd Hnp Hnd Hin; simpl.
  - exists h. split; [reflexivity|]. split; [|auto].
    symmetry. now apply list_insert_id.
  - apply NoDup_cons in Hnd as [Hk Hnd].
    destruct (prune_body new_V np k h d Hd (Hin k (or_introl eq_refl)) Hnp)
      as (h1 & Hrun & Hd1 & Hl1 & Ht1).
    unfold bind at 1. rewrite Hrun.
    destruct (IH h1 (ddel d k)) as (h2 & Hrun2 & Hd2 & Hl2 & Ht2).
    + rewrite Hd1. apply list_lookup_insert_eq. now apply lookup_lt_Some in Hd.
    + now rewrite Ht1.
    + exact Hnd.
    + intros k' Hk'. apply In_dkeys_ddel; [apply Hin; now right|].
      intros ->. apply Hk. now apply list_elem_of_In.
    + exists h2. split; [exact Hrun2|]. rewrite Hd2, Hd1, Hl2, Ht2.
      split; [|auto]. now rewrite list_insert_insert_eq.
Qed.

Lemma prune_floor self new_V np h (d : dict float) :
  dists h !! new_V = Some d -> dict_wf d -> np < length (tables h) ->
  exists h',
    prune self new_V np h = Return tt h' /\
    dists h' !! new_V = Some (above_floor (smallV self) d) /\
    lists h' = lists h.
Proof.
  intros Hd Hwf Hnp. unfold prune.
  unfold bind at 1. unfold get_dist at 1. rewrite Hd.
  unfold bind at 1.
  rewrite (small_states (smallV self) d d) by (intros [k v]; now apply dget_In_wf).
  unfold lift at 1.
  destruct (prune_loop new_V np
              (dkeys (List.filter (fun kv => (snd kv <? smallV self)%float) d))
              h d Hd Hnp) as (h' & Hrun & Hd' & Hl' & _).
  - now apply NoDup_dkeys_filter.
  - intros k Hk. apply in_map_iff in Hk as (kv & <- & Hkv).
    apply filter_In in Hkv as [Hkv _]. apply in_map_iff. now exists kv.
  - exists h'. split; [exact Hrun|]. split; [|exact Hl'].
    rewrite Hd', fold_ddel_small by exact Hwf.
    apply list_lookup_insert_eq. now apply lookup_lt_Some in Hd.
Qed.

(** ** The new path table is there when the loop ends *)

Lemma score_tables_length self V path new_V np se h :
  post (score self V path new_V np se) h
    (fun _ h' => length (tables h') = length (tables h)) (fun _ _ => True).
Proof.
  unfold score, dist_setitem. destruct se as [to e].
  mstep. mstep; [|trivial]. mstep. mstep; [|trivial].
  destruct a as [[max_prob mf]|]; [|now mstep].
  mstep. mstep. mstep; [|trivial]. mstep; [|trivial].
  eapply post_weaken; [apply extend_path_post| |trivial].
  intros [] h' (pt & r & h1 & old & npt & _ & Hcase & _ & _ & _ & ->). simpl.
  rewrite length_insert.
  destruct Hcase as [[_ ->]|(_ & _ & ->)]; simpl; [reflexivity|].
  now rewrite length_insert.
Qed.

Lemma scores_new_path self obs V path h0 :
  post (scores self obs V path) h0
    (fun r h => snd r < length (tables h)) (fun _ _ => True).
Proof.
  unfold scores. mstep.
  eapply post_weaken with (Q := fun _ _ => True) (E := fun _ _ => True);
    [| |trivial].
  - destruct V as [v|]; [now mstep|]. mstep. mstep; [|trivial]. now mstep.
  - intros v h _. mstep. mstep. mstep. mstep. simpl. mstep.
    eapply post_weaken;
      [apply post_for with (I := fun h' => length (tables h) < length (tables h'))
                           (E := fun _ _ => True)| |trivial].
    + simpl. rewrite length_app. simpl. lia.
    + intros se h1 _ Hlt.
      eapply post_weaken; [apply score_tables_length| |trivial].
      intros [] h2 Heq. simpl in Heq. lia.
    + intros [] h1 Hlt. now mstep.
Qed.

(** ** Construction *)

Lemma post_for_acc {A S} (l : list A) (body : S -> A -> M S)
    (I : S -> heap -> Prop) E acc h :
  I acc h ->
  (forall x acc1 h1, In x l -> I acc1 h1 -> post (body acc1 x) h1 I E) ->
  post (for_acc l acc body) h I E.
Proof.
  revert acc h. induction l as [|x l IH]; intros acc h HI Hbody; simpl.
  - exact HI.
  - apply post_bind.
    eapply post_weaken; [apply (Hbody x acc h); [now left|exact HI]| |auto].
    intros acc1 h1 HI1. apply IH; [exact HI1|].
    intros y acc2 h2 Hy. apply Hbody. now right.
Qed.

Lemma add_incoming_post from_state inc edge h :
  post (add_incoming from_state inc edge) h (fun _ h' => h' = h) (fun _ _ => False).
Proof.
  unfold add_incoming. destruct edge as [to_state probability].
  mstep. mstep.
  - now mstep.
  - unfold subscript in H. destruct (dmem inc to_state) eqn:Hmem.
    + destruct (proj1 (dmem_true _ _) Hmem) as [v Hv]. now rewrite Hv in H.
    + now rewrite dget_dset_eq in H.
Qed.

Lemma init_post hmm ep priors L cs floor h :
  (forall p, priors = Some p -> is_Some (dists h !! p)) ->
  post (__init__ hmm ep priors L cs floor) h
    (fun self h' =>
       Viterbi.hmm self = hmm /\ constraint_length self = L /\
       smallV self = floor /\ is_Some (dists h' !! Viterbi.priors self) /\
       dists_kept h h' /\ tables h' = tables h /\ lists h' = lists h)
    (fun _ _ => False).
Proof.
  intros Hpriors. unfold __init__. mstep.
  eapply post_weaken with
    (Q := fun _ h' => h' = h) (E := fun _ _ => False); [| |trivial].
  { unfold truth. destruct priors as [p|]; [|now mstep].
    mstep. mstep; [now mstep|].
    destruct (Hpriors p eq_refl) as [d Hd]. congruence. }
  intros given h' ->. mstep.
  eapply post_weaken with
    (Q := fun p h' => is_Some (dists h' !! p) /\ dists_kept h h' /\
                      tables h' = tables h /\ lists h' = lists h)
    (E := fun _ _ => False); [| |trivial].
  { assert (Hdefault :
      post (p <- new_dist [];
            for_ (dkeys hmm) (fun state =>
              q <- lift (truediv_int 1 (length hmm));
              dist_setitem p state q);;
            ret p) h
        (fun p h' => is_Some (dists h' !! p) /\ dists_kept h h' /\
                     tables h' = tables h /\ lists h' = lists h)
        (fun _ _ => False)).
    { mstep. mstep. mstep.
      eapply post_weaken;
        [apply post_for with
           (I := fun h' => is_Some (dists h' !! length (dists h)) /\
                           dists_kept h h' /\
                           tables h' = tables h /\ lists h' = lists h)
           (E := fun _ _ => False)| |trivial].
      - simpl. split; [exists []; now apply list_lookup_middle|].
        split; [apply dists_kept_alloc, dists_kept_refl|auto].
      - intros state h1 Hin (Hsome & Hk & Ht & Hl). unfold dist_setitem.
        mstep. mstep.
        + mstep. mstep; [|destruct Hsome; congruence].
          mstep; [|destruct Hsome; congruence]. simpl.
          split; [apply lookup_lt_is_Some; rewrite length_insert;
                  now apply lookup_lt_is_Some|].
          split; [|auto]. apply dists_kept_put; [exact Hk|].
          now apply lookup_ge_None_2.
        + unfold truediv_int in H. unfold dkeys in Hin.
          destruct hmm; [contradiction|discriminate].
      - intros [] h1 HI. now mstep. }
    destruct priors as [p|]; [|exact Hdefault].
    destruct given; [|exact Hdefault].
    mstep. split; [now apply Hpriors|]. split; [apply dists_kept_refl|auto]. }
  intros p h1 (Hsome & Hk & Ht & Hl). mstep.
  eapply post_weaken with
    (Q := fun _ h' => h' = h1) (E := fun _ _ => False); [| |trivial].
  { apply post_for_acc with (I := fun _ h' => h' = h1); [reflexivity|].
    intros from_state inc h2 Hin ->. mstep. mstep.
    - apply post_for_acc with (I := fun _ h' => h' = h1); [reflexivity|].
      intros edge inc1 h2 _ ->. apply add_incoming_post.
    - destruct (subscript_keys hmm from_state Hin) as [v Hv]. congruence. }
  intros inc h2 ->. mstep. simpl. auto 10.
Qed.

(** ** The keys of the distribution and of the new path table *)

Lemma dmem_dset {A} (d : dict A) k v s :
  dmem (dset d k v) s = (String.eqb k s || dmem d s)%bool.
Proof.
  unfold dmem. destruct (String.eqb_spec k s) as [->|Hne]; simpl.
  - now rewrite dget_dset_eq.
  - now rewrite dget_dset_ne.
Qed.

Lemma dmem_ddel {A} (d : dict A) k s :
  dmem (ddel d k) s = (negb (String.eqb k s) && dmem d s)%bool.
Proof.
  unfold dmem. destruct (String.eqb_spec k s) as [->|Hne]; simpl.
  - now rewrite dget_ddel_eq.
  - now rewrite dget_ddel_ne.
Qed.

Lemma keys_agree_dset d t k v r :
  keys_agree d t -> keys_agree (dset d k v) (dset t k r).
Proof. intros H s. now rewrite !dmem_dset, H. Qed.

Lemma keys_agree_ddel d t k :
  keys_agree d t -> keys_agree (ddel d k) (ddel t k).
Proof. intros H s. now rewrite !dmem_ddel, H. Qed.

Lemma keys_agree_ddel_absent d t k :
  keys_agree d t -> dmem t k = false -> keys_agree (ddel d k) t.
Proof.
  intros H Hk s. rewrite dmem_ddel, H.
  destruct (String.eqb_spec k s) as [<-|Hne]; simpl; [now rewrite Hk|reflexivity].
Qed.

Lemma score_keys self V path new_V np se h :
  path <> np ->
  (exists d npt, dists h !! new_V = Some d /\ tables h !! np = Some npt /\
                 keys_agree d npt) ->
  post (score self V path new_V np se) h
    (fun _ h' => exists d npt, dists h' !! new_V = Some d /\
                               tables h' !! np = Some npt /\ keys_agree d npt)
    (fun _ _ => True).
Proof.
  intros Hne (d & npt & Hd & Hnpt & Hagree). unfold score, dist_setitem.
  destruct se as [to e].
  mstep. mstep; [|trivial]. mstep. mstep; [|trivial].
  destruct a as [[max_prob mf]|]; [|mstep; eauto].
  mstep. mstep. mstep; [|trivial]. mstep; [|trivial].
  assert (d1 = d) as -> by congruence.
  eapply post_weaken; [apply extend_path_post| |trivial].
  intros [] h' (pt & r & h1 & old & npt' & _ & Hcase & _ & _ & Hnpt' & ->).
  simpl in *.
  assert (npt' = npt) as ->.
  { destruct Hcase as [[_ ->]|(_ & _ & ->)]; simpl in Hnpt'; [congruence|].
    rewrite list_lookup_insert_ne in Hnpt' by exact Hne. congruence. }
  exists (dset d to max_prob), (dset npt to (length (lists h1))).
  split; [apply list_lookup_insert_eq; now apply lookup_lt_Some in Hd|].
  split; [apply list_lookup_insert_eq; now apply lookup_lt_Some in Hnpt'|].
  now apply keys_agree_dset.
Qed.

Lemma scores_keys self obs V path h0 :
  is_Some (tables h0 !! path) ->
  post (scores self obs V path) h0
    (fun r h => exists d npt, dists h !! fst r = Some d /\
                              tables h !! snd r = Some npt /\ keys_agree d npt)
    (fun _ _ => True).
Proof.
  intros Hpath. unfold scores. mstep.
  eapply post_weaken with
    (Q := fun _ h => tables h = tables h0) (E := fun _ _ => True); [| |trivial].
  - destruct V as [v|]; [now mstep|]. mstep. mstep; [|trivial]. now mstep.
  - intros v h Ht. mstep. mstep. mstep. mstep. simpl. mstep.
    eapply post_weaken;
      [apply post_for with
         (I := fun h' => exists d npt,
                 dists h' !! length (dists h) = Some d /\
                 tables h' !! length (tables h) = Some npt /\ keys_agree d npt)
         (E := fun _ _ => True)| |trivial].
    + exists [], []. simpl. repeat split; now apply list_lookup_middle.
    + intros se h1 _ HI. apply score_keys; [|exact HI].
      rewrite Ht. apply lookup_lt_is_Some in Hpath. lia.
    + intros [] h1 HI. now mstep.
Qed.

Lemma dmem_dict_of_pairs {A} (l : list (state * A)) s :
  dmem (dict_of_pairs l) s = true <-> In s (map fst l).
Proof.
  unfold dict_of_pairs.
  assert (H : forall d0,
            dmem (fold_left (fun d kv => dset d (fst kv) (snd kv)) l d0) s = true
            <-> dmem d0 s = true \/ In s (map fst l)).
  { induction l as [|[k v] l IH]; intros d0; simpl.
    - split; [auto|now intros [H|[]]].
    - rewrite IH, dmem_dset. simpl.
      destruct (String.eqb_spec k s) as [->|Hne]; simpl; [tauto|].
      split; [intros [H|H]; auto|intros [H|[H|H]]; auto; contradiction]. }
  rewrite H. unfold dmem. simpl. split; [now intros [H'|H']|auto].
Qed.

Lemma normalize_keys self new_V h (d : dict float) :
  dists h !! new_V = Some d -> (sum (dvalues d) =? 0)%float = false ->
  post (normalize self new_V) h
    (fun new_V' h' => exists d', dists h' !! new_V' = Some d' /\
                                 (forall s, dmem d' s = dmem d s) /\
                                 tables h' = tables h)
    (fun _ _ => True).
Proof.
  intros Hd Hsum. unfold normalize. mstep. mstep; [|trivial].
  assert (d0 = d) as -> by congruence. rewrite Hsum.
  mstep. mstep; [|trivial]. rename a into pairs, H0 into Hpairs. mstep. simpl.
  exists (dict_of_pairs pairs). split; [now apply list_lookup_middle|].
  split; [|reflexivity]. intros s.
  apply eq_true_iff_eq. rewrite dmem_dict_of_pairs, dmem_keys, in_map_iff.
  split.
  - intros ([k q] & <- & Hin).
    apply (comprehension_In _ _ _ (k, q) Hpairs) in Hin as (x & Hx & Hf).
    unfold subscript, truediv in Hf. simpl.
    destruct (dget d x); simpl in Hf; [|discriminate].
    destruct (_ =? _)%float; simpl in Hf; [discriminate|].
    now injection Hf as <- _.
  - intros Hs. destruct (dget_keys d s Hs) as [v Hv].
    exists (s, (v / sum (dvalues d))%float). split; [reflexivity|].
    apply (comprehension_In _ _ _ _ Hpairs). exists s. split; [exact Hs|].
    unfold subscript, truediv. rewrite Hv. simpl. now rewrite Hsum.
Qed.

Lemma prune_keys self new_V np h :
  (exists d npt, dists h !! new_V = Some d /\ tables h !! np = Some npt /\
                 keys_agree d npt) ->
  post (prune self new_V np) h
    (fun _ h' => exists d npt, dists h' !! new_V = Some d /\
                               tables h' !! np = Some npt /\ keys_agree d npt)
    (fun _ _ => True).
Proof.
  intros HI. unfold prune. mstep. mstep; [|trivial]. mstep. mstep; [|trivial].
  apply post_for with
    (I := fun h' => exists d npt, dists h' !! new_V = Some d /\
                                  tables h' !! np = Some npt /\ keys_agree d npt);
    [exact HI|].
  clear HI. intros k h1 _ (d1 & npt & Hd & Hnpt & Hagree).
  unfold dist_delitem, table_contains, table_delitem.
  mstep. mstep. mstep; [|trivial]. assert (d0 = d1) as -> by congruence.
  destruct (dmem d1 k); [|mstep; [discriminate|trivial]].
  mstep; [|trivial]. mstep. mstep. mstep; [|trivial]. simpl in *.
  assert (d2 = npt) as -> by congruence. mstep.
  assert (Hd' : <[new_V := ddel d1 k]> (dists h1) !! new_V = Some (ddel d1 k)).
  { apply list_lookup_insert_eq. now apply lookup_lt_Some in Hd. }
  destruct (dmem npt k) eqn:Hk.
  - mstep. mstep; [|trivial]. simpl in *. assert (d2 = npt) as -> by congruence.
    rewrite Hk. mstep; [|trivial]. simpl.
    exists (ddel d1 k), (ddel npt k). split; [exact Hd'|].
    split; [apply list_lookup_insert_eq; now apply lookup_lt_Some in Hnpt|].
    now apply keys_agree_ddel.
  - mstep. simpl. exists (ddel d1 k), npt. split; [exact Hd'|].
    split; [exact Hnpt|]. now apply keys_agree_ddel_absent.
Qed.

(** When the scores do not sum to zero, the distribution and the path table
    that [step] returns have the same keys. *)
Lemma step_keys_agree_without_reset self obs V path h new_V0 new_path0 h1 d0 r h' :
  is_Some (tables h !! path) ->
  scores self obs V path h = Return (new_V0, new_path0) h1 ->
  dists h1 !! new_V0 = Some d0 -> (sum (dvalues d0) =? 0)%float = false ->
  step self obs V path h = Return r h' ->
  exists d npt, dists h' !! fst r = Some d /\ tables h' !! snd r = Some npt /\
                keys_agree d npt.
Proof.
  intros Hpath Hscores Hd0 Hsum Hrun.
  pose proof (post_Return _ _ _ _ _ _ (scores_keys self obs V path h Hpath) Hscores)
    as (d0' & npt & Hd0' & Hnpt & Hagree). simpl in *.
  assert (d0' = d0) as -> by congruence.
  unfold step in Hrun. unfold bind at 1 in Hrun. rewrite Hscores in Hrun.
  unfold bind at 1 in Hrun.
  pose proof (normalize_keys self new_V0 h1 d0 Hd0 Hsum) as Hnorm. unfold post in Hnorm.
  destruct (normalize self new_V0 h1) as [new_V h2|]; [|discriminate].
  destruct Hnorm as (d' & Hd' & Hsame & Ht).
  unfold bind at 1 in Hrun.
  assert (HI : exists d npt, dists h2 !! new_V = Some d /\
                             tables h2 !! new_path0 = Some npt /\ keys_agree d npt).
  { exists d', npt. split; [exact Hd'|]. split; [now rewrite Ht|].
    intros s. now rewrite Hsame. }
  pose proof (prune_keys self new_V new_path0 h2 HI) as Hprune. unfold post in Hprune.
  destruct (prune self new_V new_path0 h2) as [[] h3|]; [|discriminate].
  injection Hrun as <- <-. exact Hprune.
Qed.

(** ** The objects of the caller that the loop writes *)











(** * The claims *)

Import Examples.

(** ** The examples *)

(** The engines of the examples are the ones that [__init__] builds. *)
Lemma init_sticky :
  __init__ sticky_hmm favours_B None 2 None default_smallV empty_heap =
  Return sticky (Heap [[("A", 0.5%float); ("B", 0.5%float)]] [] []).
Proof. vm_compute. reflexivity. Qed.

Lemma init_chain :
  __init__ chain_hmm only_C (Some 0) default_constraint_length None
    default_smallV chain_heap = Return chain chain_heap.
Proof. vm_compute. reflexivity. Qed.

Lemma init_silent :
  __init__ chain_hmm only_C (Some 0) default_constraint_length
    (Some (fun _ => [])) default_smallV chain_heap = Return silent chain_heap.
Proof. vm_compute. reflexivity. Qed.

Lemma step_scoring self obs V path h Vd r h' :
  input_dist self V h = Some Vd -> table_valid h path ->
  step self obs V path h = Return r h' ->
  scoring self obs Vd path (snd r) h h'.
Proof.
  intros HV Hvalid Hrun.
  exact (post_Return _ _ _ _ _ _ (step_post self obs V path h Vd HV Hvalid) Hrun).
Qed.

Lemma table_valid_sticky : table_valid sticky_heap 0.
Proof.
  exists [("B", 0)]. split; [reflexivity|].
  intros s r Hs. pose proof (dget_Some_keys _ _ _ Hs) as [<-|[]].
  vm_compute in Hs. injection Hs as <-. now exists ["B"; "B"].
Qed.

(** ** C1: a candidate without incoming edges *)

Lemma for_raises {A} (body : A -> M unit) x l :
  In x l -> (forall h, exists e h', body x h = Raise e h') ->
  forall h, exists e h', for_ l body h = Raise e h'.
Proof.
  intros Hin Hx. induction l as [|y l IH]; [contradiction|].
  intros h. simpl. unfold bind.
  destruct Hin as [->|Hin].
  - destruct (Hx h) as (e & h' & ->). eauto.
  - destruct (body y h) as [[] h1|e h1]; [now apply IH|eauto].
Qed.

(** Whenever a candidate with a positive emission probability has no entry
    in the reverse index, the call raises. *)
Lemma step_raises_without_incoming self obs V path h to :
  In to (candidate_states self obs) ->
  (0 <? emission_probability self to obs)%float = true ->
  dget (incoming self) to = None ->
  exists e h', step self obs V path h = Raise e h'.
Proof.
  intros Hcand Hpos Hnone.
  assert (Hin : In (to, emission_probability self to obs) (nonzero_eps self obs)).
  { unfold nonzero_eps. apply filter_In. split; [|exact Hpos].
    apply in_map_iff. now exists to. }
  assert (Hscore : forall v new_V new_path h1, exists e h',
             score self v path new_V new_path
               (to, emission_probability self to obs) h1 = Raise e h').
  { intros v new_V new_path h1. unfold score, bind, get_dist.
    destruct (dists h1 !! v); [|eauto].
    unfold best_from, subscript. rewrite Hnone. simpl. eauto. }
  unfold step, scores, bind.
  destruct (match V with Some V0 => ret V0 | None => _ end h)
    as [v h1|e h1]; [|eauto].
  simpl.
  destruct (for_raises (score self v path (length (dists h1)) (length (tables h1)))
              _ _ Hin (Hscore v _ _)
              (Heap (dists h1 ++ [[]]) (tables h1 ++ [[]]) (lists h1)))
    as (e & h' & ->).
  eauto.
Qed.

(** C1 (defect of the code): with the default candidate function, a graph
    in which the state ["A"] has no incoming edge and an emission that is
    positive everywhere, the first call of [step] does not return: the
    lookup of ["A"] in the reverse index raises [KeyError], where the claim
    has the state simply receive no score. *)
Theorem step_source_state_KeyError :
  call_source =
  Raise KeyError
    (Heap [[("A", 0.5%float); ("B", 0.5%float)];
           [("A", 0.5%float); ("B", 0.5%float)]; []]
          [[]; []] []).
Proof. vm_compute. reflexivity. Qed.

(** ** C2: keys of the path table and of the distribution *)

(** C2 (defect of the code): a call whose scores sum to zero returns the
    priors as its distribution but keeps the paths computed for the
    candidates: here ["C"] is a key of the returned path table and not of
    the returned distribution. *)
Theorem step_reset_keeps_stale_path :
  step chain "x" None 0 chain_heap = Return (3, 1) chain_heap_after /\
  (exists npt d,
     tables chain_heap_after !! 1 = Some npt /\
     dists chain_heap_after !! 3 = Some d /\
     dmem npt "C" = true /\ dmem d "C" = false).
Proof.
  split; [vm_compute; reflexivity|].
  exists [("C", 1)], [("A", 1%float)]. repeat split.
Qed.

(** ** C3: the snapshot of the caller *)




(** ** C4: construction and malformed graphs *)

(** The statement about construction covers the calls of [step] that
    follow it, and rests on the analysis of the exceptions of [step]: it
    is at the end of the file. *)

(** ** C5: the two ways of listing the predecessors *)

(** On a distribution whose states all have a positive mass, the two
    strategies list the same predecessors. *)
Lemma predecessors_agree_on_positive (inc V : dict float) l1 l2 :
  (forall s v, dget V s = Some v -> (0 <? v)%float = true) ->
  incoming_driven inc V = Ok l1 -> distribution_driven inc V = Ok l2 ->
  forall x, In x l1 <-> In x l2.
Proof.
  intros Hpos H1 H2 [s q].
  rewrite (comprehension_In _ _ _ (s, q) H1), (comprehension_In _ _ _ (s, q) H2).
  split.
  - intros (k & Hk & Hf). unfold dmem, subscript in Hf.
    destruct (dget V k) as [v|] eqn:HV; [|discriminate]. simpl in Hf.
    destruct (0 <? v)%float; [|discriminate].
    destruct (dget inc k) as [p|] eqn:Hinc; [|discriminate].
    simpl in Hf. injection Hf as <- <-.
    exists k. split; [now apply (dget_Some_keys V k v)|].
    unfold dmem, subscript. now rewrite Hinc.
  - intros (k & Hk & Hf). unfold dmem, subscript in Hf.
    destruct (dget inc k) as [p|] eqn:Hinc; [|discriminate].
    simpl in Hf. injection Hf as <- <-.
    destruct (dget_keys V k Hk) as [v Hv].
    exists k. split; [now apply (dget_Some_keys inc k p)|].
    unfold dmem, subscript. rewrite Hv. simpl. rewrite (Hpos k v Hv), Hinc.
    reflexivity.
Qed.

(** C5 (defect of the code): for the predecessors of ["C"] in [chain] and
    the distribution [{"A": 1.0, "B": 0.0}], the strategy driven by the
    reverse index leaves the massless ["B"] out and the one driven by the
    distribution keeps it; with one more massless state in the
    distribution the size comparison selects the other branch and the
    predecessors found change. *)
Theorem predecessor_strategies_differ :
  dget (incoming chain) "C" = Some into_C /\
  incoming_driven into_C mass_on_A = Ok [] /\
  distribution_driven into_C mass_on_A = Ok [("B", 0.5%float)] /\
  nonzero_incoming into_C mass_on_A = Ok [("B", 0.5%float)] /\
  nonzero_incoming into_C mass_on_A' = Ok [].
Proof. repeat split. Qed.

(** ** C6: the reset to the priors *)

(** No candidate, or no candidate with a positive emission probability:
    the loop over the candidates has nothing to do. *)
Lemma nonzero_eps_nil self obs :
  (forall c, In c (candidate_states self obs) ->
     (0 <? emission_probability self c obs)%float = false) ->
  nonzero_eps self obs = [].
Proof.
  intros H. unfold nonzero_eps.
  induction (candidate_states self obs) as [|c l IH]; simpl; [reflexivity|].
  rewrite (H c) by now left. apply IH. intros c' Hc'. apply H. now right.
Qed.

Lemma scores_no_candidates self obs V path h (p : dict float) :
  nonzero_eps self obs = [] -> dists h !! priors self = Some p ->
  exists new_V new_path h1,
    scores self obs V path h = Return (new_V, new_path) h1 /\
    dists h1 !! new_V = Some [].
Proof.
  intros Hnone Hp. unfold scores. rewrite Hnone.
  destruct V as [v|]; unfold bind, ret, get_dist, new_dist, new_table; simpl.
  - do 3 eexists. split; [reflexivity|]. simpl. now apply list_lookup_middle.
  - rewrite Hp. do 3 eexists. split; [reflexivity|]. simpl.
    now apply list_lookup_middle.
Qed.

Lemma above_floor_id floor (p : dict float) :
  (forall s v, In (s, v) p -> (v <? floor)%float = false) ->
  above_floor floor p = p.
Proof.
  unfold above_floor. induction p as [|[s v] p IH]; intros H; simpl; [reflexivity|].
  rewrite (H s v) by now left. simpl. f_equal. apply IH.
  intros s' v' Hin. apply (H s' v'). now right.
Qed.

(** C6 (counterexample): with the priors [{"A": 1.0, "B": 0.0}] and an
    observation that has no candidate state, the distribution that [step]
    returns is [{"A": 1.0}]: the prior of ["B"] is below the floor and has
    been pruned. *)
Lemma step_reset_prunes_priors :
  nonzero_eps silent "x" = [] /\
  step silent "x" None 0 chain_heap = Return (3, 1) silent_heap_after /\
  dists silent_heap_after !! priors silent = Some [("A", 1%float); ("B", 0%float)] /\
  dists silent_heap_after !! 3 = Some [("A", 1%float)] /\
  dists silent_heap_after !! 3 <> dists silent_heap_after !! priors silent.
Proof.
  split; [reflexivity|]. split; [vm_compute; reflexivity|].
  repeat (split; [reflexivity|]). discriminate.
Qed.

(** C6 (amended): when no candidate has a positive emission probability,
    or when the scores before normalization sum to zero, [step] returns
    normally and the distribution it returns is a copy of the priors from
    which the states whose prior is below the floor [smallV] have been
    pruned; it is the priors themselves when no prior is below the
    floor. *)
Theorem step_reset_to_priors self obs V path h (p : dict float) :
  dists h !! priors self = Some p -> dict_wf p ->
  (nonzero_eps self obs = [] \/
   exists new_V0 new_path0 h1 d,
     scores self obs V path h = Return (new_V0, new_path0) h1 /\
     dists h1 !! new_V0 = Some d /\
     (sum (dvalues d) =? 0)%float = true) ->
  exists new_V new_path h',
    step self obs V path h = Return (new_V, new_path) h' /\
    dists h' !! new_V = Some (above_floor (smallV self) p) /\
    dists h' !! priors self = Some p /\
    ((forall s v, In (s, v) p -> (v <? smallV self)%float = false) ->
     dists h' !! new_V = Some p).
Proof.
  intros Hp Hwf Hzero.
  assert (exists new_V0 new_path0 h1 d,
            scores self obs V path h = Return (new_V0, new_path0) h1 /\
            dists h1 !! new_V0 = Some d /\
            (sum (dvalues d) =? 0)%float = true)
    as (new_V0 & np & h1 & d & Hscores & Hd & Hsum).
  { destruct Hzero as [Hnone|Hex]; [|exact Hex].
    destruct (scores_no_candidates self obs V path h p Hnone Hp)
      as (new_V0 & np & h1 & Hscores & Hd).
    exists new_V0, np, h1, []. auto. }
  pose proof (post_Return _ _ _ _ _ _ (scores_dists self obs V path h) Hscores)
    as Hkept.
  pose proof (post_Return _ _ _ _ _ _ (scores_new_path self obs V path h) Hscores)
    as Hnp. simpl in Hnp.
  destruct (prune_floor self (length (dists h1)) np
              (Heap (dists h1 ++ [p]) (tables h1) (lists h1)) p)
    as (h' & Hprune & Hd' & _); [now apply list_lookup_middle|exact Hwf|exact Hnp|].
  assert (Hrun : step self obs V path h = Return (length (dists h1), np) h').
  { unfold step. unfold bind at 1. rewrite Hscores.
    unfold bind at 1. unfold normalize, bind at 1, get_dist at 1. rewrite Hd, Hsum.
    unfold bind at 1, get_dist at 1. rewrite (Hkept _ _ Hp).
    unfold new_dist. unfold bind at 1. now rewrite Hprune. }
  exists (length (dists h1)), np, h'. split; [exact Hrun|]. split; [exact Hd'|].
  split.
  - pose proof (post_Return _ _ _ _ _ _ (step_dists self obs V path h) Hrun)
      as (Hkept' & _).
    now apply Hkept'.
  - intros Hfloor. now rewrite Hd', above_floor_id.
Qed.

Lemma dict_wf_chain_priors : dict_wf [("A", 1%float); ("B", 0%float)].
Proof.
  unfold dict_wf. simpl. apply NoDup_cons. split.
  - intros H. apply list_elem_of_In in H as [H|[]]. discriminate.
  - apply NoDup_cons. split; [|constructor].
    intros H. apply list_elem_of_In in H as [].
Qed.

Lemma step_reset_to_priors_witness :
  dists chain_heap !! priors chain = Some [("A", 1%float); ("B", 0%float)] /\
  dict_wf [("A", 1%float); ("B", 0%float)] /\
  (nonzero_eps chain "x" = [] \/
   exists new_V0 new_path0 h1 d,
     scores chain "x" None 0 chain_heap = Return (new_V0, new_path0) h1 /\
     dists h1 !! new_V0 = Some d /\
     (sum (dvalues d) =? 0)%float = true) /\
  exists new_V new_path h',
    step chain "x" None 0 chain_heap = Return (new_V, new_path) h' /\
    dists h' !! new_V
      = Some (above_floor (smallV chain) [("A", 1%float); ("B", 0%float)]) /\
    dists h' !! priors chain = Some [("A", 1%float); ("B", 0%float)] /\
    ((forall s v, In (s, v) [("A", 1%float); ("B", 0%float)] ->
        (v <? smallV chain)%float = false) ->
     dists h' !! new_V = Some [("A", 1%float); ("B", 0%float)]).
Proof.
  assert (Hzero :
    nonzero_eps chain "x" = [] \/
    exists new_V0 new_path0 h1 d,
      scores chain "x" None 0 chain_heap = Return (new_V0, new_path0) h1 /\
      dists h1 !! new_V0 = Some d /\
      (sum (dvalues d) =? 0)%float = true).
  { right.
    exists 2, 1,
      (Heap [[("A", 1%float); ("B", 0%float)]; [("A", 1%float); ("B", 0%float)];
             [("C", 0%float)]]
            [[("B", 0)]; [("C", 1)]] [[]; ["C"]]),
      [("C", 0%float)].
    split; [vm_compute; reflexivity|]. split; reflexivity. }
  split; [reflexivity|]. split; [exact dict_wf_chain_priors|]. split; [exact Hzero|].
  exact (step_reset_to_priors chain "x" None 0 chain_heap _ eq_refl
           dict_wf_chain_priors Hzero).
Defined.

(** ** C7: the window bounds every path *)

Lemma window_extend_length (L : nat) (p : list state) to :
  length p <= L -> (length p = L -> p <> []) ->
  length (window L p ++ [to]) <= L.
Proof.
  intros Hle Hne. rewrite length_app. simpl. unfold window.
  destruct (Nat.eqb_spec (length p) L) as [HL|HL]; [|lia].
  destruct p as [|x p]; [now destruct (Hne HL)|]. simpl in *. lia.
Qed.

Lemma paths_bounded_valid L h path : paths_bounded L h path -> table_valid h path.
Proof.
  intros (pt & Hpt & Hb). exists pt. split; [exact Hpt|].
  intros s r Hs. destruct (Hb s r Hs) as (l & Hl & _). now exists l.
Qed.

Lemma scoring_bounded self obs Vd path np h h' :
  paths_bounded (constraint_length self) h path ->
  scoring self obs Vd path np h h' ->
  paths_bounded (constraint_length self) h' np.
Proof.
  intros (pt & Hpt & Hb) [_ _ _ _ (npt & _ & Hnp & Hent)].
  exists npt. split; [exact Hnp|].
  intros to r Hr. destruct (Hent to r Hr) as (_ & mf & p & _ & Hp & Hne & Hl).
  eexists. split; [exact Hl|].
  apply window_extend_length; [|exact Hne].
  unfold recorded_path in Hp. rewrite Hpt in Hp.
  destruct (dget pt mf) as [r0|] eqn:Hmf.
  - destruct (Hb mf r0 Hmf) as (l & Hl0 & Hle). congruence.
  - injection Hp as <-. simpl. lia.
Qed.

(** C7: if every path of the table passed to [step] has at most
    [constraint_length] elements, so has every path of the table that
    [step] returns. *)
Theorem step_window_bound self obs V path h Vd new_V new_path h' :
  input_dist self V h = Some Vd ->
  paths_bounded (constraint_length self) h path ->
  step self obs V path h = Return (new_V, new_path) h' ->
  paths_bounded (constraint_length self) h' new_path.
Proof.
  intros HV Hb Hrun.
  apply (scoring_bounded self obs Vd path new_path h h' Hb).
  exact (step_scoring self obs V path h Vd _ h' HV (paths_bounded_valid _ _ _ Hb) Hrun).
Qed.

Lemma paths_bounded_sticky : paths_bounded 2 sticky_heap 0.
Proof.
  exists [("B", 0)]. split; [reflexivity|].
  intros s r Hs. pose proof (dget_Some_keys _ _ _ Hs) as [<-|[]].
  vm_compute in Hs. injection Hs as <-. exists ["B"; "B"]. split; [reflexivity|].
  simpl. lia.
Qed.

Lemma step_window_bound_witness :
  input_dist sticky (Some 2) sticky_heap
    = Some [("A", 0.125%float); ("B", 0.875%float)] /\
  paths_bounded (constraint_length sticky) sticky_heap 0 /\
  step sticky "x" (Some 2) 0 sticky_heap = Return (4, 1) sticky_heap_shared /\
  paths_bounded (constraint_length sticky) sticky_heap_shared 1.
Proof.
  assert (Hrun : step sticky "x" (Some 2) 0 sticky_heap
                 = Return (4, 1) sticky_heap_shared) by (vm_compute; reflexivity).
  split; [reflexivity|]. split; [exact paths_bounded_sticky|]. split; [exact Hrun|].
  exact (step_window_bound sticky "x" (Some 2) 0 sticky_heap _ 4 1
           sticky_heap_shared eq_refl paths_bounded_sticky Hrun).
Defined.

(** The bound holds along a whole decoding, whatever the number of
    observations. *)
Lemma decode_window_bound self observations : forall V path h Vd r h',
  input_dist self V h = Some Vd ->
  paths_bounded (constraint_length self) h path ->
  decode self observations V path h = Return r h' ->
  paths_bounded (constraint_length self) h' (snd r).
Proof.
  induction observations as [|obs rest IH]; intros V path h Vd r h' HV Hb Hrun.
  - injection Hrun as <- <-. exact Hb.
  - simpl in Hrun. unfold bind in Hrun.
    destruct (step self obs V path h) as [[new_V new_path] h1|] eqn:Hstep;
      [|discriminate].
    pose proof (post_Return _ _ _ _ _ _ (step_dists self obs V path h) Hstep)
      as (_ & _ & [d Hd]).
    apply (IH (Some new_V) new_path h1 d r h'); [exact Hd| |exact Hrun].
    apply (scoring_bounded self obs Vd path new_path h h1 Hb).
    exact (step_scoring self obs V path h Vd _ h1 HV
             (paths_bounded_valid _ _ _ Hb) Hstep).
Qed.

(** ** C8: a window of length 0 *)

Lemma post_for_stuck {A} (l : list A) (body : A -> M unit) (I : heap -> Prop) x h :
  I h -> In x l ->
  (forall y h1, In y l -> I h1 -> post (body y) h1 (fun _ h2 => I h2) (fun _ _ => True)) ->
  (forall h1, I h1 -> post (body x) h1 (fun _ _ => False) (fun _ _ => True)) ->
  post (for_ l body) h (fun _ _ => False) (fun _ _ => True).
Proof.
  revert h. induction l as [|y l IH]; intros h HI Hin Hbody Hx; [contradiction|].
  simpl. apply post_bind. destruct Hin as [->|Hin].
  - eapply post_weaken; [apply (Hx h HI)|contradiction|trivial].
  - eapply post_weaken; [apply (Hbody y h); [now left|exact HI]| |trivial].
    intros [] h1 HI1. apply IH; trivial.
    intros z h2 Hz. apply Hbody. now right.
Qed.

Lemma score_no_window self obs Vd V path new_V np h0 h to mf :
  constraint_length self = 0 -> paths_bounded 0 h0 path ->
  max_from self Vd obs to = Some mf ->
  scoring self obs Vd path np h0 h /\ dists h !! V = Some Vd ->
  post (score self V path new_V np (to, emission_probability self to obs)) h
    (fun _ _ => False) (fun _ _ => True).
Proof.
  intros HL (pt0 & Hpt0 & Hb) Hmax [Hsc HVd]. unfold score, dist_setitem.
  mstep. mstep; [|trivial]. assert (d = Vd) as -> by congruence.
  mstep. mstep; [|trivial]. rename a into best, H0 into Hbest.
  unfold max_from in Hmax. rewrite Hbest in Hmax.
  destruct best as [[max_prob mf']|]; [|discriminate]. injection Hmax as ->.
  mstep. mstep. mstep; [|trivial]. mstep; [|trivial].
  eapply post_weaken; [apply extend_path_post| |trivial].
  intros [] h' (pt & r & h1 & old & npt & Hpt & Hcase & Hold & Hne & _). simpl in *.
  destruct Hsc as [_ Hlists _ (pt0' & ptc & Hpt0' & Hptc & _ & Hnew) _].
  assert (pt0' = pt0) as -> by congruence.
  assert (ptc = pt) as -> by congruence.
  assert (old = []) as ->; [|now apply Hne].
  destruct Hcase as [[Hr ->]|(_ & -> & ->)].
  - simpl in Hold. destruct (Hnew mf r Hr) as [Hmf|(_ & _ & Hempty)]; [|congruence].
    destruct (Hb mf r Hmf) as (l0 & Hl0 & Hle).
    destruct l0; [|simpl in Hle; lia].
    destruct (Hlists r [] Hl0) as [Hsame|(_ & Hcontra & _)]; [congruence|contradiction].
  - simpl in Hold. rewrite list_lookup_middle in Hold by reflexivity. congruence.
Qed.

(** With a window of length 0 and a table whose paths are empty, a call in
    which some candidate has a best predecessor raises. *)
Lemma step_no_window_raises self obs V path h Vd to mf :
  constraint_length self = 0 ->
  input_dist self V h = Some Vd -> paths_bounded 0 h path ->
  In to (candidate_states self obs) ->
  (0 <? emission_probability self to obs)%float = true ->
  max_from self Vd obs to = Some mf ->
  exists e h', step self obs V path h = Raise e h'.
Proof.
  intros HL HV Hb Hcand Hpos Hmax.
  assert (Hvalid : table_valid h path) by exact (paths_bounded_valid _ _ _ Hb).
  assert (Hin : In (to, emission_probability self to obs) (nonzero_eps self obs)).
  { unfold nonzero_eps. apply filter_In. split; [|exact Hpos].
    apply in_map_iff. now exists to. }
  assert (Hscores : post (scores self obs V path) h
                      (fun _ _ => False) (fun _ _ => True)).
  { unfold scores. mstep.
    eapply post_weaken with
      (Q := fun v h1 => dists h1 !! v = Some Vd /\ v < length (dists h1) /\
                        tables h1 = tables h /\ lists h1 = lists h)
      (E := fun _ _ => True); [| |trivial].
    - destruct V as [v|]; simpl in HV.
      + mstep. repeat split; trivial. now apply lookup_lt_Some in HV.
      + mstep. mstep; [|trivial]. assert (d = Vd) as -> by congruence.
        mstep. simpl. rewrite length_app. simpl.
        repeat split; [now apply list_lookup_middle|lia].
    - intros v h1 (Hv & Hlt & Ht & Hl).
      mstep. mstep. mstep. mstep. simpl. mstep.
      eapply post_weaken;
        [apply post_for_stuck with
           (I := fun h' => scoring self obs Vd path (length (tables h1)) h h' /\
                           dists h' !! v = Some Vd)
           (x := (to, emission_probability self to obs))| |trivial].
      + split.
        * rewrite Ht, Hl. now apply scoring_init.
        * simpl. now apply lookup_app_l_Some.
      + exact Hin.
      + intros [to' e] h2 Hin' HI.
        apply scoring_score; trivial; [lia|now apply nonzero_eps_In in Hin'].
      + intros h2 HI. now apply (score_no_window self obs Vd v path _ _ h h2 to mf).
      + contradiction. }
  unfold step, bind. unfold post in Hscores.
  destruct (scores self obs V path h) as [r h1|e h1]; [contradiction|eauto].
Qed.

(** C8 (defect of the code): construction accepts [constraint_length = 0],
    and then the first call of [step] in which a candidate has a
    qualifying predecessor raises [IndexError]: the predecessor's path is
    empty, its length equals the window, and [pop(0)] is applied to it. *)
Theorem step_no_window_IndexError :
  call_no_window =
  Raise IndexError
    (Heap [[("A", 1%float)]; [("A", 1%float)]; [("A", 1%float)]]
          [[("A", 0)]; []] [[]]).
Proof. vm_compute. reflexivity. Qed.

(** ** C9: two states that extend the path of one predecessor *)

(** C9: when [mf] is the arg-max predecessor of two different states of the
    returned path table, both paths are the path that the caller's table
    recorded for [mf] before the call, cut to the window, followed by the
    state itself. *)
Theorem step_shared_predecessor self obs V path h Vd new_V new_path h'
    to1 to2 mf (npt : dict loc) r1 r2 :
  input_dist self V h = Some Vd -> table_valid h path ->
  step self obs V path h = Return (new_V, new_path) h' ->
  to1 <> to2 ->
  max_from self Vd obs to1 = Some mf -> max_from self Vd obs to2 = Some mf ->
  tables h' !! new_path = Some npt ->
  dget npt to1 = Some r1 -> dget npt to2 = Some r2 ->
  exists p,
    recorded_path h path mf = Some p /\
    lists h' !! r1 = Some (window (constraint_length self) p ++ [to1]) /\
    lists h' !! r2 = Some (window (constraint_length self) p ++ [to2]).
Proof.
  intros HV Hvalid Hrun _ Hmax1 Hmax2 Hnpt Hr1 Hr2.
  destruct (step_scoring self obs V path h Vd _ h' HV Hvalid Hrun)
    as [_ _ _ _ (npt' & _ & Hnp & Hent)].
  simpl in Hnp. assert (npt' = npt) as -> by congruence.
  destruct (Hent to1 r1 Hr1) as (_ & mf1 & p1 & Hm1 & Hp1 & _ & Hl1).
  destruct (Hent to2 r2 Hr2) as (_ & mf2 & p2 & Hm2 & Hp2 & _ & Hl2).
  assert (mf1 = mf) as -> by congruence.
  assert (mf2 = mf) as -> by congruence.
  assert (p2 = p1) as -> by congruence.
  exists p1. auto.
Qed.

Lemma step_shared_predecessor_witness :
  input_dist sticky (Some 2) sticky_heap
    = Some [("A", 0.125%float); ("B", 0.875%float)] /\
  table_valid sticky_heap 0 /\
  step sticky "x" (Some 2) 0 sticky_heap = Return (4, 1) sticky_heap_shared /\
  "A" <> "B" /\
  max_from sticky [("A", 0.125%float); ("B", 0.875%float)] "x" "A" = Some "B" /\
  max_from sticky [("A", 0.125%float); ("B", 0.875%float)] "x" "B" = Some "B" /\
  tables sticky_heap_shared !! 1 = Some [("A", 1); ("B", 2)] /\
  dget [("A", 1); ("B", 2)] "A" = Some 1 /\
  dget [("A", 1); ("B", 2)] "B" = Some 2 /\
  exists p,
    recorded_path sticky_heap 0 "B" = Some p /\
    lists sticky_heap_shared !! 1 = Some (window 2 p ++ ["A"]) /\
    lists sticky_heap_shared !! 2 = Some (window 2 p ++ ["B"]).
Proof.
  assert (Hrun : step sticky "x" (Some 2) 0 sticky_heap
                 = Return (4, 1) sticky_heap_shared) by (vm_compute; reflexivity).
  assert (Hne : "A" <> "B") by discriminate.
  assert (HmA : max_from sticky [("A", 0.125%float); ("B", 0.875%float)] "x" "A"
                = Some "B") by (vm_compute; reflexivity).
  assert (HmB : max_from sticky [("A", 0.125%float); ("B", 0.875%float)] "x" "B"
                = Some "B") by (vm_compute; reflexivity).
  repeat (split; [first [reflexivity | assumption | exact table_valid_sticky]|]).
  exact (step_shared_predecessor sticky "x" (Some 2) 0 sticky_heap _ 4 1
           sticky_heap_shared "A" "B" "B" [("A", 1); ("B", 2)] 1 2
           eq_refl table_valid_sticky Hrun Hne HmA HmB eq_refl eq_refl eq_refl).
Defined.

(** ** C10: the distribution argument *)

(** C10: whether a call returns or raises, every distribution object of the
    caller's store, the argument [V] among them, is in the final store with
    the contents it had; the distribution that a call returns is an object
    that the caller's store did not have. *)
Theorem step_reads_V_only self obs V path h :
  match step self obs V path h with
  | Return r h' =>
      dists_kept h h' /\ dists h !! fst r = None /\ is_Some (dists h' !! fst r)
  | Raise _ h' => dists_kept h h'
  end.
Proof. exact (step_dists self obs V path h). Qed.

(** * More of the code *)

Import More.

(** ** Facts about the concrete models *)

Import Instances.

Ltac wf := unfold dict_wf; simpl; apply (bool_decide_unpack _); vm_compute; reflexivity.

Lemma dict_wf_sticky_hmm : dict_wf sticky_hmm.
Proof. wf. Qed.

Lemma dict_wf_halves : dict_wf [("A", 0.5%float); ("B", 0.5%float)].
Proof. wf. Qed.

Lemma dict_wf_eighths : dict_wf [("A", 0.125%float); ("B", 0.875%float)].
Proof. wf. Qed.

Lemma dict_wf_loop_priors : dict_wf [("A", 1%float)].
Proof. wf. Qed.

Lemma sticky_hmm_targets f edges :
  dget sticky_hmm f = Some edges -> NoDup (map fst edges).
Proof.
  unfold sticky_hmm. cbn [dget].
  destruct (String.eqb "A" f); [intros [= <-]; wf|].
  destruct (String.eqb "B" f); [intros [= <-]; wf|discriminate].
Qed.

Lemma sticky_incoming_total to :
  emitting sticky "x" to -> is_Some (dget (incoming sticky) to).
Proof. intros [[<-|[<-|[]]] _]; eexists; reflexivity. Qed.

Lemma loop_incoming_total to :
  emitting loop "x" to -> is_Some (dget (incoming loop) to).
Proof. intros [[<-|[]] _]; eexists; reflexivity. Qed.

Lemma table_valid_source : table_valid source_heap 0.
Proof. exists []. split; [reflexivity|]. intros s r [=]. Qed.

Lemma paths_bounded_loop : paths_bounded 0 loop_heap 0.
Proof. exists []. split; [reflexivity|]. intros s r [=]. Qed.

Lemma positive_masses s v : dget positive s = Some v -> (0 <? v)%float = true.
Proof.
  unfold positive. cbn [dget].
  destruct (String.eqb "B" s); [intros [= <-]; reflexivity|].
  destruct (String.eqb "C" s); [intros [= <-]; reflexivity|discriminate].
Qed.

Lemma step_sticky_shared :
  step sticky "x" (Some 2) 0 sticky_heap = Return (4, 1) sticky_heap_shared.
Proof. vm_compute. reflexivity. Qed.

Lemma table_valid_fresh : table_valid fresh_heap 0.
Proof. exists []. split; [reflexivity|]. intros s r [=]. Qed.

Lemma sticky_hmm_reached to :
  In to (dkeys sticky_hmm) -> (0 <? favours_B to "x")%float = true ->
  exists f p, edge sticky_hmm f to p.
Proof.
  intros [<-|[<-|[]]] _.
  - exists "A", 0.75%float, [("A", 0.75%float); ("B", 0.25%float)].
    split; [reflexivity|now left].
  - exists "A", 0.25%float, [("A", 0.75%float); ("B", 0.25%float)].
    split; [reflexivity|right; now left].
Qed.

Lemma source_hmm_A_unreached f p : ~ edge source_hmm f "A" p.
Proof.
  intros (edges & Hf & Hin). unfold source_hmm in Hf. cbn [dget] in Hf.
  destruct (String.eqb "A" f).
  - injection Hf as <-. destruct Hin as [[=]|[]].
  - destruct (String.eqb "B" f); [|discriminate].
    injection Hf as <-. destruct Hin as [[=]|[]].
Qed.

Lemma init_fan_in :
  __init__ fan_in_hmm always_1 None default_constraint_length
    (Some (fun _ => ["A"; "B"; "C"])) default_smallV empty_heap =
  Return fan_in
    (Heap [[("A", (1 / 3)%float); ("B", (1 / 3)%float); ("C", (1 / 3)%float)]] [] []).
Proof. vm_compute. reflexivity. Qed.

Lemma fan_in_scores_numbers y :
  In y [(0.25%float, "A"); (0.5%float, "B"); (0.5%float, "C")] ->
  is_nan (fst y) = false.
Proof. intros [<-|[<-|[<-|[]]]]; reflexivity. Qed.

(** ** Comprehensions and dictionaries, continued *)

Lemma subscript_Some {A} (d : dict A) k v : dget d k = Some v -> subscript d k = Ok v.
Proof. unfold subscript. now intros ->. Qed.

Lemma comprehension_Ok {A B} (f : A -> result (option B)) l :
  (forall x, In x l -> exists o, f x = Ok o) ->
  exists r, comprehension f l = Ok r.
Proof.
  induction l as [|x l IH]; intros H; simpl; [now exists []|].
  destruct (H x (or_introl eq_refl)) as [o ->]. simpl.
  destruct IH as [ys ->]; [intros y Hy; apply H; now right|]. simpl. eauto.
Qed.

Lemma comprehension_Err {A B} (f : A -> result (option B)) l e :
  comprehension f l = Err e -> exists x, In x l /\ f x = Err e.
Proof.
  induction l as [|x l IH]; simpl; [discriminate|].
  destruct (f x) as [o|e'] eqn:Hfx; simpl.
  - destruct (comprehension f l) as [ys|e'']; simpl; [discriminate|].
    intros [= <-]. destruct IH as (y & Hy & Hfy); [reflexivity|]. eauto.
  - intros [= <-]. eauto.
Qed.

Lemma dset_fresh {A} (d : dict A) k v :
  dget d k = None -> dset d k v = d ++ [(k, v)].
Proof.
  induction d as [|[k' v'] d IH]; simpl; [reflexivity|].
  destruct (String.eqb_spec k' k); [discriminate|].
  intros H. now rewrite IH.
Qed.

Lemma dget_None_keys {A} (d : dict A) k : dget d k = None <-> ~ In k (dkeys d).
Proof.
  split.
  - intros H Hin. destruct (dget_keys d k Hin). congruence.
  - intros H. destruct (dget d k) eqn:Hd; [|reflexivity].
    destruct H. eauto using dget_Some_keys.
Qed.

Lemma fold_dset_fresh {A} (l d0 : dict A) :
  NoDup (dkeys (d0 ++ l)) ->
  fold_left (fun d kv => dset d (fst kv) (snd kv)) l d0 = d0 ++ l.
Proof.
  revert d0. induction l as [|[k v] l IH]; intros d0 Hnd; simpl.
  - now rewrite app_nil_r.
  - rewrite dset_fresh.
    + rewrite IH; rewrite <- app_assoc; [reflexivity|exact Hnd].
    + apply dget_None_keys. intros Hin. unfold dkeys in Hnd.
      rewrite map_app in Hnd. simpl in Hnd.
      apply NoDup_app in Hnd as (_ & Hdisj & _).
      apply (Hdisj k); [now apply list_elem_of_In|left].
Qed.

Lemma dict_of_pairs_id {A} (l : dict A) : dict_wf l -> dict_of_pairs l = l.
Proof. intros H. unfold dict_of_pairs. now rewrite fold_dset_fresh. Qed.

Lemma dkeys_dset {A} (d : dict A) k v :
  dkeys (dset d k v) = if dmem d k then dkeys d else dkeys d ++ [k].
Proof.
  unfold dmem. induction d as [|[k' v'] d IH]; simpl; [reflexivity|].
  destruct (String.eqb_spec k' k) as [->|Hne]; simpl; [reflexivity|].
  rewrite IH. now destruct (dget d k).
Qed.

Lemma dict_wf_dset {A} (d : dict A) k v : dict_wf d -> dict_wf (dset d k v).
Proof.
  unfold dict_wf. rewrite dkeys_dset. destruct (dmem d k) eqn:Hk; [trivial|].
  intros Hnd. apply NoDup_app. split; [exact Hnd|].
  split; [|apply NoDup_singleton].
  intros x Hx Hin. apply list_elem_of_In in Hin as [<-|[]].
  apply list_elem_of_In, dmem_keys in Hx. congruence.
Qed.

(** ** The best predecessor (lines 53-70) *)

Lemma max_item0_split (x : float * state) l :
  exists pre post,
    x :: l = pre ++ max_item0 x l :: post /\
    (forall y, In y post -> (fst (max_item0 x l) <? fst y)%float = false) /\
    (pre = [] \/ exists b, In b pre /\ (fst b <? fst (max_item0 x l))%float = true).
Proof.
  unfold max_item0. revert x. induction l as [|y l IH]; intros x; simpl.
  - exists [], []. repeat split; [contradiction|now left].
  - destruct (fst x <? fst y)%float eqn:Hxy.
    + destruct (IH y) as (pre & post & Heq & Hpost & Hpre).
      exists (x :: pre), post. split; [simpl; now rewrite Heq|].
      split; [exact Hpost|]. right.
      destruct Hpre as [->|(b & Hb & Hlt)].
      * simpl in Heq. injection Heq as Heq _. exists x. split; [now left|].
        now rewrite <- Heq.
      * exists b. split; [now right|exact Hlt].
    + destruct (IH x) as (pre & post & Heq & Hpost & Hpre).
      destruct pre as [|x' pre].
      * simpl in Heq. injection Heq as Heq Hl. exists [], (y :: post).
        split; [simpl; now rewrite <- Heq, Hl|]. split; [|now left].
        intros z [<-|Hz]; [now rewrite <- Heq|now apply Hpost].
      * simpl in Heq. injection Heq as <- Hl. exists (x :: y :: pre), post.
        split; [simpl; do 2 f_equal; exact Hl|]. split; [exact Hpost|]. right.
        destruct Hpre as [|(b & Hb & Hlt)]; [discriminate|].
        exists b. split; [|exact Hlt]. destruct Hb as [<-|Hb]; [now left|].
        right. now right.
Qed.

Lemma nonzero_incoming_In inc V preds from_state p :
  nonzero_incoming inc V = Ok preds -> In (from_state, p) preds ->
  dget inc from_state = Some p /\ exists v, dget V from_state = Some v.
Proof.
  unfold nonzero_incoming, incoming_driven, distribution_driven.
  destruct (_ <? _)%nat; intros Hpreds Hin.
  - apply (comprehension_In _ _ _ _ Hpreds) in Hin as (k & Hk & Hf).
    unfold dmem, subscript in Hf.
    destruct (dget V k) as [v|] eqn:HV; [|discriminate]. simpl in Hf.
    destruct (0 <? v)%float; [|discriminate].
    destruct (dget inc k) as [q|] eqn:Hinc; [|discriminate].
    simpl in Hf. injection Hf as <- <-. eauto.
  - apply (comprehension_In _ _ _ _ Hpreds) in Hin as (k & Hk & Hf).
    unfold dmem, subscript in Hf.
    destruct (dget inc k) as [q|] eqn:Hinc; [|discriminate].
    simpl in Hf. injection Hf as <- <-.
    split; [exact Hinc|]. now apply dget_keys.
Qed.

Lemma from_probs_In V e preds scored mp mf :
  from_probs V e preds = Ok scored -> In (mp, mf) scored ->
  exists p v, In (mf, p) preds /\ dget V mf = Some v /\ mp = (v * e * p)%float.
Proof.
  unfold from_probs. intros Hscored Hin.
  apply (comprehension_In _ _ _ _ Hscored) in Hin as ([k p] & Hk & Hf).
  unfold subscript in Hf. simpl in Hf.
  destruct (dget V k) as [v|] eqn:HV; [|discriminate].
  simpl in Hf. injection Hf as <- <-. eauto.
Qed.

(** X1: the best predecessor that line 70 selects for [to_state] is a state
    of the distribution that has an edge to [to_state], and the score
    recorded with it is the product of its mass, of the emission
    probability and of the probability of that edge, in this order. *)
Theorem best_from_is_predecessor self V to_state e max_prob max_from :
  best_from self V to_state e = Ok (Some (max_prob, max_from)) ->
  exists inc p v,
    dget (incoming self) to_state = Some inc /\
    dget inc max_from = Some p /\ dget V max_from = Some v /\
    max_prob = (v * e * p)%float.
Proof.
  unfold best_from, subscript.
  destruct (dget (incoming self) to_state) as [inc|]; [|discriminate]. simpl.
  destruct (nonzero_incoming inc V) as [preds|] eqn:Hpreds; [|discriminate]. simpl.
  destruct (from_probs V e preds) as [scored|] eqn:Hscored; [|discriminate]. simpl.
  destruct scored as [|x l]; [discriminate|]. intros [= Hmax].
  destruct (max_item0_split x l) as (pre & post & Heq & _).
  assert (Hin : In (max_prob, max_from) (x :: l)).
  { rewrite Heq, Hmax. apply in_or_app. right. now left. }
  destruct (from_probs_In V e preds _ _ _ Hscored Hin) as (p & v & Hp & Hv & ->).
  destruct (nonzero_incoming_In inc V preds _ _ Hpreds Hp) as [Hinc _].
  exists inc, p, v. auto.
Qed.

Lemma best_from_is_predecessor_witness :
  best_from sticky [("A", 0.125%float); ("B", 0.875%float)] "A" 0.25
    = Ok (Some (0.0546875%float, "B")) /\
  exists inc p v,
    dget (incoming sticky) "A" = Some inc /\ dget inc "B" = Some p /\
    dget [("A", 0.125%float); ("B", 0.875%float)] "B" = Some v /\
    0.0546875%float = (v * 0.25 * p)%float.
Proof.
  assert (H : best_from sticky [("A", 0.125%float); ("B", 0.875%float)] "A" 0.25
              = Ok (Some (0.0546875%float, "B"))) by (vm_compute; reflexivity).
  split; [exact H|].
  exact (best_from_is_predecessor sticky _ "A" 0.25 0.0546875 "B" H).
Defined.

(** The order of the floats that are numbers: [<] is transitive, and a
    number that another one does not exceed is below whatever exceeds that
    one. *)
Lemma SFltb_trans a b c :
  SpecFloat.SFltb a b = true -> SpecFloat.SFltb b c = true ->
  SpecFloat.SFltb a c = true.
Proof.
  unfold SpecFloat.SFltb.
  destruct a as [sa|sa| |sa ma ea], b as [sb|sb| |sb mb eb], c as [sc|sc| |sc mc ec];
    simpl; try discriminate; try reflexivity;
    try destruct sa; try destruct sb; try destruct sc; simpl;
    try discriminate; try reflexivity.
  all: destruct (Z.compare_spec ea eb), (Z.compare_spec eb ec), (Z.compare_spec ea ec);
    try lia; subst; try discriminate; try reflexivity.
  all: change (Pos.compare_cont Eq) with Pos.compare.
  all: destruct (Pos.compare_spec ma mb), (Pos.compare_spec mb mc),
         (Pos.compare_spec ma mc);
    simpl; try lia; try discriminate; try reflexivity.
Qed.

Lemma SFltb_le_trans a b c :
  a <> SpecFloat.S754_nan ->
  SpecFloat.SFltb b a = false -> SpecFloat.SFltb b c = true ->
  SpecFloat.SFltb a c = true.
Proof.
  unfold SpecFloat.SFltb.
  destruct a as [sa|sa| |sa ma ea], b as [sb|sb| |sb mb eb], c as [sc|sc| |sc mc ec];
    simpl; try discriminate; try reflexivity; try congruence;
    try destruct sa; try destruct sb; try destruct sc; simpl;
    try discriminate; try reflexivity; try congruence.
  all: intros _.
  all: destruct (Z.compare_spec eb ea), (Z.compare_spec eb ec), (Z.compare_spec ea ec);
    try lia; subst; try discriminate; try reflexivity.
  all: change (Pos.compare_cont Eq) with Pos.compare.
  all: destruct (Pos.compare_spec mb ma), (Pos.compare_spec mb mc),
         (Pos.compare_spec ma mc);
    simpl; try lia; try discriminate; try reflexivity.
Qed.

Lemma ltb_trans (a b c : float) :
  (a <? b)%float = true -> (b <? c)%float = true -> (a <? c)%float = true.
Proof. rewrite !FloatAxioms.ltb_spec. apply SFltb_trans. Qed.

Lemma ltb_le_trans (a b c : float) :
  is_nan a = false -> (b <? a)%float = false -> (b <? c)%float = true ->
  (a <? c)%float = true.
Proof.
  rewrite !FloatAxioms.ltb_spec. intros Ha. apply SFltb_le_trans.
  unfold is_nan in Ha. rewrite FloatAxioms.eqb_spec in Ha.
  intros Hn. rewrite Hn in Ha. discriminate.
Qed.

(** [max] with a key, on scores that are numbers: the result is the first
    element of the greatest score. *)
Lemma max_item0_run (l : list (float * state)) : forall pre0 b post0,
  (forall y, In y (pre0 ++ b :: post0 ++ l) -> is_nan (fst y) = false) ->
  (forall c, In c pre0 -> (fst c <? fst b)%float = true) ->
  (forall c, In c post0 -> (fst b <? fst c)%float = false) ->
  exists pre post,
    pre0 ++ b :: post0 ++ l = pre ++ max_item0 b l :: post /\
    (forall c, In c pre -> (fst c <? fst (max_item0 b l))%float = true) /\
    (forall c, In c post -> (fst (max_item0 b l) <? fst c)%float = false).
Proof.
  unfold max_item0. induction l as [|y l IH]; intros pre0 b post0 Hnan Hpre Hpost.
  - exists pre0, post0. simpl. now rewrite app_nil_r.
  - simpl. destruct (fst b <? fst y)%float eqn:Hby.
    + destruct (IH (pre0 ++ b :: post0) y []) as (pre & post & Heq & H1 & H2).
      * intros z Hz. apply Hnan. rewrite <- app_assoc in Hz. exact Hz.
      * intros c Hc. apply in_app_iff in Hc. destruct Hc as [Hc|[<-|Hc]].
        -- apply (ltb_trans _ (fst b)); [now apply Hpre|exact Hby].
        -- exact Hby.
        -- apply (ltb_le_trans _ (fst b)); [|now apply Hpost|exact Hby].
           apply Hnan. apply in_app_iff. right. right. apply in_app_iff. now left.
      * intros c [].
      * exists pre, post. split; [|auto]. rewrite <- Heq, <- app_assoc. reflexivity.
    + destruct (IH pre0 b (post0 ++ [y])) as (pre & post & Heq & H1 & H2).
      * intros z Hz. apply Hnan. rewrite <- app_assoc in Hz. exact Hz.
      * exact Hpre.
      * intros c Hc. apply in_app_iff in Hc. destruct Hc as [Hc|[<-|[]]];
          [now apply Hpost|exact Hby].
      * exists pre, post. split; [|auto]. rewrite <- Heq, <- app_assoc. reflexivity.
Qed.

(** X2: [max(from_probs, key=itemgetter(0))] returns the first predecessor
    of the greatest score.  When no score is a NaN, every predecessor that
    lines 53-68 list before the selected one has a strictly smaller score,
    and no predecessor listed after it has a greater one: of two
    predecessors with the greatest score, the one listed first is
    selected. *)
Theorem best_from_first_maximum self V to_state e inc preds scored best :
  dget (incoming self) to_state = Some inc ->
  nonzero_incoming inc V = Ok preds ->
  from_probs V e preds = Ok scored ->
  best_from self V to_state e = Ok (Some best) ->
  (forall y, In y scored -> is_nan (fst y) = false) ->
  exists pre post,
    scored = pre ++ best :: post /\
    (forall b, In b pre -> (fst b <? fst best)%float = true) /\
    (forall y, In y post -> (fst best <? fst y)%float = false).
Proof.
  intros Hinc Hpreds Hscored Hbest Hnan. unfold best_from, subscript in Hbest.
  rewrite Hinc in Hbest. simpl in Hbest. rewrite Hpreds in Hbest. simpl in Hbest.
  rewrite Hscored in Hbest. simpl in Hbest.
  destruct scored as [|x l]; [discriminate|]. injection Hbest as <-.
  destruct (max_item0_run l [] x []) as (pre & post & Heq & Hpre & Hpost).
  - exact Hnan.
  - intros c [].
  - intros c [].
  - exists pre, post. auto.
Qed.

Lemma best_from_first_maximum_witness :
  dget (incoming fan_in) "A"
    = Some [("A", 0.25%float); ("B", 0.5%float); ("C", 0.5%float)] /\
  nonzero_incoming [("A", 0.25%float); ("B", 0.5%float); ("C", 0.5%float)] level
    = Ok [("A", 0.25%float); ("B", 0.5%float); ("C", 0.5%float)] /\
  from_probs level 1 [("A", 0.25%float); ("B", 0.5%float); ("C", 0.5%float)]
    = Ok [(0.25%float, "A"); (0.5%float, "B"); (0.5%float, "C")] /\
  best_from fan_in level "A" 1 = Ok (Some (0.5%float, "B")) /\
  (forall y, In y [(0.25%float, "A"); (0.5%float, "B"); (0.5%float, "C")] ->
     is_nan (fst y) = false) /\
  exists pre post,
    [(0.25%float, "A"); (0.5%float, "B"); (0.5%float, "C")]
      = pre ++ (0.5%float, "B") :: post /\
    (forall b, In b pre -> (fst b <? 0.5)%float = true) /\
    (forall y, In y post -> (0.5 <? fst y)%float = false).
Proof.
  assert (Hbest : best_from fan_in level "A" 1 = Ok (Some (0.5%float, "B")))
    by (vm_compute; reflexivity).
  split; [reflexivity|]. split; [reflexivity|]. split; [reflexivity|].
  split; [exact Hbest|]. split; [exact fan_in_scores_numbers|].
  exact (best_from_first_maximum fan_in level "A" 1 _ _ _ (0.5%float, "B")
           eq_refl eq_refl eq_refl Hbest fan_in_scores_numbers).
Defined.

Lemma comprehension_nil {A B} (f : A -> result (option B)) l x :
  comprehension f l = Ok [] -> In x l -> f x = Ok None.
Proof.
  induction l as [|y l IH]; simpl; [contradiction|].
  destruct (f y) as [[b|]|ex] eqn:Hy; simpl; try discriminate.
  - destruct (comprehension f l); discriminate.
  - intros H [<-|Hin]; [exact Hy|]. apply IH; [|exact Hin].
    destruct (comprehension f l); [exact H|discriminate].
Qed.

(** X3: a candidate gets no score only if no state with a positive mass has
    an edge to it: when [best_from] finds no predecessor, a state [f] that
    is both in [incoming[to_state]] and in [V] has a mass that is not
    positive, and [incoming[to_state]] is shorter than [V] (with the other
    strategy, lines 59-60, [f] would have qualified). *)
Theorem best_from_None self V to_state e inc f (p v : float) :
  best_from self V to_state e = Ok None ->
  dget (incoming self) to_state = Some inc ->
  dget inc f = Some p -> dget V f = Some v ->
  (0 <? v)%float = false /\ length inc < length V.
Proof.
  intros Hbest Hinc Hp Hv. unfold best_from in Hbest.
  rewrite (subscript_Some _ _ _ Hinc) in Hbest. simpl in Hbest.
  destruct (nonzero_incoming inc V) as [preds|] eqn:Hpreds; [|discriminate].
  simpl in Hbest.
  destruct (from_probs V e preds) as [scored|] eqn:Hscored; [|discriminate].
  simpl in Hbest. destruct scored as [|x l]; [|discriminate].
  assert (preds = []) as ->.
  { destruct preds as [|[g q] preds]; [reflexivity|]. exfalso.
    pose proof (comprehension_nil _ _ (g, q) Hscored (or_introl eq_refl)) as H.
    simpl in H. destruct (subscript V g); discriminate. }
  unfold nonzero_incoming in Hpreds.
  destruct (Nat.ltb_spec (length inc) (length V)) as [Hlt|Hge].
  - split; [|exact Hlt].
    pose proof (comprehension_nil _ _ f Hpreds (dget_Some_keys _ _ _ Hp)) as H.
    simpl in H. rewrite (proj2 (dmem_true V f)) in H by eauto.
    rewrite (subscript_Some _ _ _ Hv) in H. simpl in H.
    destruct (0 <? v)%float; [|reflexivity].
    rewrite (subscript_Some _ _ _ Hp) in H. discriminate.
  - exfalso.
    pose proof (comprehension_nil _ _ f Hpreds (dget_Some_keys _ _ _ Hv)) as H.
    simpl in H. rewrite (proj2 (dmem_true inc f)) in H by eauto.
    rewrite (subscript_Some _ _ _ Hp) in H. discriminate.
Qed.

Lemma best_from_None_witness :
  best_from chain mass_on_A' "C" 1 = Ok None /\
  dget (incoming chain) "C" = Some into_C /\
  dget into_C "B" = Some 0.5%float /\ dget mass_on_A' "B" = Some 0%float /\
  ((0 <? 0)%float = false /\ length into_C < length mass_on_A').
Proof.
  assert (H : best_from chain mass_on_A' "C" 1 = Ok None) by (vm_compute; reflexivity).
  split; [exact H|]. split; [reflexivity|]. split; [reflexivity|].
  split; [reflexivity|].
  exact (best_from_None chain mass_on_A' "C" 1 into_C "B" 0.5 0 H
           eq_refl eq_refl eq_refl).
Defined.

(** ** [normalize] (lines 87-94) *)

Lemma dkeys_scaled total (d : dict float) : dkeys (scaled total d) = dkeys d.
Proof. unfold dkeys, scaled. rewrite map_map. now apply map_ext. Qed.

Lemma scaled_comprehension total (d l : dict float) :
  (forall kv, In kv l -> dget d (fst kv) = Some (snd kv)) ->
  (total =? 0)%float = false ->
  comprehension (fun state =>
      rbind (subscript d state) (fun v =>
      rbind (truediv v total) (fun q => Ok (Some (state, q)))))
    (dkeys l)
  = Ok (scaled total l).
Proof.
  intros Hd Hz. induction l as [|[k v] l IH]; simpl; [reflexivity|].
  pose proof (Hd (k, v) (or_introl eq_refl)) as Hk. simpl in Hk.
  unfold subscript at 1. rewrite Hk. simpl. unfold truediv at 1. rewrite Hz. simpl.
  rewrite IH by (intros kv Hkv; apply Hd; now right). reflexivity.
Qed.

Lemma normalize_run self V h (d p : dict float) :
  dists h !! V = Some d -> dict_wf d -> dists h !! priors self = Some p ->
  normalize self V h =
  Return (length (dists h))
    (Heap (dists h ++ [if (sum (dvalues d) =? 0)%float then p
                       else scaled (sum (dvalues d)) d])
          (tables h) (lists h)).
Proof.
  intros Hd Hwf Hp. unfold normalize.
  unfold bind at 1, get_dist at 1. rewrite Hd.
  destruct (sum (dvalues d) =? 0)%float eqn:Hz.
  - unfold bind, get_dist. now rewrite Hp.
  - unfold bind, lift.
    rewrite (scaled_comprehension _ d d) by
      (trivial; intros [k v]; now apply dget_In_wf).
    unfold new_dist. rewrite dict_of_pairs_id; [reflexivity|].
    unfold dict_wf. now rewrite dkeys_scaled.
Qed.

(** X4: on a distribution object and with priors that are there,
    [normalize] never raises and writes no object: it allocates one
    distribution, which holds the priors when the masses sum to zero and
    otherwise the same states in the same order, each mass divided by the
    sum. *)
Theorem normalize_returns self V h (d p : dict float) :
  dists h !! V = Some d -> dict_wf d -> dists h !! priors self = Some p ->
  normalize self V h =
  Return (length (dists h))
    (Heap (dists h ++ [if (sum (dvalues d) =? 0)%float then p
                       else scaled (sum (dvalues d)) d])
          (tables h) (lists h)).
Proof. exact (normalize_run self V h d p). Qed.

Lemma normalize_returns_witness :
  dists sticky_heap !! 2 = Some [("A", 0.125%float); ("B", 0.875%float)] /\
  dict_wf [("A", 0.125%float); ("B", 0.875%float)] /\
  dists sticky_heap !! priors sticky = Some [("A", 0.5%float); ("B", 0.5%float)] /\
  normalize sticky 2 sticky_heap =
  Return (length (dists sticky_heap))
    (Heap (dists sticky_heap ++
             [if (sum (dvalues [("A", 0.125%float); ("B", 0.875%float)]) =? 0)%float
              then [("A", 0.5%float); ("B", 0.5%float)]
              else scaled (sum (dvalues [("A", 0.125%float); ("B", 0.875%float)]))
                     [("A", 0.125%float); ("B", 0.875%float)]])
          (tables sticky_heap) (lists sticky_heap)).
Proof.
  split; [reflexivity|]. split; [exact dict_wf_eighths|]. split; [reflexivity|].
  exact (normalize_returns sticky 2 sticky_heap _ _ eq_refl dict_wf_eighths eq_refl).
Defined.

(** ** [__init__]: the reverse index (lines 29-34) *)

Lemma dset_not_nil {A} (d : dict A) k v : dset d k v <> [].
Proof. destruct d as [|[k' v'] d]; simpl; [|destruct (String.eqb k' k)]; discriminate. Qed.

Lemma inverted_nil from_state inc : inverted from_state [] inc inc.
Proof.
  repeat split; eauto. now intros to p [].
Qed.

Lemma inverted_cons from_state e edges inc inc1 inc2 :
  inverted from_state [e] inc inc1 -> inverted from_state edges inc1 inc2 ->
  inverted from_state (e :: edges) inc inc2.
Proof.
  intros (S1 & M1 & C1 & N1) (S2 & M2 & C2 & N2). repeat split.
  - intros to f q H. destruct (S2 to f q H) as [H1|[-> Hin]].
    + destruct (S1 to f q H1) as [H0|[-> [Hin|[]]]]; [now left|right].
      split; [reflexivity|now left].
    + right. split; [reflexivity|now right].
  - intros to f q H. destruct (M1 to f q H) as [q1 H1]. eauto.
  - intros to p [->|Hin].
    + destruct (C1 to p (or_introl eq_refl)) as [q1 H1]. eauto.
    + eauto.
  - intros H. apply N2, N1, H.
Qed.

Lemma add_incoming_inverted from_state inc to_state p h :
  post (add_incoming from_state inc (to_state, p)) h
    (fun inc' h' => h' = h /\ inverted from_state [(to_state, p)] inc inc')
    (fun _ _ => False).
Proof.
  unfold add_incoming.
  set (inc1 := if dmem inc to_state then inc else dset inc to_state []).
  assert (Hother : forall t, to_state <> t -> dget inc1 t = dget inc t).
  { intros t Ht. unfold inc1. destruct (dmem inc to_state); [reflexivity|].
    now apply dget_dset_ne. }
  mstep. mstep.
  2:{ unfold subscript, inc1 in H. destruct (dmem inc to_state) eqn:Hmem.
      - destruct (proj1 (dmem_true _ _) Hmem) as [v Hv]. now rewrite Hv in H.
      - now rewrite dget_dset_eq in H. }
  rename a into inner, H into Hinner. apply subscript_Ok in Hinner.
  mstep. split; [reflexivity|].
  assert (Hold : forall f q, dget inner f = Some q -> entry inc to_state f q).
  { intros f q Hq. unfold inc1 in Hinner. destruct (dmem inc to_state).
    - now exists inner.
    - rewrite dget_dset_eq in Hinner. injection Hinner as <-. discriminate. }
  repeat split.
  - intros t f q (inner' & Ht & Hq).
    destruct (String.eqb_spec to_state t) as [<-|Hne].
    + rewrite dget_dset_eq in Ht. injection Ht as <-.
      destruct (String.eqb_spec from_state f) as [<-|Hf].
      * rewrite dget_dset_eq in Hq. injection Hq as <-. right.
        split; [reflexivity|now left].
      * rewrite dget_dset_ne in Hq by exact Hf. left. now apply Hold.
    + rewrite dget_dset_ne, Hother in Ht by exact Hne. left. now exists inner'.
  - intros t f q (inner0 & Ht & Hq).
    destruct (String.eqb_spec to_state t) as [<-|Hne].
    + assert (inner = inner0) as <-.
      { unfold inc1 in Hinner. unfold dmem in Hinner. rewrite Ht in Hinner.
        congruence. }
      destruct (String.eqb_spec from_state f) as [<-|Hf].
      * exists p, (dset inner from_state p). now rewrite !dget_dset_eq.
      * exists q, (dset inner from_state p).
        rewrite dget_dset_eq, dget_dset_ne by exact Hf. auto.
    + exists q, inner0. rewrite dget_dset_ne, Hother by exact Hne. auto.
  - intros t q [[= <- <-]|[]]. exists p, (dset inner from_state p).
    now rewrite !dget_dset_eq.
  - intros Hne t inner' Ht. destruct (String.eqb_spec to_state t) as [<-|Hto].
    + rewrite dget_dset_eq in Ht. injection Ht as <-. apply dset_not_nil.
    + rewrite dget_dset_ne, Hother in Ht by exact Hto. eauto.
Qed.

Lemma edges_inverted from_state edges : forall inc h,
  post (for_acc edges inc (add_incoming from_state)) h
    (fun inc' h' => h' = h /\ inverted from_state edges inc inc')
    (fun _ _ => False).
Proof.
  induction edges as [|[to_state p] edges IH]; intros inc h; simpl.
  - split; [reflexivity|apply inverted_nil].
  - mstep. eapply post_weaken; [apply add_incoming_inverted| |trivial].
    intros inc1 h1 [-> H1].
    eapply post_weaken; [apply IH| |trivial].
    intros inc2 h2 [-> H2]. split; [reflexivity|].
    now apply (inverted_cons _ _ _ _ inc1).
Qed.

Lemma inverted_all_nil hmm inc : inverted_all hmm [] inc inc.
Proof.
  repeat split; eauto. now intros f to p [].
Qed.

Lemma inverted_all_cons hmm f edges froms inc inc1 inc2 :
  dget hmm f = Some edges ->
  inverted f edges inc inc1 -> inverted_all hmm froms inc1 inc2 ->
  inverted_all hmm (f :: froms) inc inc2.
Proof.
  intros Hf (S1 & M1 & C1 & N1) (S2 & M2 & C2 & N2). repeat split.
  - intros to g q H. destruct (S2 to g q H) as [H1|[Hin He]].
    + destruct (S1 to g q H1) as [H0|[-> Hin]]; [now left|right].
      split; [now left|now exists edges].
    + right. split; [now right|exact He].
  - intros to g q H. destruct (M1 to g q H) as [q1 H1]. eauto.
  - intros g to p [<-|Hin] He.
    + destruct He as (edges' & Hf' & Hin').
      assert (edges' = edges) as -> by congruence.
      destruct (C1 to p Hin') as [q1 H1]. eauto.
    + eauto.
  - intros H. apply N2, N1, H.
Qed.

Lemma hmm_inverted hmm froms : forall inc h,
  (forall f, In f froms -> In f (dkeys hmm)) ->
  post (for_acc froms inc (fun inc from_state =>
          bind (lift (subscript hmm from_state)) (fun edges =>
          for_acc edges inc (add_incoming from_state)))) h
    (fun inc' h' => h' = h /\ inverted_all hmm froms inc inc')
    (fun _ _ => False).
Proof.
  induction froms as [|f froms IH]; intros inc h Hkeys; simpl.
  - split; [reflexivity|apply inverted_all_nil].
  - mstep. mstep. mstep.
    2:{ destruct (subscript_keys hmm f (Hkeys f (or_introl eq_refl))). congruence. }
    rename a into edges, H into Hf. apply subscript_Ok in Hf.
    eapply post_weaken; [apply edges_inverted| |trivial].
    intros inc1 h1 [-> H1].
    eapply post_weaken; [apply IH; intros g Hg; apply Hkeys; now right| |trivial].
    intros inc2 h2 [-> H2]. split; [reflexivity|].
    now apply (inverted_all_cons hmm f edges froms inc inc1).
Qed.

(** ** [__init__]: the priors (lines 22-27) *)

Lemma uniform_loop (n : nat) r (ks : list state) : forall (d0 : dict float) ds ts ls,
  length ds = r -> NoDup (dkeys d0 ++ ks) -> (n <> 0 \/ ks = []) ->
  for_ ks (fun state =>
    bind (lift (truediv_int 1 n)) (fun q => dist_setitem r state q))
    (Heap (ds ++ [d0]) ts ls) =
  Return tt (Heap (ds ++ [d0 ++ map (fun s => (s, (1 / float_of_nat n)%float)) ks])
                  ts ls).
Proof.
  induction ks as [|k ks IH]; intros d0 ds ts ls Hr Hnd Hn; simpl.
  - now rewrite app_nil_r.
  - destruct Hn as [Hn|[=]].
    assert (Hbody :
      bind (lift (truediv_int 1 n)) (fun q => dist_setitem r k q)
        (Heap (ds ++ [d0]) ts ls) =
      Return tt (Heap (ds ++ [d0 ++ [(k, (1 / float_of_nat n)%float)]]) ts ls)).
    { unfold bind, lift, truediv_int.
      destruct (Nat.eqb_spec n 0) as [->|_]; [now destruct Hn|].
      unfold dist_setitem, bind, get_dist, put_dist. simpl.
      rewrite list_lookup_middle by (symmetry; exact Hr). simpl.
      rewrite list_lookup_middle by (symmetry; exact Hr).
      subst r. rewrite insert_app_r_alt by lia.
      rewrite Nat.sub_diag. simpl. rewrite dset_fresh; [reflexivity|].
      apply dget_None_keys. intros Hin. apply NoDup_app in Hnd.
      destruct Hnd as (_ & Hd & _). apply (Hd k).
      - now apply list_elem_of_In.
      - left. }
    unfold bind at 1. rewrite Hbody.
    rewrite IH; [|exact Hr| |now left].
    + now rewrite <- app_assoc.
    + unfold dkeys in *. rewrite map_app. simpl. now rewrite <- app_assoc.
Qed.

Lemma index_runs (hmm : dict (list (state * float))) h :
  exists inc,
    for_acc (dkeys hmm) [] (fun inc from_state =>
      bind (lift (subscript hmm from_state)) (fun edges =>
      for_acc edges inc (add_incoming from_state))) h = Return inc h /\
    inverted_all hmm (dkeys hmm) [] inc.
Proof.
  pose proof (hmm_inverted hmm (dkeys hmm) [] h (fun f H => H)) as H.
  unfold post in H.
  destruct (for_acc _ _ _ h) as [inc h'|]; [|contradiction].
  destruct H as [-> H]. now exists inc.
Qed.

Lemma length_dkeys {A} (d : dict A) : length (dkeys d) = length d.
Proof. apply length_map. Qed.

Lemma bind_Return {A B} (m : M A) (f : A -> M B) h a h' :
  m h = Return a h' -> bind m f h = f a h'.
Proof. intros H. unfold bind. now rewrite H. Qed.

Lemma init_default hmm ep priors L cs floor h :
  dict_wf hmm ->
  priors = None \/ (exists p, priors = Some p /\ dists h !! p = Some []) ->
  exists inc,
    __init__ hmm ep priors L cs floor h =
    Return (Self hmm ep L (match cs with Some f => f | None => fun _ => dkeys hmm end)
                 (length (dists h)) inc floor)
           (Heap (dists h ++ [uniform hmm]) (tables h) (lists h)) /\
    inverted_all hmm (dkeys hmm) [] inc.
Proof.
  intros Hwf Hp.
  destruct (index_runs hmm (Heap (dists h ++ [uniform hmm]) (tables h) (lists h)))
    as (inc & Hinc & Hinv).
  exists inc. split; [|exact Hinv].
  assert (Hloop :
    bind (new_dist []) (fun p =>
      bind (for_ (dkeys hmm) (fun state =>
              bind (lift (truediv_int 1 (length hmm)))
                   (fun q => dist_setitem p state q)))
           (fun _ => ret p)) h =
    Return (length (dists h))
           (Heap (dists h ++ [uniform hmm]) (tables h) (lists h))).
  { erewrite bind_Return by reflexivity.
    erewrite bind_Return; [reflexivity|].
    apply (uniform_loop (length hmm) (length (dists h)) (dkeys hmm) []);
      [reflexivity|exact Hwf|].
    destruct hmm; [now right|now left]. }
  unfold __init__.
  destruct Hp as [->|(p & -> & Hp)].
  - erewrite bind_Return by reflexivity.
    erewrite bind_Return by exact Hloop.
    erewrite bind_Return by exact Hinc. reflexivity.
  - erewrite (bind_Return (truth (Some p)) _ h false h).
    2:{ unfold truth. rewrite (bind_Return _ _ h [] h); [reflexivity|].
        unfold get_dist. now rewrite Hp. }
    erewrite bind_Return by exact Hloop.
    erewrite bind_Return by exact Hinc. reflexivity.
Qed.

Lemma init_given hmm ep p L cs floor h (d : dict float) :
  dists h !! p = Some d -> d <> [] ->
  exists inc,
    __init__ hmm ep (Some p) L cs floor h =
    Return (Self hmm ep L (match cs with Some f => f | None => fun _ => dkeys hmm end)
                 p inc floor) h /\
    inverted_all hmm (dkeys hmm) [] inc.
Proof.
  intros Hp Hd.
  destruct (index_runs hmm h) as (inc & Hinc & Hinv).
  exists inc. split; [|exact Hinv].
  unfold __init__.
  erewrite (bind_Return (truth (Some p)) _ h true h).
  2:{ unfold truth. rewrite (bind_Return _ _ h d h).
      - destruct d; [now destruct Hd|reflexivity].
      - unfold get_dist. now rewrite Hp. }
  erewrite bind_Return by reflexivity.
  erewrite bind_Return by exact Hinc. reflexivity.
Qed.

Lemma inverted_all_index hmm inc :
  inverted_all hmm (dkeys hmm) [] inc ->
  (forall to f q, entry inc to f q -> edge hmm f to q) /\
  (forall f to p, edge hmm f to p -> exists q, entry inc to f q) /\
  (forall to inner, dget inc to = Some inner -> inner <> []).
Proof.
  intros (Hs & _ & Hc & Hn). repeat split.
  - intros to f q H. destruct (Hs to f q H) as [(inner & [=] & _)|[_ He]].
    exact He.
  - intros f to p He. apply (Hc f to p); [|exact He].
    destruct He as (edges & Hf & _). now apply (dget_Some_keys hmm f edges).
  - apply Hn. intros to inner [=].
Qed.

Lemma init_index hmm ep priors L cs floor h :
  dict_wf hmm ->
  (forall p, priors = Some p -> is_Some (dists h !! p)) ->
  exists self h',
    __init__ hmm ep priors L cs floor h = Return self h' /\
    inverted_all hmm (dkeys hmm) [] (incoming self).
Proof.
  intros Hwf Hp. destruct priors as [p|].
  - destruct (Hp p eq_refl) as [[|kv d] Hd].
    + destruct (init_default hmm ep (Some p) L cs floor h Hwf) as (inc & Hrun & Hinv).
      { right. now exists p. }
      eexists _, _. split; [exact Hrun|exact Hinv].
    + destruct (init_given hmm ep p L cs floor h (kv :: d) Hd) as (inc & Hrun & Hinv);
        [discriminate|].
      eexists _, _. split; [exact Hrun|exact Hinv].
  - destruct (init_default hmm ep None L cs floor h Hwf) as (inc & Hrun & Hinv);
      [now left|].
    eexists _, _. split; [exact Hrun|exact Hinv].
Qed.

(** X5: without priors, or with an empty dict as priors, the constructor
    allocates one new distribution and writes nothing else: it gives every
    state of the graph, in the order of the graph, the mass
    [1.0 / len(hmm)]; for a graph without states it is empty, and no
    division takes place. *)
Theorem init_uniform_priors hmm ep priors L cs floor h :
  dict_wf hmm ->
  priors = None \/ (exists p, priors = Some p /\ dists h !! p = Some []) ->
  exists self,
    __init__ hmm ep priors L cs floor h =
    Return self (Heap (dists h ++ [uniform hmm]) (tables h) (lists h)) /\
    Viterbi.priors self = length (dists h).
Proof.
  intros Hwf Hp.
  destruct (init_default hmm ep priors L cs floor h Hwf Hp) as (inc & Hrun & _).
  eexists. split; [exact Hrun|reflexivity].
Qed.

Lemma init_uniform_priors_witness :
  dict_wf sticky_hmm /\
  (@None loc = None \/
   exists p, @None loc = Some p /\ dists empty_heap !! p = Some []) /\
  exists self,
    __init__ sticky_hmm favours_B None 2 None default_smallV empty_heap =
    Return self (Heap (dists empty_heap ++ [uniform sticky_hmm])
                      (tables empty_heap) (lists empty_heap)) /\
    Viterbi.priors self = length (dists empty_heap).
Proof.
  split; [exact dict_wf_sticky_hmm|]. split; [now left|].
  exact (init_uniform_priors sticky_hmm favours_B None 2 None default_smallV
           empty_heap dict_wf_sticky_hmm (or_introl eq_refl)).
Defined.

(** X6: priors that are given and not empty are not copied: the decoder
    refers to the caller's own dict, and the constructor leaves the store
    as it was. *)
Theorem init_shares_given_priors hmm ep p L cs floor h (d : dict float) :
  dists h !! p = Some d -> d <> [] ->
  exists self,
    __init__ hmm ep (Some p) L cs floor h = Return self h /\
    Viterbi.priors self = p.
Proof.
  intros Hp Hd.
  destruct (init_given hmm ep p L cs floor h d Hp Hd) as (inc & Hrun & _).
  eexists. split; [exact Hrun|reflexivity].
Qed.

Lemma init_shares_given_priors_witness :
  dists sticky_heap !! 0 = Some [("A", 0.5%float); ("B", 0.5%float)] /\
  [("A", 0.5%float); ("B", 0.5%float)] <> [] /\
  exists self,
    __init__ sticky_hmm favours_B (Some 0) 2 None default_smallV sticky_heap
      = Return self sticky_heap /\
    Viterbi.priors self = 0.
Proof.
  assert (Hne : [("A", 0.5%float); ("B", 0.5%float)] <> []) by discriminate.
  split; [reflexivity|]. split; [exact Hne|].
  exact (init_shares_given_priors sticky_hmm favours_B 0 2 None default_smallV
           sticky_heap _ eq_refl Hne).
Defined.

(** X7: the reverse index that the constructor builds is the transition
    graph turned round: [incoming[to][from]] is there exactly when the
    graph has an edge from [from] to [to], its value is the probability of
    such an edge, and no [incoming[to]] is empty. *)
Theorem init_reverse_index hmm ep priors L cs floor h :
  dict_wf hmm ->
  (forall p, priors = Some p -> is_Some (dists h !! p)) ->
  exists self h',
    __init__ hmm ep priors L cs floor h = Return self h' /\
    (forall to f q, entry (incoming self) to f q -> edge hmm f to q) /\
    (forall f to p, edge hmm f to p -> exists q, entry (incoming self) to f q) /\
    (forall to inner, dget (incoming self) to = Some inner -> inner <> []).
Proof.
  intros Hwf Hp.
  destruct (init_index hmm ep priors L cs floor h Hwf Hp) as (self & h' & Hrun & Hinv).
  exists self, h'. split; [exact Hrun|]. now apply inverted_all_index.
Qed.

Lemma init_reverse_index_witness :
  dict_wf sticky_hmm /\
  (forall p, @None loc = Some p -> is_Some (dists empty_heap !! p)) /\
  exists self h',
    __init__ sticky_hmm favours_B None 2 None default_smallV empty_heap
      = Return self h' /\
    (forall to f q, entry (incoming self) to f q -> edge sticky_hmm f to q) /\
    (forall f to p, edge sticky_hmm f to p -> exists q, entry (incoming self) to f q) /\
    (forall to inner, dget (incoming self) to = Some inner -> inner <> []).
Proof.
  assert (Hp : forall p, @None loc = Some p -> is_Some (dists empty_heap !! p))
    by discriminate.
  split; [exact dict_wf_sticky_hmm|]. split; [exact Hp|].
  exact (init_reverse_index sticky_hmm favours_B None 2 None default_smallV
           empty_heap dict_wf_sticky_hmm Hp).
Defined.

(** X8: when no state of the graph lists a successor twice, the reverse
    index holds the probability of each edge: [incoming[to][from] = p]
    exactly when [(to, p)] is in [hmm[from]]. *)
Theorem init_reverse_index_exact hmm ep priors L cs floor h :
  dict_wf hmm ->
  (forall p, priors = Some p -> is_Some (dists h !! p)) ->
  (forall f edges, dget hmm f = Some edges -> NoDup (map fst edges)) ->
  exists self h',
    __init__ hmm ep priors L cs floor h = Return self h' /\
    forall to f p, entry (incoming self) to f p <-> edge hmm f to p.
Proof.
  intros Hwf Hp Huniq.
  destruct (init_index hmm ep priors L cs floor h Hwf Hp) as (self & h' & Hrun & Hinv).
  exists self, h'. split; [exact Hrun|].
  destruct (inverted_all_index hmm (incoming self) Hinv) as (Hs & Hc & _).
  intros to f p. split; [apply Hs|].
  intros He. destruct (Hc f to p He) as [q Hq].
  enough (q = p) as <- by exact Hq.
  destruct (Hs to f q Hq) as (edges & Hf & Hin).
  destruct He as (edges' & Hf' & Hin').
  assert (edges' = edges) as -> by congruence.
  pose proof (Huniq f edges Hf) as Hnd.
  clear - Hin Hin' Hnd. induction edges as [|[t x] edges IH]; [contradiction|].
  simpl in Hnd. apply NoDup_cons in Hnd. destruct Hnd as [Hnot Hnd].
  destruct Hin as [Hq|Hin], Hin' as [Hp|Hin'].
  - congruence.
  - exfalso. apply Hnot, list_elem_of_In, in_map_iff. exists (to, p).
    split; [simpl; congruence|exact Hin'].
  - exfalso. apply Hnot, list_elem_of_In, in_map_iff. exists (to, q).
    split; [simpl; congruence|exact Hin].
  - now apply IH.
Qed.

Lemma init_reverse_index_exact_witness :
  dict_wf sticky_hmm /\
  (forall p, @None loc = Some p -> is_Some (dists empty_heap !! p)) /\
  (forall f edges, dget sticky_hmm f = Some edges -> NoDup (map fst edges)) /\
  exists self h',
    __init__ sticky_hmm favours_B None 2 None default_smallV empty_heap
      = Return self h' /\
    forall to f p, entry (incoming self) to f p <-> edge sticky_hmm f to p.
Proof.
  assert (Hp : forall p, @None loc = Some p -> is_Some (dists empty_heap !! p))
    by discriminate.
  split; [exact dict_wf_sticky_hmm|]. split; [exact Hp|].
  split; [exact sticky_hmm_targets|].
  exact (init_reverse_index_exact sticky_hmm favours_B None 2 None default_smallV
           empty_heap dict_wf_sticky_hmm Hp sticky_hmm_targets).
Defined.

(** ** [step]: the scores before normalization (lines 41-71) *)

Lemma emitting_nonzero_eps self obs to :
  In to (map fst (nonzero_eps self obs)) <-> emitting self obs to.
Proof.
  unfold nonzero_eps, emitting. rewrite in_map_iff. split.
  - intros ([to' e] & <- & Hin). apply filter_In in Hin. destruct Hin as [Hin He].
    apply in_map_iff in Hin. destruct Hin as (c & [= <- <-] & Hc). now split.
  - intros [Hc He]. exists (to, emission_probability self to obs).
    split; [reflexivity|]. apply filter_In. split; [|exact He].
    apply in_map_iff. now exists to.
Qed.

Lemma score_new_V self Vd V path new_V np h to e (d : dict float) :
  V <> new_V -> dists h !! V = Some Vd -> dists h !! new_V = Some d ->
  post (score self V path new_V np (to, e)) h
    (fun _ h' =>
       dists h' !! V = Some Vd /\
       dists h' !! new_V =
       Some match best_from self Vd to e with
            | Ok (Some (v, _)) => dset d to v
            | _ => d
            end)
    (fun _ _ => True).
Proof.
  intros Hne HV Hd. unfold score, dist_setitem.
  mstep. mstep; [|trivial]. assert (d0 = Vd) as -> by congruence.
  mstep. mstep; [|trivial]. rewrite H0.
  destruct a as [[max_prob mf]|]; [|mstep; auto].
  mstep. mstep. mstep; [|trivial]. mstep; [|trivial].
  assert (d0 = d) as -> by congruence.
  eapply post_weaken; [apply extend_path_post| |trivial].
  intros [] h' (pt & r & h1 & old & npt' & _ & _ & _ & _ & _ & ->). simpl.
  split.
  - rewrite list_lookup_insert_ne by (intros Heq; now apply Hne). exact HV.
  - apply list_lookup_insert_eq. now apply lookup_lt_Some in Hd.
Qed.

Lemma scored_next self obs Vd tos to (d : dict float) :
  scored self obs Vd tos d ->
  scored self obs Vd (tos ++ [to])
    match best_from self Vd to (emission_probability self to obs) with
    | Ok (Some (v, _)) => dset d to v
    | _ => d
    end.
Proof.
  intros [Hwf Hd].
  assert (Hkeep : forall s v,
    (In s (tos ++ [to]) /\
     exists mf, best_from self Vd s (emission_probability self s obs) = Ok (Some (v, mf))) ->
    s <> to -> dget d s = Some v).
  { intros s v [Hin Hb] Hs. apply Hd. split; [|exact Hb].
    apply in_app_iff in Hin. destruct Hin as [Hin|[<-|[]]]; [exact Hin|now destruct Hs]. }
  assert (Hold : forall s v, dget d s = Some v ->
    In s (tos ++ [to]) /\
    exists mf, best_from self Vd s (emission_probability self s obs) = Ok (Some (v, mf))).
  { intros s v Hs. apply Hd in Hs. destruct Hs as [Hin Hb].
    split; [apply in_app_iff; now left|exact Hb]. }
  destruct (best_from self Vd to (emission_probability self to obs))
    as [[[v0 mf0]|]|ex] eqn:Hbest.
  - split; [now apply dict_wf_dset|]. intros s v.
    destruct (String.eqb_spec to s) as [<-|Hs].
    + rewrite dget_dset_eq. split.
      * intros [= <-]. split; [apply in_app_iff; right; now left|].
        exists mf0. exact Hbest.
      * intros [_ [mf Hb]]. congruence.
    + rewrite dget_dset_ne by exact Hs. split; [apply Hold|].
      intros H. apply Hkeep; [exact H|]. intros Heq. now apply Hs.
  - split; [exact Hwf|]. intros s v. split; [apply Hold|].
    intros H. apply Hkeep; [exact H|]. intros ->.
    destruct H as [_ [mf Hb]]. congruence.
  - split; [exact Hwf|]. intros s v. split; [apply Hold|].
    intros H. apply Hkeep; [exact H|]. intros ->.
    destruct H as [_ [mf Hb]]. congruence.
Qed.

Lemma scores_content self obs V path h0 Vd :
  input_dist self V h0 = Some Vd ->
  post (scores self obs V path) h0
    (fun r h => exists d, dists h !! fst r = Some d /\
                          scored self obs Vd (map fst (nonzero_eps self obs)) d)
    (fun _ _ => True).
Proof.
  intros HV. unfold scores. mstep.
  eapply post_weaken with
    (Q := fun v h => dists h !! v = Some Vd) (E := fun _ _ => True); [| |trivial].
  - destruct V as [v|]; simpl in HV.
    + now mstep.
    + mstep. mstep; [|trivial]. assert (d = Vd) as -> by congruence.
      mstep. now apply list_lookup_middle.
  - intros v h Hv. mstep. mstep. mstep. mstep. simpl. mstep.
    eapply post_weaken;
      [apply (post_for_prefix _
         (fun (p : list (state * float)) h' =>
            dists h' !! v = Some Vd /\
            exists d, dists h' !! length (dists h) = Some d /\
                      scored self obs Vd (map fst p) d)
         (fun _ _ => True) (nonzero_eps self obs) [])| |trivial].
    + simpl. split; [now apply lookup_app_l_Some|].
      exists []. split; [now apply list_lookup_middle|].
      split; [apply NoDup_nil_2|]. intros to x. split; [discriminate|now intros [[] _]].
    + intros p [to e] h1 Hin (Hv1 & d & Hd & Hsc).
      apply nonzero_eps_In in Hin. subst e.
      eapply post_weaken;
        [apply (score_new_V self Vd v path (length (dists h)) _ h1 to _ d)| |trivial];
        trivial.
      * apply lookup_lt_Some in Hv. lia.
      * intros [] h2 [Hv2 Hd2]. split; [exact Hv2|].
        eexists. split; [exact Hd2|]. rewrite map_app. simpl.
        now apply scored_next.
    + intros [] h1 (_ & d & Hd & Hsc). mstep. simpl. now exists d.
Qed.

(** ** [step]: the exceptions *)

Lemma incoming_driven_Ok inc V : exists preds, incoming_driven inc V = Ok preds.
Proof.
  apply comprehension_Ok. intros f Hf.
  destruct (dmem V f) eqn:Hmem; [|eauto].
  destruct (proj1 (dmem_true _ _) Hmem) as [v Hv].
  rewrite (subscript_Some _ _ _ Hv). simpl.
  destruct (0 <? v)%float; [|eauto].
  destruct (dget_keys inc f Hf) as [p Hp].
  rewrite (subscript_Some _ _ _ Hp). simpl. eauto.
Qed.

Lemma distribution_driven_Ok inc V : exists preds, distribution_driven inc V = Ok preds.
Proof.
  apply comprehension_Ok. intros f Hf.
  destruct (dmem inc f) eqn:Hmem; [|eauto].
  destruct (proj1 (dmem_true _ _) Hmem) as [p Hp].
  rewrite (subscript_Some _ _ _ Hp). simpl. eauto.
Qed.

Lemma best_from_Ok self V to_state e inc :
  dget (incoming self) to_state = Some inc ->
  exists o, best_from self V to_state e = Ok o.
Proof.
  intros Hinc. unfold best_from. rewrite (subscript_Some _ _ _ Hinc). simpl.
  assert (exists preds, nonzero_incoming inc V = Ok preds) as [preds Hpreds].
  { unfold nonzero_incoming. destruct (length inc <? length V)%nat.
    - apply incoming_driven_Ok.
    - apply distribution_driven_Ok. }
  rewrite Hpreds. simpl.
  assert (exists scored, from_probs V e preds = Ok scored) as [scored Hscored].
  { apply comprehension_Ok. intros [f p] Hf.
    destruct (nonzero_incoming_In inc V preds f p Hpreds Hf) as (_ & v & Hv).
    simpl. rewrite (subscript_Some _ _ _ Hv). simpl. eauto. }
  rewrite Hscored. simpl. eauto.
Qed.

Lemma best_from_Err self V to_state e ex :
  best_from self V to_state e = Err ex ->
  ex = KeyError /\ dget (incoming self) to_state = None.
Proof.
  intros H. destruct (dget (incoming self) to_state) as [inc|] eqn:Hinc.
  - destruct (best_from_Ok self V to_state e inc Hinc) as [o Ho]. congruence.
  - unfold best_from, subscript in H. rewrite Hinc in H. simpl in H.
    injection H as <-. auto.
Qed.

Lemma extend_path_raises_only self path np to mf h (pt : dict loc) :
  tables h !! path = Some pt ->
  (forall s r, dget pt s = Some r -> is_Some (lists h !! r)) ->
  is_Some (tables h !! np) ->
  post (extend_path self path np to mf) h (fun _ _ => True)
    (fun ex _ => ex = IndexError /\ constraint_length self = 0).
Proof.
  intros Hpt Hvalid Hnp.
  unfold extend_path, table_contains, table_getitem, table_setitem, list_pop0.
  mstep. mstep. mstep; [|congruence]. assert (d = pt) as -> by congruence.
  mstep. mstep.
  eapply post_weaken with
    (Q := fun _ h1 => exists (r : loc) (pt1 : dict loc) old,
            tables h1 !! path = Some pt1 /\ dget pt1 mf = Some r /\
            lists h1 !! r = Some old /\ is_Some (tables h1 !! np))
    (E := fun ex _ => ex = IndexError /\ constraint_length self = 0); [| |trivial].
  - destruct (dmem pt mf) eqn:Hmem.
    + mstep. destruct (proj1 (dmem_true _ _) Hmem) as [r Hr].
      destruct (Hvalid mf r Hr) as [old Hold]. exists r, pt, old. auto.
    + mstep. mstep. mstep. mstep; [|simpl in *; congruence]. simpl in H0.
      assert (d = pt) as -> by congruence.
      mstep; [|simpl in *; congruence]. simpl.
      exists (length (lists h)), (dset pt mf (length (lists h))), [].
      split; [apply list_lookup_insert_eq; now apply lookup_lt_Some in Hpt|].
      split; [apply dget_dset_eq|]. split; [now apply list_lookup_middle|].
      apply lookup_lt_is_Some. rewrite length_insert. now apply lookup_lt_is_Some.
  - intros [] h1 (r & pt1 & old & Hpt1 & Hr & Hold & Hnp1).
    mstep. mstep. mstep; [|congruence]. assert (d = pt1) as -> by congruence.
    mstep; [|match goal with
             | H : subscript _ _ = Err _ |- _ =>
                 unfold subscript in H; rewrite Hr in H; discriminate
             end].
    match goal with H : subscript _ _ = Ok _ |- _ => apply subscript_Ok in H end.
    assert (a = r) as -> by congruence.
    mstep. mstep; [|congruence]. assert (l = old) as -> by congruence.
    mstep.
    eapply post_weaken with
      (Q := fun _ h2 => tables h2 = tables h1 /\ is_Some (lists h2 !! r))
      (E := fun ex _ => ex = IndexError /\ constraint_length self = 0); [| |trivial].
    + destruct (Nat.eqb_spec (length old) (constraint_length self)) as [Hlen|Hlen].
      * mstep. mstep. mstep; [|congruence]. assert (l = old) as -> by congruence.
        destruct old as [|x old'].
        { mstep; [discriminate|]. simpl in Hlen. split; congruence. }
        mstep. mstep; [|congruence]. mstep. mstep. simpl. split; [reflexivity|].
        apply lookup_lt_is_Some. rewrite length_insert. now apply lookup_lt_Some in Hold.
      * mstep. split; [reflexivity|now exists old].
    + intros [] h2 [Ht [old2 Hold2]].
      mstep. mstep. mstep; [|congruence].
      assert (d = pt1) as -> by congruence.
      mstep; [|match goal with
               | H : subscript _ _ = Err _ |- _ =>
                   unfold subscript in H; rewrite Hr in H; discriminate
               end].
      match goal with H : subscript _ _ = Ok _ |- _ => apply subscript_Ok in H end.
      assert (a = r) as -> by congruence.
      mstep. mstep; [|congruence].
      destruct Hnp1 as [npt Hnpt].
      mstep. mstep. mstep. mstep; [|simpl in *; congruence].
      mstep; [trivial|simpl in *; congruence].
Qed.

Lemma scoring_table_valid self obs Vd path np h0 h :
  table_valid h0 path -> scoring self obs Vd path np h0 h ->
  exists pt : dict loc,
    tables h !! path = Some pt /\
    (forall s r, dget pt s = Some r -> is_Some (lists h !! r)) /\
    is_Some (tables h !! np).
Proof.
  intros (pt0' & Hpt0' & Hvalid) [_ Hlists _ (pt0 & pt & Hpt0 & Hpt & _ & Hnew)
                                    (npt & _ & Hnpt & _)].
  exists pt. split; [exact Hpt|]. split; [|now exists npt].
  intros s r Hr. destruct (Hnew s r Hr) as [Hold|(_ & _ & Hl)]; [|now exists []].
  assert (pt0' = pt0) as -> by congruence.
  destruct (Hvalid s r Hold) as [l0 Hl0].
  destruct (Hlists r l0 Hl0) as [H|(_ & _ & H)]; eauto.
Qed.

Lemma score_raises_only self obs Vd V path new_V np h0 h to e :
  table_valid h0 path -> scoring self obs Vd path np h0 h ->
  dists h !! V = Some Vd -> is_Some (dists h !! new_V) ->
  post (score self V path new_V np (to, e)) h (fun _ _ => True)
    (fun ex _ => (ex = KeyError /\ dget (incoming self) to = None) \/
                 (ex = IndexError /\ constraint_length self = 0)).
Proof.
  intros Hvalid Hsc HV [d Hd]. unfold score, dist_setitem.
  mstep. mstep; [|congruence]. assert (d0 = Vd) as -> by congruence.
  mstep. mstep; [|left; eapply best_from_Err; eassumption].
  destruct a as [[max_prob mf]|]; [|now mstep].
  mstep. mstep. mstep; [|congruence]. mstep; [|congruence].
  destruct (scoring_table_valid self obs Vd path np h0 h Hvalid Hsc)
    as (pt & Hpt & Hlists & Hnp).
  eapply post_weaken;
    [apply (extend_path_raises_only self path np to mf _ pt); simpl; assumption
    |trivial|].
  intros ex h' H'. now right.
Qed.

Lemma scores_raises_only self obs V path h0 Vd :
  input_dist self V h0 = Some Vd -> table_valid h0 path ->
  post (scores self obs V path) h0 (fun _ _ => True)
    (fun ex _ =>
       (ex = KeyError /\
        exists to, emitting self obs to /\ dget (incoming self) to = None) \/
       (ex = IndexError /\ constraint_length self = 0)).
Proof.
  intros HV Hvalid. unfold scores.
  mstep.
  eapply post_weaken with
    (Q := fun v h => dists h !! v = Some Vd /\ v < length (dists h) /\
                     tables h = tables h0 /\ lists h = lists h0)
    (E := fun _ _ => False); [| |contradiction].
  - destruct V as [v|]; simpl in HV.
    + mstep. repeat split; trivial. now apply lookup_lt_Some in HV.
    + mstep. mstep; [|congruence]. assert (d = Vd) as -> by congruence.
      mstep. simpl. rewrite length_app. simpl.
      repeat split; [now apply list_lookup_middle|lia].
  - intros v h (Hv & Hlt & Ht & Hl).
    mstep. mstep. mstep. mstep. simpl. mstep.
    eapply post_weaken;
      [apply post_for with
         (I := fun h' => scoring self obs Vd path (length (tables h)) h0 h' /\
                         dists h' !! v = Some Vd /\
                         is_Some (dists h' !! length (dists h)))| |intros ex h' H'; exact H'].
    + split; [|split].
      * rewrite Ht, Hl. now apply scoring_init.
      * simpl. now apply lookup_app_l_Some.
      * exists []. now apply list_lookup_middle.
    + intros [to e] h1 Hin (Hsc & Hv1 & [d Hd]).
      assert (He : e = emission_probability self to obs) by (now apply nonzero_eps_In in Hin).
      assert (Hto : emitting self obs to).
      { apply emitting_nonzero_eps, in_map_iff. now exists (to, e). }
      assert (Hne : v <> length (dists h)) by lia.
      pose proof (post_conj _ _ _ _ _ _
        (post_conj _ _ _ _ _ _
           (scoring_score self obs Vd v path (length (dists h)) (length (tables h))
              h0 h1 to e Hvalid Hne He (conj Hsc Hv1))
           (score_new_V self Vd v path (length (dists h)) (length (tables h))
              h1 to e d Hne Hv1 Hd))
        (score_raises_only self obs Vd v path (length (dists h)) (length (tables h))
           h0 h1 to e Hvalid Hsc Hv1 (ex_intro _ d Hd))) as Hpost.
      eapply post_weaken; [exact Hpost| |].
      * intros [] h2 (([Hsc2 Hv2] & [_ Hd2]) & _). cbv beta. eauto.
      * intros ex h2 (_ & [[-> Hnone]|[-> HL]]); [left|right]; eauto.
    + intros [] h1 _. now mstep.
Qed.

Lemma step_after_scores self obs V path h new_V0 new_path0 h1 (d0 p : dict float) :
  scores self obs V path h = Return (new_V0, new_path0) h1 ->
  dists h1 !! new_V0 = Some d0 -> dict_wf d0 ->
  dists h1 !! priors self = Some p -> dict_wf p ->
  new_path0 < length (tables h1) ->
  exists h',
    step self obs V path h = Return (length (dists h1), new_path0) h' /\
    dists h' !! length (dists h1) =
    Some (above_floor (smallV self)
            (if (sum (dvalues d0) =? 0)%float then p
             else scaled (sum (dvalues d0)) d0)) /\
    pruned new_path0 h1 h'.
Proof.
  intros Hscores Hd0 Hwf0 Hp Hwfp Hlt.
  set (c := if (sum (dvalues d0) =? 0)%float then p else scaled (sum (dvalues d0)) d0).
  set (h2 := Heap (dists h1 ++ [c]) (tables h1) (lists h1)).
  assert (Hwfc : dict_wf c).
  { unfold c. destruct (sum (dvalues d0) =? 0)%float; [exact Hwfp|].
    unfold dict_wf. now rewrite dkeys_scaled. }
  destruct (prune_floor self (length (dists h1)) new_path0 h2 c) as (h' & Hprune & Hd' & _);
    [now apply list_lookup_middle|exact Hwfc|exact Hlt|].
  exists h'. split; [|split; [exact Hd'|]].
  2:{ exact (post_Return _ _ _ _ _ _ (prune_post self _ new_path0 h2) Hprune). }
  unfold step. rewrite (bind_Return _ _ _ _ _ Hscores). cbv beta iota.
  rewrite (bind_Return _ _ _ _ _ (normalize_run self new_V0 h1 d0 p Hd0 Hwf0 Hp)).
  fold c. fold h2. now rewrite (bind_Return _ _ _ _ _ Hprune).
Qed.

Lemma step_raises_in_scores self obs V path h ex h' :
  scores self obs V path h = Raise ex h' -> step self obs V path h = Raise ex h'.
Proof. intros H. unfold step, bind. now rewrite H. Qed.

Lemma scores_summary self obs V path h Vd (p : dict float) :
  input_dist self V h = Some Vd -> dists h !! priors self = Some p ->
  match scores self obs V path h with
  | Return (new_V0, new_path0) h1 =>
      new_path0 < length (tables h1) /\ dists h1 !! priors self = Some p /\
      exists d0, dists h1 !! new_V0 = Some d0 /\
                 scored self obs Vd (map fst (nonzero_eps self obs)) d0
  | Raise _ _ => True
  end.
Proof.
  intros HV Hp.
  pose proof (scores_content self obs V path h Vd HV) as Hc.
  pose proof (scores_new_path self obs V path h) as Hn.
  pose proof (scores_dists self obs V path h) as Hk.
  unfold post in *.
  destruct (scores self obs V path h) as [[new_V0 new_path0] h1|]; [|trivial].
  split; [exact Hn|]. split; [now apply Hk|exact Hc].
Qed.

Lemma dget_Some_In {A} (d : dict A) k v : dget d k = Some v -> In (k, v) d.
Proof.
  induction d as [|[k' v'] d IH]; simpl; [discriminate|].
  destruct (String.eqb_spec k' k) as [->|Hne].
  - intros [= ->]. now left.
  - intros H. right. now apply IH.
Qed.

Lemma scored_emitting self obs Vd (d0 : dict float) :
  scored self obs Vd (map fst (nonzero_eps self obs)) d0 ->
  dict_wf d0 /\
  forall to v, dget d0 to = Some v <->
    emitting self obs to /\
    exists mf, best_from self Vd to (emission_probability self to obs) = Ok (Some (v, mf)).
Proof.
  intros [Hwf Hd]. split; [exact Hwf|]. intros to v.
  rewrite <- emitting_nonzero_eps. apply Hd.
Qed.

Lemma step_anatomy self obs V path h Vd (p : dict float) new_V new_path h' :
  input_dist self V h = Some Vd ->
  dists h !! priors self = Some p -> dict_wf p ->
  step self obs V path h = Return (new_V, new_path) h' ->
  exists new_V0 h1 d0,
    scores self obs V path h = Return (new_V0, new_path) h1 /\
    dists h1 !! new_V0 = Some d0 /\
    scored self obs Vd (map fst (nonzero_eps self obs)) d0 /\
    dists h' !! new_V =
    Some (above_floor (smallV self)
            (if (sum (dvalues d0) =? 0)%float then p
             else scaled (sum (dvalues d0)) d0)) /\
    pruned new_path h1 h'.
Proof.
  intros HV Hp Hwfp Hstep.
  pose proof (scores_summary self obs V path h Vd p HV Hp) as Hsum.
  destruct (scores self obs V path h) as [[new_V0 new_path0] h1|ex h1] eqn:Hscores.
  2:{ rewrite (step_raises_in_scores _ _ _ _ _ _ _ Hscores) in Hstep. discriminate. }
  destruct Hsum as (Hlt & Hp1 & d0 & Hd0 & Hsc).
  destruct (step_after_scores self obs V path h new_V0 new_path0 h1 d0 p
              Hscores Hd0 (proj1 Hsc) Hp1 Hwfp Hlt) as (h'' & Hrun & Hd' & Hpr).
  rewrite Hrun in Hstep. injection Hstep as <- <- <-.
  exists new_V0, h1, d0. auto 6.
Qed.

(** ** [step]: what a call returns *)

(** X9: the distribution that a call returns.  Before normalization the
    scores [d0] hold exactly the candidates of the observation that have a
    positive emission probability and at least one predecessor, each with
    the score of the predecessor that line 70 selects, and no state twice.
    The call returns these scores divided by their sum, or the priors when
    the sum is zero, without the entries below [smallV]. *)
Theorem step_returned_distribution self obs V path h Vd (p : dict float)
    new_V new_path h' :
  input_dist self V h = Some Vd ->
  dists h !! priors self = Some p -> dict_wf p ->
  step self obs V path h = Return (new_V, new_path) h' ->
  exists d0,
    dict_wf d0 /\
    (forall to v, dget d0 to = Some v <->
       emitting self obs to /\
       exists mf, best_from self Vd to (emission_probability self to obs)
                  = Ok (Some (v, mf))) /\
    dists h' !! new_V =
    Some (above_floor (smallV self)
            (if (sum (dvalues d0) =? 0)%float then p
             else scaled (sum (dvalues d0)) d0)).
Proof.
  intros HV Hp Hwfp Hstep.
  destruct (step_anatomy self obs V path h Vd p new_V new_path h' HV Hp Hwfp Hstep)
    as (new_V0 & h1 & d0 & _ & _ & Hsc & Hd' & _).
  exists d0. destruct (scored_emitting self obs Vd d0 Hsc) as [Hwf Hd]. auto.
Qed.

Lemma step_returned_distribution_witness :
  input_dist sticky (Some 2) sticky_heap
    = Some [("A", 0.125%float); ("B", 0.875%float)] /\
  dists sticky_heap !! priors sticky = Some [("A", 0.5%float); ("B", 0.5%float)] /\
  dict_wf [("A", 0.5%float); ("B", 0.5%float)] /\
  step sticky "x" (Some 2) 0 sticky_heap = Return (4, 1) sticky_heap_shared /\
  exists d0,
    dict_wf d0 /\
    (forall to v, dget d0 to = Some v <->
       emitting sticky "x" to /\
       exists mf, best_from sticky [("A", 0.125%float); ("B", 0.875%float)] to
                    (emission_probability sticky to "x") = Ok (Some (v, mf))) /\
    dists sticky_heap_shared !! 4 =
    Some (above_floor (smallV sticky)
            (if (sum (dvalues d0) =? 0)%float
             then [("A", 0.5%float); ("B", 0.5%float)]
             else scaled (sum (dvalues d0)) d0)).
Proof.
  split; [reflexivity|]. split; [reflexivity|]. split; [exact dict_wf_halves|].
  split; [exact step_sticky_shared|].
  exact (step_returned_distribution sticky "x" (Some 2) 0 sticky_heap _ _ 4 1
           sticky_heap_shared eq_refl eq_refl dict_wf_halves step_sticky_shared).
Defined.

(** X10: no mass that a call returns is below [smallV] (a mass that is not
    a number passes the comparison of line 79 and stays). *)
Theorem step_masses_above_floor self obs V path h Vd (p : dict float)
    new_V new_path h' (d : dict float) s v :
  input_dist self V h = Some Vd ->
  dists h !! priors self = Some p -> dict_wf p ->
  step self obs V path h = Return (new_V, new_path) h' ->
  dists h' !! new_V = Some d -> dget d s = Some v ->
  (v <? smallV self)%float = false.
Proof.
  intros HV Hp Hwfp Hstep Hd Hs.
  destruct (step_anatomy self obs V path h Vd p new_V new_path h' HV Hp Hwfp Hstep)
    as (new_V0 & h1 & d0 & _ & _ & _ & Hd' & _).
  rewrite Hd' in Hd. injection Hd as <-.
  apply dget_Some_In in Hs. unfold above_floor in Hs. apply filter_In in Hs.
  destruct Hs as [_ Hs]. simpl in Hs. now apply negb_true_iff in Hs.
Qed.

Lemma step_masses_above_floor_witness :
  input_dist sticky (Some 2) sticky_heap
    = Some [("A", 0.125%float); ("B", 0.875%float)] /\
  dists sticky_heap !! priors sticky = Some [("A", 0.5%float); ("B", 0.5%float)] /\
  dict_wf [("A", 0.5%float); ("B", 0.5%float)] /\
  step sticky "x" (Some 2) 0 sticky_heap = Return (4, 1) sticky_heap_shared /\
  dists sticky_heap_shared !! 4 = Some sticky_posterior /\
  dget sticky_posterior "A" = Some (0.0546875 / 0.546875)%float /\
  (0.0546875 / 0.546875 <? smallV sticky)%float = false.
Proof.
  split; [reflexivity|]. split; [reflexivity|]. split; [exact dict_wf_halves|].
  split; [exact step_sticky_shared|]. split; [reflexivity|]. split; [reflexivity|].
  exact (step_masses_above_floor sticky "x" (Some 2) 0 sticky_heap _ _ 4 1
           sticky_heap_shared sticky_posterior "A" _
           eq_refl eq_refl dict_wf_halves step_sticky_shared eq_refl eq_refl).
Defined.

Lemma step_outcome self obs V path h Vd (p : dict float) :
  input_dist self V h = Some Vd -> table_valid h path ->
  dists h !! priors self = Some p -> dict_wf p ->
  match step self obs V path h with
  | Return _ _ => True
  | Raise ex _ =>
      (ex = KeyError /\
       exists to, emitting self obs to /\ dget (incoming self) to = None) \/
      (ex = IndexError /\ constraint_length self = 0)
  end.
Proof.
  intros HV Hvalid Hp Hwfp.
  pose proof (scores_summary self obs V path h Vd p HV Hp) as Hsum.
  pose proof (scores_raises_only self obs V path h Vd HV Hvalid) as Hex.
  unfold post in Hex.
  destruct (scores self obs V path h) as [[new_V0 new_path0] h1|ex h1] eqn:Hscores.
  - destruct Hsum as (Hlt & Hp1 & d0 & Hd0 & Hsc).
    destruct (step_after_scores self obs V path h new_V0 new_path0 h1 d0 p
                Hscores Hd0 (proj1 Hsc) Hp1 Hwfp Hlt) as (h'' & Hrun & _).
    now rewrite Hrun.
  - now rewrite (step_raises_in_scores _ _ _ _ _ _ _ Hscores).
Qed.

(** ** [step]: when a call raises *)

(** X11: with a window of at least one state, on a store where the input
    distribution, the path table with its paths and the priors are there,
    a call returns whenever [incoming] has an entry for every candidate
    with a positive emission probability. *)
Theorem step_returns self obs V path h Vd (p : dict float) :
  constraint_length self <> 0 ->
  input_dist self V h = Some Vd -> table_valid h path ->
  dists h !! priors self = Some p -> dict_wf p ->
  (forall to, emitting self obs to -> is_Some (dget (incoming self) to)) ->
  exists new_V new_path h', step self obs V path h = Return (new_V, new_path) h'.
Proof.
  intros HL HV Hvalid Hp Hwfp Hinc.
  pose proof (step_outcome self obs V path h Vd p HV Hvalid Hp Hwfp) as H.
  destruct (step self obs V path h) as [[new_V new_path] h'|ex h'].
  - now exists new_V, new_path, h'.
  - exfalso. destruct H as [(_ & to & Hto & Hnone)|[_ HL0]]; [|now apply HL].
    destruct (Hinc to Hto) as [inc Hsome]. congruence.
Qed.

Lemma step_returns_witness :
  constraint_length sticky <> 0 /\
  input_dist sticky (Some 2) sticky_heap
    = Some [("A", 0.125%float); ("B", 0.875%float)] /\
  table_valid sticky_heap 0 /\
  dists sticky_heap !! priors sticky = Some [("A", 0.5%float); ("B", 0.5%float)] /\
  dict_wf [("A", 0.5%float); ("B", 0.5%float)] /\
  (forall to, emitting sticky "x" to -> is_Some (dget (incoming sticky) to)) /\
  exists new_V new_path h',
    step sticky "x" (Some 2) 0 sticky_heap = Return (new_V, new_path) h'.
Proof.
  assert (HL : constraint_length sticky <> 0) by discriminate.
  split; [exact HL|]. split; [reflexivity|]. split; [exact table_valid_sticky|].
  split; [reflexivity|]. split; [exact dict_wf_halves|].
  split; [exact sticky_incoming_total|].
  exact (step_returns sticky "x" (Some 2) 0 sticky_heap _ _ HL eq_refl
           table_valid_sticky eq_refl dict_wf_halves sticky_incoming_total).
Defined.

(** X12: on such a store and with such a window, a call raises [KeyError],
    and nothing else, as soon as one candidate with a positive emission
    probability has no entry in [incoming] (line 53). *)
Theorem step_missing_incoming_KeyError self obs V path h Vd (p : dict float) to :
  constraint_length self <> 0 ->
  input_dist self V h = Some Vd -> table_valid h path ->
  dists h !! priors self = Some p -> dict_wf p ->
  emitting self obs to -> dget (incoming self) to = None ->
  exists h', step self obs V path h = Raise KeyError h'.
Proof.
  intros HL HV Hvalid Hp Hwfp [Hto He] Hnone.
  pose proof (step_outcome self obs V path h Vd p HV Hvalid Hp Hwfp) as H.
  destruct (step_raises_without_incoming self obs V path h to Hto He Hnone)
    as (ex & h' & Hraise).
  rewrite Hraise in H. exists h'.
  destruct H as [[-> _]|[_ HL0]]; [exact Hraise|now destruct HL].
Qed.

Lemma step_missing_incoming_KeyError_witness :
  constraint_length source <> 0 /\
  input_dist source None source_heap = Some [("A", 0.5%float); ("B", 0.5%float)] /\
  table_valid source_heap 0 /\
  dists source_heap !! priors source = Some [("A", 0.5%float); ("B", 0.5%float)] /\
  dict_wf [("A", 0.5%float); ("B", 0.5%float)] /\
  emitting source "x" "A" /\ dget (incoming source) "A" = None /\
  exists h', step source "x" None 0 source_heap = Raise KeyError h'.
Proof.
  assert (HL : constraint_length source <> 0) by discriminate.
  assert (HA : emitting source "x" "A") by (split; [now left|reflexivity]).
  split; [exact HL|]. split; [reflexivity|]. split; [exact table_valid_source|].
  split; [reflexivity|]. split; [exact dict_wf_halves|]. split; [exact HA|].
  split; [reflexivity|].
  exact (step_missing_incoming_KeyError source "x" None 0 source_heap _ _ "A" HL
           eq_refl table_valid_source eq_refl dict_wf_halves HA eq_refl).
Defined.

(** X13: with [constraint_length = 0], on a store whose paths are all
    empty, a call raises [IndexError] (the [pop(0)] of line 76 on an empty
    path) as soon as one candidate with a positive emission probability has
    a predecessor, when [incoming] has an entry for every such candidate. *)
Theorem step_empty_window_IndexError self obs V path h Vd (p : dict float) to mf :
  constraint_length self = 0 ->
  input_dist self V h = Some Vd -> paths_bounded 0 h path ->
  dists h !! priors self = Some p -> dict_wf p ->
  (forall to, emitting self obs to -> is_Some (dget (incoming self) to)) ->
  emitting self obs to -> max_from self Vd obs to = Some mf ->
  exists h', step self obs V path h = Raise IndexError h'.
Proof.
  intros HL HV Hb Hp Hwfp Hinc [Hto He] Hmf.
  pose proof (step_outcome self obs V path h Vd p HV
                (paths_bounded_valid 0 h path Hb) Hp Hwfp) as H.
  destruct (step_no_window_raises self obs V path h Vd to mf HL HV Hb Hto He Hmf)
    as (ex & h' & Hraise).
  rewrite Hraise in H. exists h'.
  destruct H as [(_ & to' & Hto' & Hnone)|[-> _]]; [|exact Hraise].
  destruct (Hinc to' Hto') as [inc Hsome]. congruence.
Qed.

Lemma step_empty_window_IndexError_witness :
  constraint_length loop = 0 /\
  input_dist loop None loop_heap = Some [("A", 1%float)] /\
  paths_bounded 0 loop_heap 0 /\
  dists loop_heap !! priors loop = Some [("A", 1%float)] /\
  dict_wf [("A", 1%float)] /\
  (forall to, emitting loop "x" to -> is_Some (dget (incoming loop) to)) /\
  emitting loop "x" "A" /\ max_from loop [("A", 1%float)] "x" "A" = Some "A" /\
  exists h', step loop "x" None 0 loop_heap = Raise IndexError h'.
Proof.
  assert (HA : emitting loop "x" "A") by (split; [now left|reflexivity]).
  assert (Hmf : max_from loop [("A", 1%float)] "x" "A" = Some "A")
    by (vm_compute; reflexivity).
  split; [reflexivity|]. split; [reflexivity|]. split; [exact paths_bounded_loop|].
  split; [reflexivity|]. split; [exact dict_wf_loop_priors|].
  split; [exact loop_incoming_total|]. split; [exact HA|]. split; [exact Hmf|].
  exact (step_empty_window_IndexError loop "x" None 0 loop_heap _ _ "A" "A" eq_refl
           eq_refl paths_bounded_loop eq_refl dict_wf_loop_priors
           loop_incoming_total HA Hmf).
Defined.

(** ** [step]: the paths that a call returns *)

(** X14: every path that a call returns is the path that the caller's table
    recorded for the best predecessor of its state (the empty path if it
    recorded none), without its oldest state if it was
    [constraint_length] long, followed by the state itself; and only a
    candidate with a positive emission probability gets a path. *)
Theorem step_extends_best_path self obs V path h Vd (p : dict float)
    new_V new_path h' (npt : dict loc) to r :
  input_dist self V h = Some Vd -> table_valid h path ->
  dists h !! priors self = Some p -> dict_wf p ->
  step self obs V path h = Return (new_V, new_path) h' ->
  tables h' !! new_path = Some npt -> dget npt to = Some r ->
  emitting self obs to /\
  exists mf old,
    max_from self Vd obs to = Some mf /\
    recorded_path h path mf = Some old /\
    lists h' !! r = Some (window (constraint_length self) old ++ [to]).
Proof.
  intros HV Hvalid Hp Hwfp Hstep Hnpt Hr. split.
  - destruct (step_anatomy self obs V path h Vd p new_V new_path h' HV Hp Hwfp Hstep)
      as (new_V0 & h1 & d0 & Hscores & Hd0 & Hsc & _ & Hpr).
    assert (Hpath : is_Some (tables h !! path)).
    { destruct Hvalid as (pt & Hpt & _). now exists pt. }
    destruct (post_Return _ _ _ _ _ _ (scores_keys self obs V path h Hpath) Hscores)
      as (d & npt0 & Hd & Hnpt0 & Hagree). simpl in Hd, Hnpt0.
    assert (d = d0) as -> by congruence.
    destruct Hpr as (_ & _ & _ & Hsub).
    destruct (Hsub npt0 Hnpt0) as (npt' & Hnpt' & Hin).
    assert (npt' = npt) as -> by congruence.
    assert (Hmem : dmem d0 to = true).
    { rewrite Hagree. apply dmem_true. exists r. now apply Hin. }
    apply dmem_true in Hmem. destruct Hmem as [v Hv].
    destruct (scored_emitting self obs Vd d0 Hsc) as [_ Hd0'].
    now apply Hd0' in Hv.
  - destruct (step_scoring self obs V path h Vd (new_V, new_path) h' HV Hvalid Hstep)
      as [_ _ _ _ (npt' & _ & Hnpt' & Hnew)]. simpl in Hnpt'.
    assert (npt' = npt) as -> by congruence.
    destruct (Hnew to r Hr) as (_ & mf & old & Hmf & Hold & _ & Hl).
    now exists mf, old.
Qed.

Lemma step_extends_best_path_witness :
  input_dist sticky (Some 2) sticky_heap
    = Some [("A", 0.125%float); ("B", 0.875%float)] /\
  table_valid sticky_heap 0 /\
  dists sticky_heap !! priors sticky = Some [("A", 0.5%float); ("B", 0.5%float)] /\
  dict_wf [("A", 0.5%float); ("B", 0.5%float)] /\
  step sticky "x" (Some 2) 0 sticky_heap = Return (4, 1) sticky_heap_shared /\
  tables sticky_heap_shared !! 1 = Some [("A", 1); ("B", 2)] /\
  dget [("A", 1); ("B", 2)] "A" = Some 1 /\
  (emitting sticky "x" "A" /\
   exists mf old,
     max_from sticky [("A", 0.125%float); ("B", 0.875%float)] "x" "A" = Some mf /\
     recorded_path sticky_heap 0 mf = Some old /\
     lists sticky_heap_shared !! 1
       = Some (window (constraint_length sticky) old ++ ["A"])).
Proof.
  split; [reflexivity|]. split; [exact table_valid_sticky|]. split; [reflexivity|].
  split; [exact dict_wf_halves|]. split; [exact step_sticky_shared|].
  split; [reflexivity|]. split; [reflexivity|].
  exact (step_extends_best_path sticky "x" (Some 2) 0 sticky_heap _ _ 4 1
           sticky_heap_shared [("A", 1); ("B", 2)] "A" 1
           eq_refl table_valid_sticky eq_refl dict_wf_halves step_sticky_shared
           eq_refl eq_refl).
Defined.

(** X15: a call that does not fall back on the priors returns a distribution
    and a path table with the same states, all of them candidates of the
    observation with a positive emission probability. *)
Theorem step_keys_agree self obs V path h Vd (p : dict float)
    new_V0 new_path0 h1 (d0 : dict float) new_V new_path h' :
  input_dist self V h = Some Vd -> table_valid h path ->
  dists h !! priors self = Some p -> dict_wf p ->
  scores self obs V path h = Return (new_V0, new_path0) h1 ->
  dists h1 !! new_V0 = Some d0 -> (sum (dvalues d0) =? 0)%float = false ->
  step self obs V path h = Return (new_V, new_path) h' ->
  exists (d : dict float) (npt : dict loc),
    dists h' !! new_V = Some d /\ tables h' !! new_path = Some npt /\
    keys_agree d npt /\
    forall s, dmem d s = true -> emitting self obs s.
Proof.
  intros HV Hvalid Hp Hwfp Hscores Hd0 Hsum Hstep.
  assert (Hpath : is_Some (tables h !! path)).
  { destruct Hvalid as (pt & Hpt & _). now exists pt. }
  destruct (step_keys_agree_without_reset self obs V path h new_V0 new_path0 h1 d0
              (new_V, new_path) h' Hpath Hscores Hd0 Hsum Hstep)
    as (d & npt & Hd & Hnpt & Hagree). simpl in Hd, Hnpt.
  exists d, npt.
  split; [exact Hd|]. split; [exact Hnpt|]. split; [exact Hagree|].
  destruct (step_anatomy self obs V path h Vd p new_V new_path h' HV Hp Hwfp Hstep)
    as (new_V0' & h1' & d0' & Hscores' & Hd0' & Hsc & Hd' & _).
  rewrite Hscores in Hscores'. injection Hscores' as <- <-.
  assert (d0' = d0) as -> by congruence.
  rewrite Hsum, Hd in Hd'. injection Hd' as ->.
  intros s Hs. apply dmem_true in Hs. destruct Hs as [v Hv].
  apply dget_Some_In in Hv. unfold above_floor in Hv. apply filter_In in Hv.
  destruct Hv as [Hv _]. unfold scaled in Hv. apply in_map_iff in Hv.
  destruct Hv as ([s' v0] & [= <- _] & Hin). simpl.
  destruct (scored_emitting self obs Vd d0 Hsc) as [Hwf Hchar].
  apply (dget_In_wf _ _ _ Hwf) in Hin. now apply Hchar in Hin.
Qed.

Lemma step_keys_agree_witness :
  input_dist sticky (Some 2) sticky_heap
    = Some [("A", 0.125%float); ("B", 0.875%float)] /\
  table_valid sticky_heap 0 /\
  dists sticky_heap !! priors sticky = Some [("A", 0.5%float); ("B", 0.5%float)] /\
  dict_wf [("A", 0.5%float); ("B", 0.5%float)] /\
  scores sticky "x" (Some 2) 0 sticky_heap = Return (3, 1) sticky_heap_scored /\
  dists sticky_heap_scored !! 3
    = Some [("A", 0.0546875%float); ("B", 0.4921875%float)] /\
  (sum (dvalues [("A", 0.0546875%float); ("B", 0.4921875%float)]) =? 0)%float
    = false /\
  step sticky "x" (Some 2) 0 sticky_heap = Return (4, 1) sticky_heap_shared /\
  exists (d : dict float) (npt : dict loc),
    dists sticky_heap_shared !! 4 = Some d /\
    tables sticky_heap_shared !! 1 = Some npt /\
    keys_agree d npt /\
    forall s, dmem d s = true -> emitting sticky "x" s.
Proof.
  assert (Hscores : scores sticky "x" (Some 2) 0 sticky_heap
                    = Return (3, 1) sticky_heap_scored) by (vm_compute; reflexivity).
  split; [reflexivity|]. split; [exact table_valid_sticky|]. split; [reflexivity|].
  split; [exact dict_wf_halves|]. split; [exact Hscores|]. split; [reflexivity|].
  split; [reflexivity|]. split; [exact step_sticky_shared|].
  exact (step_keys_agree sticky "x" (Some 2) 0 sticky_heap _ _ 3 1
           sticky_heap_scored _ 4 1 sticky_heap_shared
           eq_refl table_valid_sticky eq_refl dict_wf_halves Hscores eq_refl
           eq_refl step_sticky_shared).
Defined.

(** ** The two ways of finding the predecessors (lines 53-60) *)

(** X16: when every mass of [V] is positive, the two strategies of lines
    54-56 and 59-60 select the same predecessors with the same transition
    probabilities. *)
Theorem predecessor_strategies_agree (inc V : dict float) l1 l2 :
  (forall s v, dget V s = Some v -> (0 <? v)%float = true) ->
  incoming_driven inc V = Ok l1 -> distribution_driven inc V = Ok l2 ->
  forall x, In x l1 <-> In x l2.
Proof. exact (predecessors_agree_on_positive inc V l1 l2). Qed.

Lemma predecessor_strategies_agree_witness :
  (forall s v, dget positive s = Some v -> (0 <? v)%float = true) /\
  incoming_driven into_C positive = Ok [("B", 0.5%float); ("C", 1%float)] /\
  distribution_driven into_C positive = Ok [("B", 0.5%float); ("C", 1%float)] /\
  forall x, In x [("B", 0.5%float); ("C", 1%float)] <->
            In x [("B", 0.5%float); ("C", 1%float)].
Proof.
  split; [exact positive_masses|]. split; [reflexivity|]. split; [reflexivity|].
  exact (predecessor_strategies_agree into_C positive _ _ positive_masses
           eq_refl eq_refl).
Defined.

(** ** [step]: the result of a call is an input of the next *)

(** X17: what a call returns can be passed to the next call: the returned
    distribution is there and has no state twice, the returned path table
    refers to paths that are there, and the table passed in and the priors
    are still usable. *)
Theorem step_result_is_input self obs V path h Vd (p : dict float)
    new_V new_path h' :
  input_dist self V h = Some Vd -> table_valid h path ->
  dists h !! priors self = Some p -> dict_wf p ->
  step self obs V path h = Return (new_V, new_path) h' ->
  (exists d, input_dist self (Some new_V) h' = Some d /\ dict_wf d) /\
  table_valid h' new_path /\ table_valid h' path /\
  dists h' !! priors self = Some p.
Proof.
  intros HV Hvalid Hp Hwfp Hstep.
  destruct (step_anatomy self obs V path h Vd p new_V new_path h' HV Hp Hwfp Hstep)
    as (new_V0 & h1 & d0 & _ & _ & Hsc & Hd' & _).
  pose proof (step_scoring self obs V path h Vd (new_V, new_path) h' HV Hvalid Hstep)
    as Hscoring. simpl in Hscoring.
  split; [|split; [|split]].
  - eexists. split; [exact Hd'|]. unfold above_floor. apply NoDup_dkeys_filter.
    destruct (sum (dvalues d0) =? 0)%float; [exact Hwfp|].
    unfold dict_wf. rewrite dkeys_scaled. exact (proj1 Hsc).
  - destruct Hscoring as [_ _ _ _ (npt & _ & Hnpt & Hnew)].
    exists npt. split; [exact Hnpt|]. intros s r Hr.
    destruct (Hnew s r Hr) as (_ & mf & old & _ & _ & _ & Hl). eauto.
  - destruct (scoring_table_valid self obs Vd path new_path h h' Hvalid Hscoring)
      as (pt & Hpt & Hlists & _).
    now exists pt.
  - pose proof (step_dists self obs V path h) as Hk. unfold post in Hk.
    rewrite Hstep in Hk. destruct Hk as [Hk _]. now apply Hk.
Qed.

Lemma step_result_is_input_witness :
  input_dist sticky (Some 2) sticky_heap
    = Some [("A", 0.125%float); ("B", 0.875%float)] /\
  table_valid sticky_heap 0 /\
  dists sticky_heap !! priors sticky = Some [("A", 0.5%float); ("B", 0.5%float)] /\
  dict_wf [("A", 0.5%float); ("B", 0.5%float)] /\
  step sticky "x" (Some 2) 0 sticky_heap = Return (4, 1) sticky_heap_shared /\
  ((exists d, input_dist sticky (Some 4) sticky_heap_shared = Some d /\ dict_wf d) /\
   table_valid sticky_heap_shared 1 /\ table_valid sticky_heap_shared 0 /\
   dists sticky_heap_shared !! priors sticky
     = Some [("A", 0.5%float); ("B", 0.5%float)]).
Proof.
  split; [reflexivity|]. split; [exact table_valid_sticky|]. split; [reflexivity|].
  split; [exact dict_wf_halves|]. split; [exact step_sticky_shared|].
  exact (step_result_is_input sticky "x" (Some 2) 0 sticky_heap _ _ 4 1
           sticky_heap_shared eq_refl table_valid_sticky eq_refl dict_wf_halves
           step_sticky_shared).
Defined.

(** ** [step]: the returned paths are lists of their own *)

Lemma score_separate self V path new_V np se h :
  path <> np -> separate h np ->
  post (score self V path new_V np se) h
    (fun _ h' => separate h' np) (fun _ _ => True).
Proof.
  intros Hne (npt & Hnpt & Hlt & Hinj). unfold score, dist_setitem.
  destruct se as [to e].
  mstep. mstep; [|trivial]. mstep. mstep; [|trivial].
  destruct a as [[max_prob mf]|]; [|mstep; exists npt; auto].
  mstep. mstep. mstep; [|trivial]. mstep; [|trivial].
  eapply post_weaken; [apply extend_path_post| |trivial].
  intros [] h' (pt & r & h1 & old & npt' & _ & Hcase & _ & _ & Hnpt' & ->).
  simpl in *.
  assert (npt' = npt /\ length (lists h) <= length (lists h1)) as [-> Hlen].
  { destruct Hcase as [[_ ->]|(_ & _ & ->)]; simpl in *.
    - split; [congruence|lia].
    - rewrite list_lookup_insert_ne in Hnpt' by exact Hne.
      split; [congruence|]. rewrite length_app. lia. }
  exists (dset npt to (length (lists h1))).
  split; [apply list_lookup_insert_eq; now apply lookup_lt_Some in Hnpt'|].
  simpl. rewrite length_app, length_insert. simpl. split.
  - intros t r0. destruct (String.eqb_spec to t) as [<-|Ht].
    + rewrite dget_dset_eq. intros [= <-]. lia.
    + rewrite dget_dset_ne by exact Ht. intros Hr. apply Hlt in Hr. lia.
  - intros t1 t2 r0.
    destruct (String.eqb_spec to t1) as [<-|Ht1], (String.eqb_spec to t2) as [<-|Ht2];
      rewrite ?dget_dset_eq, ?dget_dset_ne by assumption.
    + reflexivity.
    + intros [= <-] Hr. apply Hlt in Hr. lia.
    + intros Hr [= <-]. apply Hlt in Hr. lia.
    + apply Hinj.
Qed.

Lemma scores_separate self obs V path h0 :
  is_Some (tables h0 !! path) ->
  post (scores self obs V path) h0
    (fun r h => separate h (snd r)) (fun _ _ => True).
Proof.
  intros Hpath. unfold scores. mstep.
  eapply post_weaken with
    (Q := fun _ h => tables h = tables h0) (E := fun _ _ => True); [| |trivial].
  - destruct V as [v|]; [now mstep|]. mstep. mstep; [|trivial]. now mstep.
  - intros v h Ht. mstep. mstep. mstep. mstep. simpl. mstep.
    eapply post_weaken;
      [apply post_for with
         (I := fun h' => separate h' (length (tables h)))
         (E := fun _ _ => True)| |trivial].
    + exists []. simpl. split; [now apply list_lookup_middle|].
      split; intros; discriminate.
    + intros se h1 _ HI. apply score_separate; [|exact HI].
      rewrite Ht. apply lookup_lt_is_Some in Hpath. lia.
    + intros [] h1 HI. now mstep.
Qed.

Lemma step_separate self obs V path h0 :
  is_Some (tables h0 !! path) ->
  post (step self obs V path) h0
    (fun r h => separate h (snd r)) (fun _ _ => True).
Proof.
  intros Hpath. unfold step. mstep.
  eapply post_weaken; [now apply scores_separate| |trivial].
  intros [new_V np] h (npt & Hnpt & Hlt & Hinj). simpl in Hnpt.
  mstep.
  eapply post_weaken; [apply normalize_post| |trivial].
  intros new_V' h1 [Ht Hl]. mstep.
  eapply post_weaken; [apply prune_post| |trivial].
  intros [] h2 (Hl2 & _ & _ & Hsub). mstep. simpl.
  destruct (Hsub npt) as (npt' & Hnpt' & Hin); [now rewrite Ht|].
  exists npt'. split; [exact Hnpt'|]. rewrite Hl2, Hl. split.
  - intros to r Hr. apply (Hlt to). now apply Hin.
  - intros t1 t2 r H1 H2. apply (Hinj t1 t2 r); now apply Hin.
Qed.

(** X18: the paths that a call returns are lists of their own: no two states
    of the returned table share a list, so that changing the path of one
    state changes the path of no other. *)
Theorem step_paths_distinct self obs V path h new_V new_path h'
    (npt : dict loc) t1 t2 r1 r2 :
  is_Some (tables h !! path) ->
  step self obs V path h = Return (new_V, new_path) h' ->
  tables h' !! new_path = Some npt ->
  t1 <> t2 -> dget npt t1 = Some r1 -> dget npt t2 = Some r2 -> r1 <> r2.
Proof.
  intros Hpath Hstep Hnpt Hne H1 H2 Heq.
  destruct (post_Return _ _ _ _ _ _ (step_separate self obs V path h Hpath) Hstep)
    as (npt' & Hnpt' & _ & Hinj). simpl in Hnpt'.
  assert (npt' = npt) as -> by congruence.
  subst r2. now apply Hne, (Hinj t1 t2 r1).
Qed.

Lemma step_paths_distinct_witness :
  is_Some (tables sticky_heap !! 0) /\
  step sticky "x" (Some 2) 0 sticky_heap = Return (4, 1) sticky_heap_shared /\
  tables sticky_heap_shared !! 1 = Some [("A", 1); ("B", 2)] /\
  "A" <> "B" /\
  dget [("A", 1); ("B", 2)] "A" = Some 1 /\
  dget [("A", 1); ("B", 2)] "B" = Some 2 /\
  1 <> 2.
Proof.
  assert (Hpath : is_Some (tables sticky_heap !! 0)) by (eexists; reflexivity).
  assert (Hne : "A" <> "B") by discriminate.
  split; [exact Hpath|]. split; [exact step_sticky_shared|]. split; [reflexivity|].
  split; [exact Hne|]. split; [reflexivity|]. split; [reflexivity|].
  exact (step_paths_distinct sticky "x" (Some 2) 0 sticky_heap 4 1
           sticky_heap_shared [("A", 1); ("B", 2)] "A" "B" 1 2
           Hpath step_sticky_shared eq_refl Hne eq_refl eq_refl).
Defined.

(** ** Construction followed by a first call *)

Lemma dkeys_uniform hmm : dkeys (uniform hmm) = dkeys hmm.
Proof. unfold dkeys at 1, uniform. rewrite map_map. apply map_id. Qed.

Lemma init_then_step hmm ep L cs floor h path :
  dict_wf hmm -> table_valid h path ->
  exists self h1,
    __init__ hmm ep None L cs floor h = Return self h1 /\
    constraint_length self = L /\
    emission_probability self = ep /\
    candidate_states self = match cs with Some f => f | None => fun _ => dkeys hmm end /\
    input_dist self None h1 = Some (uniform hmm) /\
    table_valid h1 path /\
    dists h1 !! priors self = Some (uniform hmm) /\
    dict_wf (uniform hmm) /\
    (forall to, is_Some (dget (incoming self) to) <-> exists f p, edge hmm f to p).
Proof.
  intros Hwf Hvalid.
  destruct (init_default hmm ep None L cs floor h Hwf (or_introl eq_refl))
    as (inc & Hrun & Hinv).
  destruct (inverted_all_index hmm inc Hinv) as (Hs & Hc & Hn).
  eexists _, _. split; [exact Hrun|]. simpl.
  assert (Hp : (dists h ++ [uniform hmm]) !! length (dists h) = Some (uniform hmm))
    by (now apply list_lookup_middle).
  repeat (split; [first [reflexivity | exact Hp | exact Hvalid]|]).
  split; [unfold dict_wf; now rewrite dkeys_uniform|].
  intros to. split.
  - intros [inner Hinner]. pose proof (Hn to inner Hinner) as Hne.
    destruct inner as [|[f q] inner]; [now destruct Hne|].
    exists f, q. apply Hs. exists ((f, q) :: inner). split; [exact Hinner|].
    simpl. now rewrite String.eqb_refl.
  - intros (f & p & He). destruct (Hc f to p He) as (q & inner & Hinner & _).
    now exists inner.
Qed.

(** X19: construction without priors followed by a first call.  With a
    window of at least one state, the call returns when every candidate
    with a positive emission probability is the target of some edge of the
    graph. *)
Theorem init_then_step_returns hmm ep L cs floor h path obs :
  dict_wf hmm -> table_valid h path -> L <> 0 ->
  (forall to,
     In to (match cs with Some f => f obs | None => dkeys hmm end) ->
     (0 <? ep to obs)%float = true -> exists f p, edge hmm f to p) ->
  exists self h1 new_V new_path h',
    __init__ hmm ep None L cs floor h = Return self h1 /\
    step self obs None path h1 = Return (new_V, new_path) h'.
Proof.
  intros Hwf Hvalid HL Hedges.
  destruct (init_then_step hmm ep L cs floor h path Hwf Hvalid)
    as (self & h1 & Hrun & HLs & Hep & Hcs & HV & Hvalid1 & Hp & Hwfp & Hinc).
  exists self, h1.
  pose proof (step_outcome self obs None path h1 (uniform hmm) (uniform hmm)
                HV Hvalid1 Hp Hwfp) as H.
  destruct (step self obs None path h1) as [[new_V new_path] h'|ex h'].
  - now exists new_V, new_path, h'.
  - exfalso. destruct H as [(_ & to & [Hto He] & Hto')|[_ HL0]]; [|congruence].
    rewrite Hep in He. rewrite Hcs in Hto.
    destruct (proj2 (Hinc to)) as [inner Hinner]; [|congruence].
    apply Hedges; [|exact He]. now destruct cs.
Qed.

Lemma init_then_step_returns_witness :
  dict_wf sticky_hmm /\ table_valid fresh_heap 0 /\ 2 <> 0 /\
  (forall to, In to (dkeys sticky_hmm) -> (0 <? favours_B to "x")%float = true ->
     exists f p, edge sticky_hmm f to p) /\
  exists self h1 new_V new_path h',
    __init__ sticky_hmm favours_B None 2 None default_smallV fresh_heap
      = Return self h1 /\
    step self "x" None 0 h1 = Return (new_V, new_path) h'.
Proof.
  assert (HL : 2 <> 0) by discriminate.
  split; [exact dict_wf_sticky_hmm|]. split; [exact table_valid_fresh|].
  split; [exact HL|]. split; [exact sticky_hmm_reached|].
  exact (init_then_step_returns sticky_hmm favours_B 2 None default_smallV
           fresh_heap 0 "x" dict_wf_sticky_hmm table_valid_fresh HL
           sticky_hmm_reached).
Defined.

(** X20: construction without priors followed by a first call.  With a
    window of at least one state, the call raises [KeyError] when one
    candidate with a positive emission probability is the target of no edge
    of the graph; with the default candidates, every state of the graph is
    a candidate. *)
Theorem init_then_step_KeyError hmm ep L cs floor h path obs to :
  dict_wf hmm -> table_valid h path -> L <> 0 ->
  In to (match cs with Some f => f obs | None => dkeys hmm end) ->
  (0 <? ep to obs)%float = true ->
  (forall f p, ~ edge hmm f to p) ->
  exists self h1 h',
    __init__ hmm ep None L cs floor h = Return self h1 /\
    step self obs None path h1 = Raise KeyError h'.
Proof.
  intros Hwf Hvalid HL Hto He Hnone.
  destruct (init_then_step hmm ep L cs floor h path Hwf Hvalid)
    as (self & h1 & Hrun & HLs & Hep & Hcs & HV & Hvalid1 & Hp & Hwfp & Hinc).
  assert (Hto' : In to (candidate_states self obs))
    by (rewrite Hcs; now destruct cs).
  assert (He' : (0 <? emission_probability self to obs)%float = true)
    by (now rewrite Hep).
  assert (Hmissing : dget (incoming self) to = None).
  { destruct (dget (incoming self) to) as [inner|] eqn:Hinner; [|reflexivity].
    destruct (proj1 (Hinc to)) as (f & p & Hedge); [now exists inner|].
    now destruct (Hnone f p). }
  pose proof (step_outcome self obs None path h1 (uniform hmm) (uniform hmm)
                HV Hvalid1 Hp Hwfp) as H.
  destruct (step_raises_without_incoming self obs None path h1 to Hto' He' Hmissing)
    as (ex & h' & Hraise).
  rewrite Hraise in H. exists self, h1, h'. split; [exact Hrun|].
  destruct H as [[-> _]|[_ HL0]]; [exact Hraise|congruence].
Qed.

Lemma init_then_step_KeyError_witness :
  dict_wf source_hmm /\ table_valid fresh_heap 0 /\
  default_constraint_length <> 0 /\
  In "A" (dkeys source_hmm) /\ (0 <? always_1 "A" "x")%float = true /\
  (forall f p, ~ edge source_hmm f "A" p) /\
  exists self h1 h',
    __init__ source_hmm always_1 None default_constraint_length None default_smallV
      fresh_heap = Return self h1 /\
    step self "x" None 0 h1 = Raise KeyError h'.
Proof.
  assert (Hwf : dict_wf source_hmm) by wf.
  assert (HL : default_constraint_length <> 0) by discriminate.
  assert (HA : In "A" (dkeys source_hmm)) by (now left).
  split; [exact Hwf|]. split; [exact table_valid_fresh|]. split; [exact HL|].
  split; [exact HA|]. split; [reflexivity|]. split; [exact source_hmm_A_unreached|].
  exact (init_then_step_KeyError source_hmm always_1 default_constraint_length None
           default_smallV fresh_heap 0 "x" "A" Hwf table_valid_fresh HL HA eq_refl
           source_hmm_A_unreached).
Defined.

(** * C4: construction and malformed graphs *)

(** C4 (counterexample): a graph with a transition probability of 2 is
    malformed, yet construction returns an engine for it, and a call of
    [step] on that engine returns as well. *)
Lemma init_accepts_bad_probability :
  malformed bad_hmm = true /\
  __init__ bad_hmm always_1 None default_constraint_length None default_smallV
    empty_heap = Return bad (Heap [[("A", 1%float)]] [] []) /\
  step bad "x" None 0 (Heap [[("A", 1%float)]] [[]] []) =
  Return (3, 1)
    (Heap [[("A", 1%float)]; [("A", 1%float)]; [("A", 2%float)]; [("A", 1%float)]]
          [[("A", 0)]; [("A", 1)]] [[]; ["A"]]).
Proof. split; [reflexivity|]. split; vm_compute; reflexivity. Qed.

Lemma init_anatomy hmm ep priors L cs floor h :
  dict_wf hmm ->
  (forall p, priors = Some p -> is_Some (dists h !! p)) ->
  (forall p d, priors = Some p -> dists h !! p = Some d -> dict_wf d) ->
  exists self h' (pd : dict float),
    __init__ hmm ep priors L cs floor h = Return self h' /\
    dists h' !! Viterbi.priors self = Some pd /\ dict_wf pd /\
    inverted_all hmm (dkeys hmm) [] (incoming self).
Proof.
  intros Hwf Hp Hwfp. destruct priors as [p|].
  - destruct (Hp p eq_refl) as [[|kv d] Hd].
    + destruct (init_default hmm ep (Some p) L cs floor h Hwf) as (inc & Hrun & Hinv).
      { right. now exists p. }
      eexists _, _, (uniform hmm). split; [exact Hrun|]. simpl.
      split; [now apply list_lookup_middle|].
      split; [unfold dict_wf; now rewrite dkeys_uniform|exact Hinv].
    + destruct (init_given hmm ep p L cs floor h (kv :: d) Hd) as (inc & Hrun & Hinv);
        [discriminate|].
      eexists _, _, (kv :: d). split; [exact Hrun|]. simpl.
      split; [exact Hd|]. split; [now apply (Hwfp p)|exact Hinv].
  - destruct (init_default hmm ep None L cs floor h Hwf) as (inc & Hrun & Hinv);
      [now left|].
    eexists _, _, (uniform hmm). split; [exact Hrun|]. simpl.
    split; [now apply list_lookup_middle|].
    split; [unfold dict_wf; now rewrite dkeys_uniform|exact Hinv].
Qed.

(** C4 (amended): construction validates nothing and raises nothing: for
    every transition graph, malformed or not, it returns an engine that
    holds the graph as it was given.  Decoding is not stopped either: the
    reverse index of the engine holds the probabilities of the graph as
    they are, and with a window of at least one state a call of [step],
    on any store in which the priors are as construction left them,
    returns whenever every candidate with a positive emission probability
    is the target of some edge, whatever the probabilities of the graph
    are ([dict_wf]: the graph and the priors are dicts, no key occurs
    twice). *)
Theorem init_accepts_every_graph hmm ep priors L cs floor h :
  (forall p, priors = Some p -> is_Some (dists h !! p)) ->
  exists self h',
    __init__ hmm ep priors L cs floor h = Return self h' /\
    Viterbi.hmm self = hmm /\ constraint_length self = L /\ smallV self = floor /\
    (dict_wf hmm ->
     (forall p d, priors = Some p -> dists h !! p = Some d -> dict_wf d) ->
     (forall to f q, entry (incoming self) to f q -> edge hmm f to q) /\
     (forall f to p, edge hmm f to p -> exists q, entry (incoming self) to f q) /\
     forall hs obs V path Vd,
       dists hs !! Viterbi.priors self = dists h' !! Viterbi.priors self ->
       input_dist self V hs = Some Vd -> table_valid hs path -> L <> 0 ->
       (forall to, emitting self obs to -> exists f p, edge hmm f to p) ->
       exists new_V new_path h'',
         step self obs V path hs = Return (new_V, new_path) h'').
Proof.
  intros Hpriors. pose proof (init_post hmm ep priors L cs floor h Hpriors) as H.
  unfold post in H.
  destruct (__init__ hmm ep priors L cs floor h) as [self h'|e h'] eqn:Hrun;
    [|contradiction].
  destruct H as (H1 & H2 & H3 & _). exists self, h'.
  split; [reflexivity|]. split; [exact H1|]. split; [exact H2|]. split; [exact H3|].
  intros Hwf Hwfp.
  destruct (init_anatomy hmm ep priors L cs floor h Hwf Hpriors Hwfp)
    as (self' & h2 & pd & Hrun' & Hpd & Hwfpd & Hinv).
  rewrite Hrun in Hrun'. injection Hrun' as <- <-.
  destruct (inverted_all_index hmm (incoming self) Hinv) as (Hsound & Hcomplete & _).
  split; [exact Hsound|]. split; [exact Hcomplete|].
  intros hs obs V path Vd Hsame HV Hvalid HL Hreached.
  rewrite <- Hsame in Hpd.
  pose proof (step_outcome self obs V path hs Vd pd HV Hvalid Hpd Hwfpd) as Hout.
  destruct (step self obs V path hs) as [[new_V new_path] h''|ex h''].
  - now exists new_V, new_path, h''.
  - exfalso. destruct Hout as [(_ & to & Hto & Hnone)|[_ HL0]]; [|congruence].
    destruct (Hreached to Hto) as (f & p & Hedge).
    destruct (Hcomplete f to p Hedge) as (q & inner & Hinner & _). congruence.
Qed.

Lemma table_valid_first (d : dict float) : table_valid (Heap [d] [[]] []) 0.
Proof. exists []. split; [reflexivity|]. intros s r [=]. Qed.

Lemma bad_hmm_reached to :
  emitting bad "x" to -> exists f p, edge bad_hmm f to p.
Proof.
  intros [[<-|[]] _]. exists "A", 2%float, [("A", 2%float)].
  split; [reflexivity|now left].
Qed.

Lemma init_accepts_every_graph_witness :
  (forall p, @None loc = Some p -> is_Some (dists fresh_heap !! p)) /\
  malformed bad_hmm = true /\
  exists self h',
    __init__ bad_hmm always_1 None default_constraint_length None default_smallV
      fresh_heap = Return self h' /\
    Viterbi.hmm self = bad_hmm /\
    constraint_length self = default_constraint_length /\
    smallV self = default_smallV /\
    entry (incoming self) "A" "A" 2 /\
    exists new_V new_path h'',
      step self "x" None 0 h' = Return (new_V, new_path) h''.
Proof.
  assert (Hp : forall p, @None loc = Some p -> is_Some (dists fresh_heap !! p))
    by discriminate.
  assert (Hwf : dict_wf bad_hmm) by wf.
  assert (Hwfp : forall p (d : dict float),
            @None loc = Some p -> dists fresh_heap !! p = Some d -> dict_wf d)
    by discriminate.
  assert (Hinit :
    __init__ bad_hmm always_1 None default_constraint_length None default_smallV
      fresh_heap = Return bad (Heap [[("A", 1%float)]] [[]] []))
    by (vm_compute; reflexivity).
  assert (HL : default_constraint_length <> 0) by discriminate.
  split; [exact Hp|]. split; [reflexivity|].
  destruct (init_accepts_every_graph bad_hmm always_1 None default_constraint_length
              None default_smallV fresh_heap Hp)
    as (self & h' & Hrun & Hhmm & Hlen & Hfloor & Hdecode).
  destruct (Hdecode Hwf Hwfp) as (_ & Hcomplete & Hstep).
  exists self, h'. split; [exact Hrun|]. split; [exact Hhmm|].
  split; [exact Hlen|]. split; [exact Hfloor|].
  rewrite Hinit in Hrun. injection Hrun as <- <-.
  split; [exists [("A", 2%float)]; now split|].
  exact (Hstep (Heap [[("A", 1%float)]] [[]] []) "x" None 0 [("A", 1%float)]
           eq_refl eq_refl (table_valid_first [("A", 1%float)]) HL
           bad_hmm_reached).
Defined.
